(** * Ordering and notification engine of the LoopBack registries

    A shallow embedding of
    - [LifeCycleObserverRegistry] (packages/core, life cycle registry), and
    - [MiddlewareRegistry] (packages/rest/src/middleware-registry.ts),
    together with the properties of group classification, group ordering,
    life cycle notification and router assembly.

    Conventions of the embedding.
    - A JavaScript string is a [string]; its characters stand for the code
      units that the JavaScript operators [<] and [>] compare.
    - A tag map is a finite map from tag names to tag values.  Tag values are
      strings, as the declared types have them ([group: string],
      [phase?: string]); a tag that is not set reads as [undefined], that is
      [None].
    - An array is a [list]; a [Map] is an association list in insertion
      order, which is the order in which [Map.prototype.entries] iterates.
    - Where it matters that arrays are shared and written to in place, the
      methods run on a heap of arrays ([Store]); the run is then compared
      with the methods on lists. *)

From Stdlib Require Import ZArith String Ascii List Sorted Permutation Lia.
From stdpp Require Import base option list gmap strings sorting.

Local Open Scope string_scope.
Local Open Scope list_scope.
Local Open Scope Z_scope.

(** ** The JavaScript operations the two registries rely on *)

Module JS.

(** [!v] is false exactly for a defined, non-empty string. *)
Definition truthy (v : option string) : bool :=
  match v with
  | Some s => negb (String.eqb s "")
  | None => false
  end.

(** [v || ''] at type string. *)
Definition or_empty (v : option string) : string :=
  match v with
  | Some s => if truthy v then s else ""
  | None => ""
  end.

(** Truthiness of an optional boolean field. *)
Definition truthy_bool (v : option bool) : bool :=
  match v with
  | Some b => b
  | None => false
  end.

(** [a[i]] for an integer [i]; [None] is [undefined]. *)
Definition nth {A} (a : list A) (i : Z) : option A :=
  if i <? 0 then None else a !! Z.to_nat i.

(** [Array.prototype.indexOf]: the first position of [x], or [-1]. *)
Fixpoint indexOf {A} `{EqDecision A} (l : list A) (x : A) : Z :=
  match l with
  | [] => -1
  | y :: l' =>
      if decide (y = x) then 0
      else let i := indexOf l' x in if i =? -1 then -1 else i + 1
  end.

(** [Array.prototype.find]: the first element that satisfies [p], or
    [undefined]. *)
Fixpoint find {A} (p : A -> bool) (l : list A) : option A :=
  match l with
  | [] => None
  | x :: l' => if p x then Some x else find p l'
  end.

(** [s1 < s2] on strings. *)
Definition lt (s1 s2 : string) : bool := String.ltb s1 s2.

(** [Map]: keys in insertion order. *)
Definition Map (K V : Type) : Type := list (K * V).

Fixpoint Map_get {K V} `{EqDecision K} (m : Map K V) (k : K) : option V :=
  match m with
  | [] => None
  | (k', v) :: m' => if decide (k' = k) then Some v else Map_get m' k
  end.

(** [Map.prototype.set]: an existing key keeps its position, a new key is
    added last. *)
Fixpoint Map_set {K V} `{EqDecision K} (m : Map K V) (k : K) (v : V) : Map K V :=
  match m with
  | [] => [(k, v)]
  | (k', v') :: m' =>
      if decide (k' = k) then (k, v) :: m' else (k', v') :: Map_set m' k v
  end.

(** [Array.prototype.sort(compare)].  The comparator returns a number;
    [a] goes before [b] when [compare a b < 0].  The model is the stable
    insertion sort; lemma [sort_unique] below shows that for the
    comparators of the registries every sorting algorithm returns the same
    array. *)
Fixpoint sort_insert {A} (compare : A -> A -> Z) (x : A) (l : list A) : list A :=
  match l with
  | [] => [x]
  | y :: l' =>
      if compare y x <=? 0 then y :: sort_insert compare x l'
      else x :: y :: l'
  end.

Definition sort {A} (compare : A -> A -> Z) (l : list A) : list A :=
  fold_left (fun acc x => sort_insert compare x acc) l [].

End JS.

(** ** Bindings (the part of [@loopback/context] the registries read) *)

Inductive BindingType := CONSTANT | DYNAMIC_VALUE | CLASS | PROVIDER.
Inductive BindingScope := TRANSIENT | CONTEXT | SINGLETON.

#[global] Instance BindingType_eq_dec : EqDecision BindingType.
Proof. solve_decision. Defined.
#[global] Instance BindingScope_eq_dec : EqDecision BindingScope.
Proof. solve_decision. Defined.

Record Binding := {
  key : string;
  type : BindingType;
  scope : BindingScope;
  tagMap : gmap string string;
}.

#[global] Instance Binding_eq_dec : EqDecision Binding.
Proof. solve_decision. Defined.

(** The constants of [CoreTags] (./keys) that the life cycle registry reads. *)
Record CoreTagNames := {
  LIFE_CYCLE_OBSERVER : string;
  LIFE_CYCLE_OBSERVER_GROUP : string;
}.

(** A rejection reason (the value a rejected promise carries). *)
Definition Error := string.

(** ** Promises on a logical clock

    The asynchronous parts are modelled on a logical clock.  A call of an
    async function is recorded with the instant at which it is made, the
    instant at which its promise settles and the rejection reason, if any.
    [await p] resumes the caller at the instant [p] settles. *)

Record Call := {
  callee : string;           (* key of the binding being notified *)
  called : nat;
  settled : nat;
  rejected : option Error;
}.

Module Promise.

(** Whether the rejection of [c] reaches [Promise.all] no later than the
    one of [c'], a call made after it.  The call that settles first is
    heard first.  Of two calls that settle at the same instant, the one
    whose rejection has passed through fewer [await]s on its way out
    ([awaits]) is heard first, its chain of promise reactions being the
    shorter one; where the two have passed through as many, the one made
    first is. *)
Definition heard_first (awaits : Call -> nat) (c c' : Call) : bool :=
  (settled c <? settled c')%nat
  || ((settled c =? settled c')%nat && (awaits c <=? awaits c')%nat).

(** The rejected call that [Promise.all] hears of first. *)
Fixpoint first_rejected (awaits : Call -> nat) (notifiers : list Call)
    : option Call :=
  match notifiers with
  | [] => None
  | c :: cs =>
      match rejected c, first_rejected awaits cs with
      | None, r => r
      | Some _, None => Some c
      | Some _, Some c' =>
          if heard_first awaits c c' then Some c else Some c'
      end
  end.

(** The instant at which the last of the calls settles. *)
Definition all_settled (t : nat) (notifiers : list Call) : nat :=
  fold_right (fun c m => Nat.max (settled c) m) t notifiers.

(** [await Promise.all(notifiers)] entered at instant [t]: rejected with
    the reason of the first promise to reject, at the instant it rejects;
    otherwise fulfilled once every promise is fulfilled. *)
Definition all (awaits : Call -> nat) (t : nat) (notifiers : list Call)
    : nat * option Error :=
  match first_rejected awaits notifiers with
  | Some c => (Nat.max t (settled c), rejected c)
  | None => (all_settled t notifiers, None)
  end.

End Promise.

(** ** The life cycle observer registry *)

Module Lifecycle.

Record LifeCycleObserverGroup := {
  group : string;
  bindings : list Binding;
}.

Record LifeCycleObserverOptions := {
  groupsByOrder : list string;
  parallel : option bool;
}.

(** A method of an observer: the promise it returns settles [duration]
    ticks after the call and is rejected when [failure] is set. *)
Record Method := {
  duration : nat;
  failure : option Error;
}.

(** An observer maps the names of the events it implements to methods. *)
Definition LifeCycleObserver := gmap string Method.

(** [ctx.get(key)]: the promise settles after [latency] ticks, rejected or
    fulfilled with the instance. *)
Record Resolution := {
  latency : nat;
  instance : Error + LifeCycleObserver;
}.

(** The context: its name, its bindings in registration order, and what
    resolving a key yields. *)
Record Context := {
  name : string;
  registered : list Binding;
  get : string -> Resolution;
}.

Record LifeCycleObserverRegistry := {
  ctx : Context;
  options : LifeCycleObserverOptions;
}.

(** The constructor; [options] is [None] when no value is injected. *)
Definition new (ctx : Context) (options : option LifeCycleObserverOptions)
    : LifeCycleObserverRegistry :=
  {| ctx := ctx;
     options :=
       match options with
       | Some o => o
       | None => {| parallel := Some true; groupsByOrder := ["server"] |}
       end |}.

(** One execution of [notifyObserverGroup], as it appears in the trace. *)
Record Visit := {
  visit_event : string;
  visit_group : string;
  visit_calls : list Call;
}.

(** The state an async method runs in: the clock and the trace so far. *)
Record World := {
  now : nat;
  trace : list Visit;
}.

(** An async method: from the world at the call to the world at the
    instant its promise settles, rejected ([inl]) or fulfilled ([inr]). *)
Definition Async (A : Type) : Type := World -> World * (Error + A).

Definition resolve {A} (a : A) : Async A := fun w => (w, inr a).

Definition await {A B} (p : Async A) (k : A -> Async B) : Async B :=
  fun w =>
    match p w with
    | (w', inl e) => (w', inl e)
    | (w', inr a) => k a w'
    end.

(** [for (const x of xs) { await body(x) }] *)
Fixpoint for_of {A} (xs : list A) (body : A -> Async unit) : Async unit :=
  match xs with
  | [] => resolve tt
  | x :: xs' => await (body x) (fun _ => for_of xs' body)
  end.

Section Registry.
Variable CoreTags : CoreTagNames.
Variable this : LifeCycleObserverRegistry.

(** [findObserverBindings] *)
Definition findObserverBindings : list Binding :=
  List.filter
    (fun binding =>
       (bool_decide (type binding = CONSTANT)
        || bool_decide (scope binding = SINGLETON))
       && bool_decide (tagMap binding !! LIFE_CYCLE_OBSERVER CoreTags <> None))
    (registered (ctx this)).

(** [getObserverGroup] *)
Definition getObserverGroup (binding : Binding) : string :=
  let group := tagMap binding !! LIFE_CYCLE_OBSERVER_GROUP CoreTags in
  let group :=
    if negb (JS.truthy group)
    then JS.find (fun g => bool_decide (tagMap binding !! g = Some g))
                 (groupsByOrder (options this))
    else group in
  JS.or_empty group.

(** The body of the first loop of [sortObserverBindingsByGroup]: the
    array stored under the group is created when missing, and the
    binding is pushed onto it. *)
Definition groupMap_add (groupMap : JS.Map string (list Binding))
    (binding : Binding) : JS.Map string (list Binding) :=
  let group := getObserverGroup binding in
  match JS.Map_get groupMap group with
  | None => JS.Map_set groupMap group [binding]
  | Some bindingsInGroup =>
      JS.Map_set groupMap group (bindingsInGroup ++ [binding])
  end.

(** [groupMap] after the first loop. *)
Definition groupMap_of (bindings : list Binding)
    : JS.Map string (list Binding) :=
  fold_left groupMap_add bindings [].

(** The array [groups] before it is sorted. *)
Definition groups_of (bindings : list Binding) : list LifeCycleObserverGroup :=
  map (fun entry => {| group := entry.1; bindings := entry.2 |})
      (groupMap_of bindings).

(** The comparator handed to [sort]. *)
Definition compareGroups (g1 g2 : LifeCycleObserverGroup) : Z :=
  let i1 := JS.indexOf (groupsByOrder (options this)) (group g1) in
  let i2 := JS.indexOf (groupsByOrder (options this)) (group g2) in
  if negb (i1 =? -1) || negb (i2 =? -1) then i1 - i2
  else if JS.lt (group g1) (group g2) then -1
  else if JS.lt (group g2) (group g1) then 1
  else 0.

(** [sortObserverBindingsByGroup] *)
Definition sortObserverBindingsByGroup (bindings : list Binding)
    : list LifeCycleObserverGroup :=
  JS.sort compareGroups (groups_of bindings).

(** [getObserverGroupsByOrder] *)
Definition getObserverGroupsByOrder : list LifeCycleObserverGroup :=
  sortObserverBindingsByGroup findObserverBindings.

(** [invokeObserver], called at instant [t]: the instant it settles and
    the rejection reason.  An observer without the method is skipped. *)
Definition invokeObserver (observer : LifeCycleObserver) (event : string)
    (t : nat) : nat * option Error :=
  match observer !! event with
  | Some m => ((t + duration m)%nat, failure m)
  | None => (t, None)
  end.

(** The inner function [notifyObserver] of [notifyObserverGroup], called
    at instant [t]. *)
Definition notifyObserver (event : string) (t : nat) (binding : Binding)
    : Call :=
  let r := get (ctx this) (key binding) in
  let t1 := (t + latency r)%nat in
  match instance r with
  | inl e =>
      {| callee := key binding; called := t; settled := t1;
         rejected := Some e |}
  | inr observer =>
      let '(t2, e) := invokeObserver observer event t1 in
      {| callee := key binding; called := t; settled := t2;
         rejected := e |}
  end.

(** The loop of [notifyObserverGroup] when [parallel] is not set: each
    call is awaited before the next one is made, and a rejection leaves
    the loop. *)
Fixpoint notifyInTurn (event : string) (t : nat) (bs : list Binding)
    : list Call * nat * option Error :=
  match bs with
  | [] => ([], t, None)
  | b :: bs' =>
      let c := notifyObserver event t b in
      match rejected c with
      | Some e => ([c], settled c, Some e)
      | None =>
          let '(cs, t', r) := notifyInTurn event (settled c) bs' in
          (c :: cs, t', r)
      end
  end.

(** The [await]s the rejection of a call has passed through when it leaves
    [notifyObserver]: the one on [ctx.get] when the instance does not
    resolve; that one, the one of [invokeObserver] and the second one of
    [notifyObserver] when the method is rejected. *)
Definition awaits (call : Call) : nat :=
  match instance (get (ctx this) (callee call)) with
  | inl _ => 1
  | inr _ => 3
  end.

(** [notifyObserverGroup] *)
Definition notifyObserverGroup (group : LifeCycleObserverGroup)
    (event : string) : Async unit :=
  fun w =>
    let '(calls, t, r) :=
      if JS.truthy_bool (parallel (options this)) then
        let notifiers := map (notifyObserver event (now w)) (bindings group) in
        let '(t, r) := Promise.all awaits (now w) notifiers in
        (notifiers, t, r)
      else notifyInTurn event (now w) (bindings group) in
    let w' :=
      {| now := t;
         trace := trace w ++ [{| visit_event := event;
                                 visit_group := Lifecycle.group group;
                                 visit_calls := calls |}] |} in
    match r with
    | Some e => (w', inl e)
    | None => (w', inr tt)
    end.

(** [notifyGroups] *)
Definition notifyGroups (events : list string)
    (groups : list LifeCycleObserverGroup) : Async unit :=
  for_of events (fun event =>
    for_of groups (fun g => notifyObserverGroup g event)).

(** [start] *)
Definition start : Async unit :=
  fun w =>
    let groups := getObserverGroupsByOrder in
    notifyGroups ["preStart"; "start"; "postStart"] groups w.

(** [stop] *)
Definition stop : Async unit :=
  fun w =>
    let groups := rev getObserverGroupsByOrder in
    notifyGroups ["preStop"; "stop"; "postStop"] groups w.

End Registry.

(** [setGroupsByOrder]; [groups] is [None] for [undefined] and [null].  An
    array, also an empty one, is truthy and is stored as it is. *)
Definition setGroupsByOrder (this : LifeCycleObserverRegistry)
    (groups : option (list string)) : LifeCycleObserverRegistry :=
  {| ctx := ctx this;
     options :=
       {| groupsByOrder :=
            match groups with
            | Some groups => groups
            | None => ["server"]
            end;
          parallel := parallel (options this) |} |}.

End Lifecycle.

(** ** The middleware registry *)

Module Middleware.

Record MiddlewarePhase := {
  phase : string;
  bindings : list Binding;
}.

Record MiddlewareOptions := {
  phasesByOrder : list string;
  parallel : option bool;
}.

(** The part of a [ContextView] the registry reads: the bindings that
    match the middleware filter, in registration order. *)
Record ContextView := {
  view_bindings : list Binding;
}.

Record MiddlewareRegistry := {
  middlewareView : ContextView;
  options : MiddlewareOptions;
}.

(** The constructor; [options] is [None] when no value is injected. *)
Definition new (middlewareView : ContextView)
    (options : option MiddlewareOptions) : MiddlewareRegistry :=
  {| middlewareView := middlewareView;
     options :=
       match options with
       | Some o => o
       | None => {| parallel := Some false; phasesByOrder := [] |}
       end |}.

(** What [use] adds to a router: a handler, mounted at a path or not. *)
Record Layer (H : Type) := {
  path : option string;
  handle : option H;       (* [middleware[index]] *)
}.
Arguments path {H} _.
Arguments handle {H} _.

(** The [TypeError] with which the [use] of an express router refuses a
    handler that is not a function.  The wording of its message is
    express's own and is not modelled. *)
Definition TypeError : Error := "TypeError".

(** [router.use(path, fn)] and, with [path] not given, [router.use(fn)]
    of an express router: the layer the router gains, or the [TypeError]
    thrown for an [fn] that is [undefined]. *)
Definition use {H} (path : option string) (fn : option H) : Error + Layer H :=
  match fn with
  | Some _ => inr {| path := path; handle := fn |}
  | None => inl TypeError
  end.

(** [for (const x of xs) { body(x) }] with a body that may throw: what the
    rounds yield, in order, or what the first round to throw throws. *)
Fixpoint for_of {A B} (xs : list A) (body : A -> Error + B)
    : Error + list B :=
  match xs with
  | [] => inr []
  | x :: xs' =>
      match body x with
      | inl e => inl e
      | inr y =>
          match for_of xs' body with
          | inl e => inl e
          | inr ys => inr (y :: ys)
          end
      end
  end.

(** The root router is the sequence of its phase routers, each the
    sequence of its layers. *)
Definition Router (H : Type) : Type := list (list (Layer H)).

Section Registry.
Variable this : MiddlewareRegistry.

(** [getMiddlewarePhase] *)
Definition getMiddlewarePhase (binding : Binding) : string :=
  let phase := JS.or_empty (tagMap binding !! "phase") in
  phase.

(** The body of the first loop of [sortMiddlewareBindingsByPhase]. *)
Definition phaseMap_add (phaseMap : JS.Map string (list Binding))
    (binding : Binding) : JS.Map string (list Binding) :=
  let phase := getMiddlewarePhase binding in
  match JS.Map_get phaseMap phase with
  | None => JS.Map_set phaseMap phase [binding]
  | Some bindingsInPhase =>
      JS.Map_set phaseMap phase (bindingsInPhase ++ [binding])
  end.

(** [phaseMap] after the first loop. *)
Definition phaseMap_of (bindings : list Binding)
    : JS.Map string (list Binding) :=
  fold_left phaseMap_add bindings [].

(** The array [phases] before it is sorted. *)
Definition phases_of (bindings : list Binding) : list MiddlewarePhase :=
  map (fun '(phase, bindingsInPhase) =>
         {| phase := phase; bindings := bindingsInPhase |})
      (phaseMap_of bindings).

(** The comparator handed to [sort]. *)
Definition comparePhases (p1 p2 : MiddlewarePhase) : Z :=
  let i1 := JS.indexOf (phasesByOrder (options this)) (phase p1) in
  let i2 := JS.indexOf (phasesByOrder (options this)) (phase p2) in
  if negb (i1 =? -1) || negb (i2 =? -1) then i1 - i2
  else if JS.lt (phase p1) (phase p2) then -1
  else if JS.lt (phase p2) (phase p1) then 1
  else 0.

(** [sortMiddlewareBindingsByPhase] *)
Definition sortMiddlewareBindingsByPhase (bindings : list Binding)
    : list MiddlewarePhase :=
  JS.sort comparePhases (phases_of bindings).

(** [getMiddlewarePhasesByOrder] *)
Definition getMiddlewarePhasesByOrder : list MiddlewarePhase :=
  let bindings := view_bindings (middlewareView this) in
  sortMiddlewareBindingsByPhase bindings.

(** The inner loop of [createExpressRouter]: the layers of one phase
    router, or what [use] throws. *)
Definition phaseRouter_of {H} (middleware : list H)
    (bindings : list Binding) (phase : MiddlewarePhase)
    : Error + list (Layer H) :=
  for_of (Middleware.bindings phase) (fun binding =>
    let index := JS.indexOf bindings binding in
    if JS.truthy (tagMap binding !! "path")
    then use (tagMap binding !! "path") (JS.nth middleware index)
    else use None (JS.nth middleware index)).

(** [createExpressRouter].  [values] is what
    [await this.middlewareView.values()] yields in this invocation.  The
    promise is rejected when that promise is, and when a [use] throws. *)
Definition createExpressRouter {H} (values : Error + list H)
    : Error + Router H :=
  let phases := getMiddlewarePhasesByOrder in
  match values with
  | inl e => inl e
  | inr middleware =>
      let bindings := view_bindings (middlewareView this) in
      for_of phases (phaseRouter_of middleware bindings)
  end.

End Registry.

(** [setPhasesByOrder]; [phases] is [None] for [undefined] and [null]. *)
Definition setPhasesByOrder (this : MiddlewareRegistry)
    (phases : option (list string)) : MiddlewareRegistry :=
  {| middlewareView := middlewareView this;
     options :=
       {| phasesByOrder :=
            match phases with
            | Some phases => phases
            | None => []
            end;
          parallel := parallel (options this) |} |}.

End Middleware.

(** ** The middleware registry on arrays that are shared

    [sortMiddlewareBindingsByPhase] fills arrays with [push] and sorts an
    array where it lies, and [createExpressRouter] reads the array of the
    view before and after it has done so.  Here the same methods run on a
    heap in which every array is known by its reference, so that a write
    to an array shows wherever that array is read. *)

Module Store.

(** The reference of an array: its position in the heap. *)
Abbreviation ref := nat.

(** A [MiddlewarePhase] object holds the reference of the array of its
    bindings. *)
Record MiddlewarePhase := {
  phase : string;
  bindings : ref;
}.

(** The heap: the object [this.options], the arrays of bindings and the
    arrays of phases. *)
Record Heap := {
  options : Middleware.MiddlewareOptions;
  bindingArrays : list (list Binding);
  phaseArrays : list (list MiddlewarePhase);
}.

(** The registry reaches the array [this.middlewareView.bindings] by its
    reference. *)
Record MiddlewareRegistry := {
  middlewareView : ref;
}.

(** A run on the heap: the heap it leaves and what it returns ([inr]) or
    throws ([inl]); [None] when it reads a reference that the heap does
    not hold, or when a loop is out of rounds. *)
Definition Run (A : Type) : Type := Heap -> option (Heap * (Error + A)).

Definition ret {A} (a : A) : Run A := fun h => Some (h, inr a).

Definition bind {A B} (run : Run A) (k : A -> Run B) : Run B :=
  fun h =>
    match run h with
    | Some (h', inr a) => k a h'
    | Some (h', inl e) => Some (h', inl e)
    | None => None
    end.

Notation "'let*' x ':=' run 'in' k" := (bind run (fun x => k))
  (at level 10, x name, run at level 100, k at level 200, only parsing).

(** What a call that touches no array returns or throws. *)
Definition lift {A} (r : Error + A) : Run A := fun h => Some (h, r).

(** [[]], a new array of bindings. *)
Definition new_array : Run ref :=
  fun h =>
    Some ({| options := options h;
             bindingArrays := bindingArrays h ++ [[]];
             phaseArrays := phaseArrays h |},
          inr (length (bindingArrays h))).

(** [a.push(x)] on an array of bindings. *)
Definition push (a : ref) (x : Binding) : Run unit :=
  fun h =>
    match bindingArrays h !! a with
    | Some l =>
        Some ({| options := options h;
                 bindingArrays := <[a := l ++ [x]]> (bindingArrays h);
                 phaseArrays := phaseArrays h |},
              inr tt)
    | None => None
    end.

(** [a.indexOf(x)] on an array of bindings. *)
Definition indexOf (a : ref) (x : Binding) : Run Z :=
  fun h =>
    match bindingArrays h !! a with
    | Some l => Some (h, inr (JS.indexOf l x))
    | None => None
    end.

(** [[]], a new array of phases. *)
Definition new_phases : Run ref :=
  fun h =>
    Some ({| options := options h;
             bindingArrays := bindingArrays h;
             phaseArrays := phaseArrays h ++ [[]] |},
          inr (length (phaseArrays h))).

(** [a.push(x)] on an array of phases. *)
Definition push_phase (a : ref) (x : MiddlewarePhase) : Run unit :=
  fun h =>
    match phaseArrays h !! a with
    | Some l =>
        Some ({| options := options h;
                 bindingArrays := bindingArrays h;
                 phaseArrays := <[a := l ++ [x]]> (phaseArrays h) |},
              inr tt)
    | None => None
    end.

(** [a.sort(compare)] on an array of phases: the array is sorted where it
    lies and is returned.  The comparator reads [this.options]. *)
Definition sort (a : ref)
    (compare : Middleware.MiddlewareOptions ->
               MiddlewarePhase -> MiddlewarePhase -> Z) : Run ref :=
  fun h =>
    match phaseArrays h !! a with
    | Some l =>
        Some ({| options := options h;
                 bindingArrays := bindingArrays h;
                 phaseArrays :=
                   <[a := JS.sort (compare (options h)) l]> (phaseArrays h) |},
              inr a)
    | None => None
    end.

(** [for (const x of a) { ... }] over an array of the heap, from index
    [i] on, with [s] for the variables the body assigns.  The iterator
    reads [a[i]] from the heap as round [i] begins, and ends when [i] is
    no index of the array as it is then.  [fuel] bounds the rounds. *)
Fixpoint for_of {E S} (arrays : Heap -> list (list E)) (fuel : nat)
    (a : ref) (i : nat) (body : E -> S -> Run S) (s : S) : Run S :=
  match fuel with
  | O => fun _ => None
  | Datatypes.S fuel' => fun h =>
      match arrays h !! a with
      | None => None
      | Some l =>
          match l !! i with
          | None => Some (h, inr s)
          | Some x =>
              bind (body x s) (for_of arrays fuel' a (Datatypes.S i) body) h
          end
      end
  end.

(** [for (const entry of map.entries()) { ... }] over a [Map] that the
    body does not change. *)
Fixpoint for_of_entries {V} (entries : list (string * V))
    (body : string * V -> Run unit) : Run unit :=
  match entries with
  | [] => ret tt
  | entry :: entries' =>
      let* _ := body entry in for_of_entries entries' body
  end.

(** The comparator handed to [sort]. *)
Definition comparePhases (options : Middleware.MiddlewareOptions)
    (p1 p2 : MiddlewarePhase) : Z :=
  let i1 := JS.indexOf (Middleware.phasesByOrder options) (phase p1) in
  let i2 := JS.indexOf (Middleware.phasesByOrder options) (phase p2) in
  if negb (i1 =? -1) || negb (i2 =? -1) then i1 - i2
  else if JS.lt (phase p1) (phase p2) then -1
  else if JS.lt (phase p2) (phase p1) then 1
  else 0.

Section Registry.
Variable this : MiddlewareRegistry.
Variable fuel : nat.

(** [sortMiddlewareBindingsByPhase] *)
Definition sortMiddlewareBindingsByPhase (bindings : ref) : Run ref :=
  let* phaseMap :=
    for_of bindingArrays fuel bindings 0
      (fun binding (phaseMap : JS.Map string ref) =>
         let phase := Middleware.getMiddlewarePhase binding in
         match JS.Map_get phaseMap phase with
         | None =>
             let* bindingsInPhase := new_array in
             let phaseMap := JS.Map_set phaseMap phase bindingsInPhase in
             let* _ := push bindingsInPhase binding in
             ret phaseMap
         | Some bindingsInPhase =>
             let* _ := push bindingsInPhase binding in
             ret phaseMap
         end)
      [] in
  let* phases := new_phases in
  let* _ :=
    for_of_entries phaseMap (fun entry =>
      push_phase phases {| phase := entry.1; bindings := entry.2 |}) in
  sort phases comparePhases.

(** [getMiddlewarePhasesByOrder] *)
Definition getMiddlewarePhasesByOrder : Run ref :=
  let bindings := middlewareView this in
  sortMiddlewareBindingsByPhase bindings.

(** [createExpressRouter].  [values] is what
    [await this.middlewareView.values()] yields in this invocation; the
    heap is the same when the invocation resumes.  A router is the
    sequence of what has been mounted on it. *)
Definition createExpressRouter {H} (values : Error + list H)
    : Run (Middleware.Router H) :=
  let* phases := getMiddlewarePhasesByOrder in
  let* middleware := lift values in
  let bindings := middlewareView this in
  for_of phaseArrays fuel phases 0
    (fun phase rootRouter =>
       let bindingsInPhase := Store.bindings phase in
       let* phaseRouter :=
         for_of bindingArrays fuel bindingsInPhase 0
           (fun binding phaseRouter =>
              let* index := indexOf bindings binding in
              let* layer :=
                lift (if JS.truthy (tagMap binding !! "path")
                      then Middleware.use (tagMap binding !! "path")
                                          (JS.nth middleware index)
                      else Middleware.use None (JS.nth middleware index)) in
              ret (phaseRouter ++ [layer]))
           [] in
       ret (rootRouter ++ [phaseRouter]))
    [].

End Registry.

(** [setPhasesByOrder]; [phases] is [None] for [undefined] and [null]. *)
Definition setPhasesByOrder (phases : option (list string)) : Run unit :=
  fun h =>
    Some ({| options :=
               {| Middleware.phasesByOrder :=
                    match phases with
                    | Some phases => phases
                    | None => []
                    end;
                  Middleware.parallel := Middleware.parallel (options h) |};
             bindingArrays := bindingArrays h;
             phaseArrays := phaseArrays h |},
          inr tt).

End Store.

(** ** Concrete registries

    The scenarios the statements below are evaluated on. *)

Module Scenario.

(** The tag names of [CoreTags]. *)
Definition CoreTags : CoreTagNames :=
  {| LIFE_CYCLE_OBSERVER := "lifeCycleObserver";
     LIFE_CYCLE_OBSERVER_GROUP := "lifeCycleObserverGroup" |}.

(** A singleton binding tagged as a life cycle observer, with further
    tags. *)
Definition observerBinding (key : string) (tags : list (string * string))
    : Binding :=
  {| key := key; type := CLASS; scope := SINGLETON;
     tagMap := list_to_map (("lifeCycleObserver", "lifeCycleObserver") :: tags) |}.

Definition A : Binding := observerBinding "A" [("lifeCycleObserverGroup", "db")].
Definition B : Binding := observerBinding "B" [("lifeCycleObserverGroup", "server")].
Definition C : Binding := observerBinding "C" [].
(** [D] is tagged with the name of its group. *)
Definition D : Binding := observerBinding "D" [("server", "server")].
(** [E] carries an empty group tag next to the marker tag [server]. *)
Definition E : Binding :=
  observerBinding "E" [("lifeCycleObserverGroup", ""); ("server", "server")].

(** [F] and [G] are in the groups [b] and [a]. *)
Definition F : Binding := observerBinding "F" [("lifeCycleObserverGroup", "b")].
Definition G : Binding := observerBinding "G" [("lifeCycleObserverGroup", "a")].

(** An observer whose six methods all take [d] ticks; [start] is rejected
    with [e] when [e] is given. *)
Definition observer (d : nat) (e : option Error) : Lifecycle.LifeCycleObserver :=
  list_to_map
    [("preStart", {| Lifecycle.duration := d; Lifecycle.failure := None |});
     ("start", {| Lifecycle.duration := d; Lifecycle.failure := e |});
     ("postStart", {| Lifecycle.duration := d; Lifecycle.failure := None |});
     ("preStop", {| Lifecycle.duration := d; Lifecycle.failure := None |});
     ("stop", {| Lifecycle.duration := d; Lifecycle.failure := None |});
     ("postStop", {| Lifecycle.duration := d; Lifecycle.failure := None |})].

(** A context in which every observer resolves after one tick and works. *)
Definition healthy (registered : list Binding) : Lifecycle.Context :=
  {| Lifecycle.name := "app";
     Lifecycle.registered := registered;
     Lifecycle.get := fun _ =>
       {| Lifecycle.latency := 1; Lifecycle.instance := inr (observer 1 None) |} |}.

(** A context in which [B] fails to start after 1 tick while the other
    observers take 5 ticks to start. *)
Definition failing (registered : list Binding) : Lifecycle.Context :=
  {| Lifecycle.name := "app";
     Lifecycle.registered := registered;
     Lifecycle.get := fun key =>
       if String.eqb key "B"
       then {| Lifecycle.latency := 1;
               Lifecycle.instance := inr (observer 1 (Some "B failed")) |}
       else {| Lifecycle.latency := 1;
               Lifecycle.instance := inr (observer 5 None) |} |}.

Definition registry (ctx : Lifecycle.Context) (groupsByOrder : list string)
    (parallel : bool) : Lifecycle.LifeCycleObserverRegistry :=
  Lifecycle.new ctx
    (Some {| Lifecycle.groupsByOrder := groupsByOrder;
             Lifecycle.parallel := Some parallel |}).

Definition idle : Lifecycle.World :=
  {| Lifecycle.now := 0%nat; Lifecycle.trace := [] |}.

(** Middleware bindings. *)
Definition middlewareBinding (key : string) (tags : list (string * string))
    : Binding :=
  {| key := key; type := CLASS; scope := SINGLETON;
     tagMap := list_to_map (("middleware", "middleware") :: tags) |}.

Definition M1 : Binding :=
  middlewareBinding "M1" [("phase", "auth"); ("path", "/api")].
Definition M2 : Binding := middlewareBinding "M2" [("phase", "auth")].
Definition M3 : Binding := middlewareBinding "M3" [("phase", "log")].
(** [M4] has no phase tag but is tagged with the name [auth]. *)
Definition M4 : Binding := middlewareBinding "M4" [("auth", "auth")].

Definition middlewareRegistry (bindings : list Binding)
    (phasesByOrder : list string) : Middleware.MiddlewareRegistry :=
  Middleware.new {| Middleware.view_bindings := bindings |}
    (Some {| Middleware.phasesByOrder := phasesByOrder;
             Middleware.parallel := Some false |}).

(** A heap that holds the options and, as its only array, the array of
    the view. *)
Definition heap (bindings : list Binding) (phasesByOrder : list string)
    : Store.Heap :=
  {| Store.options := {| Middleware.phasesByOrder := phasesByOrder;
                         Middleware.parallel := Some false |};
     Store.bindingArrays := [bindings];
     Store.phaseArrays := [] |}.

(** The registry whose view has that array. *)
Definition registryOnHeap : Store.MiddlewareRegistry :=
  {| Store.middlewareView := 0%nat |}.

(** A context in which the key of [B] is rejected after 2 ticks, while
    the other observers resolve after 1 tick and fail to start 1 tick
    later. *)
Definition unresolved (registered : list Binding) : Lifecycle.Context :=
  {| Lifecycle.name := "app";
     Lifecycle.registered := registered;
     Lifecycle.get := fun key =>
       if String.eqb key "B"
       then {| Lifecycle.latency := 2;
               Lifecycle.instance := inl "B unresolved" |}
       else {| Lifecycle.latency := 1;
               Lifecycle.instance := inr (observer 1 (Some "D failed")) |} |}.

End Scenario.

(** ** Vocabulary of the statements *)

(** [x] occurs before [y] in [l]. *)
Definition precedes {A} (l : list A) (x y : A) : Prop :=
  exists i j : nat, l !! i = Some x /\ l !! j = Some y /\ (i < j)%nat.

(** The comparator of both registries, on the names alone. *)
Definition compareNames (order : list string) (n1 n2 : string) : Z :=
  let i1 := JS.indexOf order n1 in
  let i2 := JS.indexOf order n2 in
  if negb (i1 =? -1) || negb (i2 =? -1) then i1 - i2
  else if JS.lt n1 n2 then -1
  else if JS.lt n2 n1 then 1
  else 0.

(** "Not after": what a comparator result [<= 0] says about two elements. *)
Definition not_after {A} (compare : A -> A -> Z) : relation A :=
  fun a b => compare a b <= 0.

(** The first loop of both sorters, for an arbitrary classifier. *)
Definition group_add (classify : Binding -> string)
    (m : JS.Map string (list Binding)) (b : Binding)
    : JS.Map string (list Binding) :=
  match JS.Map_get m (classify b) with
  | None => JS.Map_set m (classify b) [b]
  | Some bs => JS.Map_set m (classify b) (bs ++ [b])
  end.

(** The members of group [g]: the bindings classified as [g], in the order of
    the input. *)
Definition members (classify : Binding -> string) (g : string)
    (input : list Binding) : list Binding :=
  filter (fun b => classify b = g) input.

(** The order of the sorted group names as the specification words it:
    listed names in the order of the list, every listed name before every
    unlisted one, unlisted names in alphabetical order. *)
Definition listed_then_unlisted (order out : list string) : Prop :=
  (forall x y, x ∈ out -> y ∈ out -> x ∈ order -> y ∈ order ->
     (JS.indexOf order x < JS.indexOf order y)%Z -> precedes out x y) /\
  (forall x y, x ∈ out -> y ∈ out -> x ∈ order -> y ∉ order ->
     precedes out x y) /\
  (forall x y, x ∈ out -> y ∈ out -> x ∉ order -> y ∉ order ->
     JS.lt x y = true -> precedes out x y).

(** The same with the unlisted names first. *)
Definition unlisted_then_listed (order out : list string) : Prop :=
  (forall x y, x ∈ out -> y ∈ out -> x ∈ order -> y ∈ order ->
     (JS.indexOf order x < JS.indexOf order y)%Z -> precedes out x y) /\
  (forall x y, x ∈ out -> y ∈ out -> x ∉ order -> y ∈ order ->
     precedes out x y) /\
  (forall x y, x ∈ out -> y ∈ out -> x ∉ order -> y ∉ order ->
     JS.lt x y = true -> precedes out x y).

(** A sequence of life cycle groups and a sequence of middleware phases are
    the same when they carry the same names and the same members, in the
    same order. *)
Definition same_groups (groups : list Lifecycle.LifeCycleObserverGroup)
    (phases : list Middleware.MiddlewarePhase) : Prop :=
  (fun g => (Lifecycle.group g, Lifecycle.bindings g)) <$> groups
  = (fun p => (Middleware.phase p, Middleware.bindings p)) <$> phases.

(** The life cycle registry that classifies by the tag [phase] and orders by
    the priority list of a middleware registry. *)
Definition phaseTags (observerTag : string) : CoreTagNames :=
  {| LIFE_CYCLE_OBSERVER := observerTag; LIFE_CYCLE_OBSERVER_GROUP := "phase" |}.

Definition lifecycle_of (ctx : Lifecycle.Context)
    (this : Middleware.MiddlewareRegistry) : Lifecycle.LifeCycleObserverRegistry :=
  {| Lifecycle.ctx := ctx;
     Lifecycle.options :=
       {| Lifecycle.groupsByOrder :=
            Middleware.phasesByOrder (Middleware.options this);
          Lifecycle.parallel := Middleware.parallel (Middleware.options this) |} |}.

(** What a run visited: for each execution of [notifyObserverGroup], the
    event, the group, and the keys of the bindings it called, in call
    order. *)
Definition visited (visits : list Lifecycle.Visit)
    : list (string * (string * list string)) :=
  (fun v => (Lifecycle.visit_event v,
             (Lifecycle.visit_group v, callee <$> Lifecycle.visit_calls v)))
    <$> visits.

(** The events and groups a run notified, in order. *)
Definition notified (visits : list Lifecycle.Visit) : list (string * string) :=
  (fun v => (Lifecycle.visit_event v, Lifecycle.visit_group v)) <$> visits.

(** The groups with the keys of their members, in member order. *)
Definition membership (groups : list Lifecycle.LifeCycleObserverGroup)
    : list (string * list string) :=
  (fun g => (Lifecycle.group g, key <$> Lifecycle.bindings g)) <$> groups.

(** Event-major broadcast: each event, in order, to each group, in order. *)
Definition schedule {G : Type} (events : list string) (groups : list G)
    : list (string * G) :=
  events ≫= (fun event => (fun g => (event, g)) <$> groups).

(** The claim "every call of the group has settled when the rejection
    reaches the caller", for one execution of [notifyObserverGroup]. *)
Definition joins_before_rejecting (this : Lifecycle.LifeCycleObserverRegistry)
    (g : Lifecycle.LifeCycleObserverGroup) (event : string)
    (w : Lifecycle.World) : Prop :=
  forall w' e v c,
    Lifecycle.notifyObserverGroup this g event w = (w', inl e) ->
    last (Lifecycle.trace w') = Some v ->
    c ∈ Lifecycle.visit_calls v ->
    (settled c <= Lifecycle.now w')%nat.

(** The label of a step of a transition: the event, the group name, and the
    keys of the members of the group. *)
Definition label (step : string * Lifecycle.LifeCycleObserverGroup)
    : string * (string * list string) :=
  (step.1, (Lifecycle.group step.2, key <$> Lifecycle.bindings step.2)).

(** The visits in which no call is rejected. *)
Definition all_fulfilled (visits : list Lifecycle.Visit) : Prop :=
  forall v c, v ∈ visits -> c ∈ Lifecycle.visit_calls v -> rejected c = None.

(** A transition over [events] and [groups] that runs from [w] to [w'] is
    aborted with [e]: the visits it adds to the trace are those of the steps
    of the schedule up to and including one step, [failing]; [e] is the
    rejection of a call made for [failing]; no step after [failing] is
    visited. *)
Definition aborted_with (e : Error) (events : list string)
    (groups : list Lifecycle.LifeCycleObserverGroup)
    (w w' : Lifecycle.World) : Prop :=
  exists done failing rest visits visit,
    schedule events groups = done ++ failing :: rest /\
    Lifecycle.trace w' = Lifecycle.trace w ++ visits ++ [visit] /\
    visited visits = label <$> done /\
    all_fulfilled visits /\
    Lifecycle.visit_event visit = failing.1 /\
    Lifecycle.visit_group visit = Lifecycle.group failing.2 /\
    callee <$> Lifecycle.visit_calls visit
      `prefix_of` key <$> Lifecycle.bindings failing.2 /\
    exists c, c ∈ Lifecycle.visit_calls visit /\ rejected c = Some e.

(** The visits are an event-major broadcast of [events] over the group names
    [groups]: they are the schedule, so that whenever one event is declared
    before another, every visit for the former is before every visit for the
    latter. *)
Definition event_major (events groups : list string)
    (visits : list Lifecycle.Visit) : Prop :=
  notified visits = schedule events groups /\
  forall (i j : nat) e e' g g',
    notified visits !! i = Some (e, g) -> notified visits !! j = Some (e', g') ->
    (JS.indexOf events e < JS.indexOf events e')%Z -> (i < j)%nat.

(** The bindings the life cycle registry looks for: constants and
    singletons that carry the observer tag. *)
Definition eligible (CoreTags : CoreTagNames) (b : Binding) : Prop :=
  (type b = CONSTANT \/ scope b = SINGLETON) /\
  tagMap b !! LIFE_CYCLE_OBSERVER CoreTags <> None.

(** The keys of the bindings called for [event], over all visits, in call
    order. *)
Definition called_for (event : string) (visits : list Lifecycle.Visit)
    : list string :=
  visits ≫= (fun v =>
    if decide (Lifecycle.visit_event v = event)
    then callee <$> Lifecycle.visit_calls v
    else []).

(** The observer behind [b] cannot fail: its key resolves, and each of the
    methods it implements is fulfilled. *)
Definition dependable (ctx : Lifecycle.Context) (b : Binding) : Prop :=
  exists observer,
    Lifecycle.instance (Lifecycle.get ctx (key b)) = inr observer /\
    forall event m, observer !! event = Some m -> Lifecycle.failure m = None.

(** [e] is the failure of the observer behind [b] at [event]: the rejection
    of the resolution of its key, or of its method for [event]. *)
Definition fails_with (ctx : Lifecycle.Context) (e : Error) (event : string)
    (b : Binding) : Prop :=
  Lifecycle.instance (Lifecycle.get ctx (key b)) = inl e \/
  exists observer m,
    Lifecycle.instance (Lifecycle.get ctx (key b)) = inr observer /\
    observer !! event = Some m /\ Lifecycle.failure m = Some e.

(** The path scope a binding asks for, if any. *)
Definition path_of (b : Binding) : option string :=
  if JS.truthy (tagMap b !! "path") then tagMap b !! "path" else None.

(** What a run on the heap [h] has left alone in the heap [h'] it
    leaves: [this.options] is as before, and every array that [h] holds
    lies in [h'] under the same reference, with the elements it had.
    Arrays made since lie behind them. *)
Definition untouched (h h' : Store.Heap) : Prop :=
  Store.options h' = Store.options h /\
  Store.bindingArrays h `prefix_of` Store.bindingArrays h' /\
  Store.phaseArrays h `prefix_of` Store.phaseArrays h'.

(** The registry as the methods without a heap take it: the elements
    [view] of the array of the view, and the options the heap [h] holds. *)
Definition snapshot (view : list Binding) (h : Store.Heap)
    : Middleware.MiddlewareRegistry :=
  {| Middleware.middlewareView := {| Middleware.view_bindings := view |};
     Middleware.options := Store.options h |}.

(** The map from names to references that stands for the map [m] from
    names to arrays when the arrays of [m] lie in the heap, in the order of
    the entries, from reference [n] on. *)
Fixpoint refs_from (n : Store.ref) (m : JS.Map string (list Binding))
    : JS.Map string Store.ref :=
  match m with
  | [] => []
  | (g, _) :: m' => (g, n) :: refs_from (S n) m'
  end.

(** The phase object read off the heap: its name and the elements of the
    array of its bindings. *)
Definition load (arrays : list (list Binding)) (p : Store.MiddlewarePhase)
    : Middleware.MiddlewarePhase :=
  {| Middleware.phase := Store.phase p;
     Middleware.bindings := default [] (arrays !! Store.bindings p) |}.

(** * Properties *)

(** ** Strings under [<] *)

Section StringOrder.

Lemma compare_refl (s : string) : String.compare s s = Eq.
Proof.
  induction s as [|a s IH]; simpl; [reflexivity|].
  unfold Ascii.compare. now rewrite N.compare_refl.
Qed.

Lemma compare_lt_trans (a b c : string) :
  String.compare a b = Lt -> String.compare b c = Lt ->
  String.compare a c = Lt.
Proof.
  revert b c. induction a as [|x a IH]; intros [|y b] [|z c]; simpl;
    try congruence.
  unfold Ascii.compare.
  destruct (N.compare_spec (N_of_ascii x) (N_of_ascii y)) as [Hxy|Hxy|Hxy];
    try discriminate;
    destruct (N.compare_spec (N_of_ascii y) (N_of_ascii z)) as [Hyz|Hyz|Hyz];
    try discriminate; intros H1 H2.
  - rewrite Hxy, Hyz, N.compare_refl. eauto.
  - rewrite Hxy. now apply N.compare_lt_iff in Hyz as ->.
  - rewrite <- Hyz. now apply N.compare_lt_iff in Hxy as ->.
  - assert (N_of_ascii x < N_of_ascii z)%N as Hxz by lia.
    now apply N.compare_lt_iff in Hxz as ->.
Qed.

Lemma lt_irrefl (s : string) : JS.lt s s = false.
Proof. unfold JS.lt, String.ltb. now rewrite compare_refl. Qed.

Lemma lt_trans (a b c : string) :
  JS.lt a b = true -> JS.lt b c = true -> JS.lt a c = true.
Proof.
  unfold JS.lt, String.ltb. intros H1 H2.
  destruct (String.compare a b) eqn:E1; try discriminate.
  destruct (String.compare b c) eqn:E2; try discriminate.
  now rewrite (compare_lt_trans _ _ _ E1 E2).
Qed.

Lemma lt_asym (a b : string) : JS.lt a b = true -> JS.lt b a = false.
Proof.
  intros H. destruct (JS.lt b a) eqn:E; [|reflexivity].
  pose proof (lt_trans _ _ _ H E) as Haa. now rewrite lt_irrefl in Haa.
Qed.

Lemma lt_connex (a b : string) :
  JS.lt a b = false -> JS.lt b a = false -> a = b.
Proof.
  unfold JS.lt, String.ltb. rewrite (String.compare_antisym b a).
  destruct (String.compare a b) eqn:E; simpl; try discriminate.
  intros _ _. now apply String.compare_eq_iff.
Qed.

End StringOrder.

(** ** [indexOf] *)

Section IndexOf.
Context {A : Type} `{EqDecision A}.

Lemma indexOf_lower (l : list A) (x : A) : -1 <= JS.indexOf l x.
Proof.
  induction l as [|y l IH]; simpl; [lia|].
  destruct (decide (y = x)); [lia|].
  destruct (Z.eqb_spec (JS.indexOf l x) (-1)); lia.
Qed.

Lemma indexOf_absent (l : list A) (x : A) : JS.indexOf l x = -1 <-> x ∉ l.
Proof.
  induction l as [|y l IH]; simpl.
  - split; [intros _; apply not_elem_of_nil | reflexivity].
  - rewrite not_elem_of_cons. pose proof (indexOf_lower l x).
    destruct (decide (y = x)) as [->|Hne].
    + split; [lia | intros [? _]; congruence].
    + destruct (Z.eqb_spec (JS.indexOf l x) (-1)) as [E|E].
      * split; [intros _; split; [congruence | now apply IH] | reflexivity].
      * split; [lia | intros [_ Hx]; now apply IH in Hx].
Qed.

Lemma indexOf_lookup (l : list A) (x : A) :
  0 <= JS.indexOf l x -> l !! Z.to_nat (JS.indexOf l x) = Some x.
Proof.
  induction l as [|y l IH]; simpl; [lia|].
  destruct (decide (y = x)) as [->|Hne]; [reflexivity|].
  pose proof (indexOf_lower l x).
  destruct (Z.eqb_spec (JS.indexOf l x) (-1)); [lia|]. intros _.
  replace (Z.to_nat (JS.indexOf l x + 1)) with (S (Z.to_nat (JS.indexOf l x)))
    by lia.
  simpl. apply IH. lia.
Qed.

Lemma indexOf_inj (l : list A) (x y : A) :
  0 <= JS.indexOf l x -> JS.indexOf l x = JS.indexOf l y -> x = y.
Proof.
  intros Hx E. pose proof (indexOf_lookup l x Hx) as H1.
  rewrite E in Hx, H1. pose proof (indexOf_lookup l y Hx) as H2. congruence.
Qed.

(** [indexOf] gives the first position. *)
Lemma indexOf_first (l : list A) (x : A) (j : nat) :
  l !! j = Some x -> 0 <= JS.indexOf l x <= Z.of_nat j.
Proof.
  revert j. induction l as [|y l IH]; intros j; simpl; [discriminate|].
  destruct (decide (y = x)) as [->|Hne]; [lia|].
  destruct j as [|j]; simpl; [congruence|]. intros Hj.
  specialize (IH j Hj).
  destruct (Z.eqb_spec (JS.indexOf l x) (-1)); lia.
Qed.

End IndexOf.

(** ** The comparator is a strict total order on names *)

Section CompareNames.
Variable order : list string.

Local Abbreviation idx := (JS.indexOf order).
Local Abbreviation cmp := (compareNames order).

(** The comparator orders by the pair (index, name): a name that is not in
    [order] has index [-1]. *)
Lemma compareNames_neg (a b : string) :
  cmp a b < 0 <-> idx a < idx b \/ (idx a = idx b /\ JS.lt a b = true).
Proof.
  unfold compareNames.
  pose proof (indexOf_lower order a). pose proof (indexOf_lower order b).
  destruct (Z.eqb_spec (idx a) (-1)) as [Ea|Ea];
    destruct (Z.eqb_spec (idx b) (-1)) as [Eb|Eb]; simpl.
  - destruct (JS.lt a b) eqn:Hab; [intuition lia|].
    destruct (JS.lt b a); split; try lia; intros [?|[_ ?]]; try lia; congruence.
  - split; [lia|]. intros [?|[? _]]; lia.
  - split; [lia|]. intros [?|[? _]]; lia.
  - split; [lia|]. intros [?|[E Hlt]]; [lia|].
    apply indexOf_inj in E; [|lia]. subst b. now rewrite lt_irrefl in Hlt.
Qed.

Lemma compareNames_zero (a b : string) : cmp a b = 0 <-> a = b.
Proof.
  split.
  - unfold compareNames.
    pose proof (indexOf_lower order a). pose proof (indexOf_lower order b).
    destruct (Z.eqb_spec (idx a) (-1)) as [Ea|Ea];
      destruct (Z.eqb_spec (idx b) (-1)) as [Eb|Eb]; simpl; try lia.
    + destruct (JS.lt a b) eqn:Hab; [lia|].
      destruct (JS.lt b a) eqn:Hba; [lia|]. intros _. now apply lt_connex.
    + intros E. apply (indexOf_inj order a b); lia.
  - intros ->. unfold compareNames. rewrite lt_irrefl.
    destruct (negb (idx b =? -1) || negb (idx b =? -1)); lia.
Qed.

Lemma compareNames_pos (a b : string) : 0 < cmp a b <-> cmp b a < 0.
Proof.
  rewrite compareNames_neg. unfold compareNames.
  pose proof (indexOf_lower order a). pose proof (indexOf_lower order b).
  destruct (Z.eqb_spec (idx a) (-1)) as [Ea|Ea];
    destruct (Z.eqb_spec (idx b) (-1)) as [Eb|Eb]; simpl.
  - destruct (JS.lt a b) eqn:Hab.
    + rewrite (lt_asym _ _ Hab). split; [lia|]. intros [?|[_ ?]]; [lia|congruence].
    + destruct (JS.lt b a); split; try lia; intros [?|[_ ?]]; try lia; congruence.
  - split; [lia|]. intros [?|[? _]]; lia.
  - split; [lia|]. intros [?|[? _]]; lia.
  - split; [lia|]. intros [?|[E Hlt]]; [lia|].
    symmetry in E. apply indexOf_inj in E; [|lia]. subst b.
    now rewrite lt_irrefl in Hlt.
Qed.

Lemma compareNames_trans (a b c : string) :
  cmp a b < 0 -> cmp b c < 0 -> cmp a c < 0.
Proof.
  rewrite !compareNames_neg.
  intros [H1|[E1 L1]] [H2|[E2 L2]]; try (left; lia).
  right. split; [lia|]. eapply lt_trans; eauto.
Qed.

#[local] Instance not_after_names_total : Total (not_after cmp).
Proof.
  intros a b. unfold not_after.
  destruct (Z_lt_le_dec 0 (cmp a b)) as [Hpos|Hle]; [|now left].
  right. apply compareNames_pos in Hpos. lia.
Qed.

#[local] Instance not_after_names_trans : Transitive (not_after cmp).
Proof.
  intros a b c. unfold not_after. intros Hab Hbc.
  destruct (Z.eq_dec (cmp a b) 0) as [E|E].
  { apply compareNames_zero in E. now subst b. }
  destruct (Z.eq_dec (cmp b c) 0) as [E'|E'].
  { apply compareNames_zero in E'. now subst c. }
  assert (cmp a c < 0); [|lia]. apply (compareNames_trans a b c); lia.
Qed.

Lemma not_after_names_antisym (a b : string) :
  not_after cmp a b -> not_after cmp b a -> a = b.
Proof.
  unfold not_after. intros Hab Hba.
  destruct (Z.eq_dec (cmp a b) 0) as [E|E]; [now apply compareNames_zero|].
  assert (0 < cmp b a) by (apply compareNames_pos; lia). lia.
Qed.

End CompareNames.

(** ** [sort] returns a sorted permutation *)

Section Sort.
Context {A : Type} (compare : A -> A -> Z).
Context `{!Total (not_after compare), !Transitive (not_after compare)}.

Lemma sort_insert_perm (x : A) (l : list A) :
  JS.sort_insert compare x l ≡ₚ x :: l.
Proof.
  induction l as [|y l IH]; simpl; [reflexivity|].
  destruct (compare y x <=? 0); [|reflexivity].
  rewrite IH. apply perm_swap.
Qed.

Lemma sort_from_perm (l acc : list A) :
  fold_left (fun acc x => JS.sort_insert compare x acc) l acc ≡ₚ acc ++ l.
Proof.
  revert acc. induction l as [|x l IH]; intros acc; simpl.
  - now rewrite app_nil_r.
  - rewrite IH, sort_insert_perm. simpl. apply Permutation_middle.
Qed.

Lemma sort_perm (l : list A) : JS.sort compare l ≡ₚ l.
Proof. unfold JS.sort. now rewrite sort_from_perm. Qed.

Lemma sort_insert_sorted (x : A) (l : list A) :
  StronglySorted (not_after compare) l ->
  StronglySorted (not_after compare) (JS.sort_insert compare x l).
Proof.
  induction 1 as [|y l Hl IH Hy]; simpl.
  - repeat constructor.
  - destruct (Z.leb_spec (compare y x) 0) as [Hle|Hgt].
    + constructor; [exact IH|].
      rewrite sort_insert_perm. constructor; [exact Hle | exact Hy].
    + assert (not_after compare x y) as Hxy.
      { destruct (total (not_after compare) x y) as [?|Hyx]; [done|].
        unfold not_after in Hyx. lia. }
      constructor; [now constructor|].
      constructor; [exact Hxy|].
      eapply Forall_impl; [exact Hy|]. intros z Hyz. now transitivity y.
Qed.

Lemma sort_from_sorted (l acc : list A) :
  StronglySorted (not_after compare) acc ->
  StronglySorted (not_after compare)
    (fold_left (fun acc x => JS.sort_insert compare x acc) l acc).
Proof.
  revert acc. induction l as [|x l IH]; intros acc Hacc; simpl; [done|].
  apply IH. now apply sort_insert_sorted.
Qed.

Lemma sort_sorted (l : list A) :
  StronglySorted (not_after compare) (JS.sort compare l).
Proof. apply sort_from_sorted. constructor. Qed.

End Sort.

(** In a sorted list an element is not after the ones that follow it. *)
Lemma sorted_precedes {A} (R : relation A) (l : list A) (x y : A) :
  StronglySorted R l -> precedes l x y -> R x y.
Proof.
  intros Hl (i & j & Hi & Hj & Hij). revert i j Hi Hj Hij.
  induction Hl as [|z l Hl IH Hz]; intros i j Hi Hj Hij; [discriminate|].
  destruct j as [|j]; [lia|]. simpl in Hj.
  destruct i as [|i]; simpl in Hi.
  - injection Hi as ->. rewrite Forall_forall in Hz. apply Hz.
    eapply list_elem_of_lookup_2; eauto.
  - apply (IH i j); auto. lia.
Qed.

(** ** [Map] as an association list *)

Section MapFacts.
Context {K V : Type} `{EqDecision K}.
Implicit Types (m : JS.Map K V) (k : K) (v : V).

Lemma Map_get_set m k v k' :
  JS.Map_get (JS.Map_set m k v) k'
  = if decide (k = k') then Some v else JS.Map_get m k'.
Proof.
  induction m as [|[k0 v0] m IH]; simpl.
  - destruct (decide (k = k')); reflexivity.
  - destruct (decide (k0 = k)) as [->|Hne]; simpl.
    + destruct (decide (k = k')); reflexivity.
    + destruct (decide (k0 = k')) as [->|Hne'].
      * destruct (decide (k = k')); [congruence|reflexivity].
      * exact IH.
Qed.

Lemma Map_get_None m k : JS.Map_get m k = None <-> k ∉ m.*1.
Proof.
  induction m as [|[k0 v0] m IH]; simpl.
  - split; [intros _; apply not_elem_of_nil | reflexivity].
  - rewrite not_elem_of_cons. destruct (decide (k0 = k)) as [->|Hne].
    + split; [discriminate | intros [? _]; congruence].
    + rewrite IH. split; [intros ?; split; [congruence | done] | tauto].
Qed.

Lemma Map_set_keys m k v :
  (JS.Map_set m k v).*1
  = match JS.Map_get m k with Some _ => m.*1 | None => m.*1 ++ [k] end.
Proof.
  induction m as [|[k0 v0] m IH]; [reflexivity|].
  cbn [JS.Map_set JS.Map_get].
  destruct (decide (k0 = k)) as [->|Hne]; [reflexivity|].
  rewrite !fmap_cons, IH. now destruct (JS.Map_get m k).
Qed.

Lemma Map_set_NoDup m k v : NoDup m.*1 -> NoDup (JS.Map_set m k v).*1.
Proof.
  intros Hm. rewrite Map_set_keys.
  destruct (JS.Map_get m k) eqn:E; [exact Hm|].
  apply NoDup_app. split; [exact Hm|]. split.
  - intros x Hx Hk. apply list_elem_of_singleton in Hk as ->.
    now apply Map_get_None in E.
  - apply NoDup_singleton.
Qed.

Lemma Map_elem_of m k v :
  NoDup m.*1 -> (k, v) ∈ m <-> JS.Map_get m k = Some v.
Proof.
  induction m as [|[k0 v0] m IH]; simpl; intros Hm.
  - split; [intros H; inversion H | discriminate].
  - apply NoDup_cons in Hm as [Hk0 Hm]. rewrite elem_of_cons.
    destruct (decide (k0 = k)) as [->|Hne].
    + split.
      * intros [E|Hin]; [congruence|].
        exfalso. apply Hk0. apply list_elem_of_fmap. now exists (k, v).
      * intros E. left. congruence.
    + rewrite <- (IH Hm). split; [intros [E|?]; [congruence|done] | tauto].
Qed.

End MapFacts.

(** ** The first loop of the sorters partitions its input *)

Section GroupBy.
Variable classify : Binding -> string.

Local Abbreviation group_by :=
  (fun input => fold_left (group_add classify) input []).

Lemma members_snoc (g : string) (input : list Binding) (b : Binding) :
  members classify g (input ++ [b])
  = members classify g input ++ (if decide (classify b = g) then [b] else []).
Proof.
  unfold members. now rewrite filter_app.
Qed.

(** After the loop the map has one entry per group name met, and the entry
    of [g] holds the members of [g] in input order. *)
Lemma group_by_get (input : list Binding) :
  NoDup (group_by input).*1 /\
  forall g, JS.Map_get (group_by input) g
            = match members classify g input with
              | [] => None
              | bs => Some bs
              end.
Proof.
  induction input as [|b input [IHnd IHget]] using rev_ind.
  - split; [constructor | reflexivity].
  - rewrite fold_left_app. simpl. unfold group_add at 1 3.
    set (m := fold_left (group_add classify) input []) in *.
    split.
    + destruct (JS.Map_get m (classify b)); now apply Map_set_NoDup.
    + intros g. rewrite members_snoc.
      pose proof (IHget (classify b)) as Hb. pose proof (IHget g) as Hg.
      destruct (JS.Map_get m (classify b)) as [bs|] eqn:E;
        rewrite Map_get_set;
        destruct (decide (classify b = g)) as [<-|Hne];
        rewrite ?app_nil_r; try exact Hg.
      * destruct (members classify (classify b) input); [discriminate|].
        injection Hb as ->. reflexivity.
      * destruct (members classify (classify b) input); [reflexivity|].
        discriminate.
Qed.

Lemma group_by_entry (input : list Binding) (g : string) (bs : list Binding) :
  (g, bs) ∈ group_by input <-> bs <> [] /\ bs = members classify g input.
Proof.
  destruct (group_by_get input) as [Hnd Hget].
  rewrite (Map_elem_of _ _ _ Hnd), Hget.
  destruct (members classify g input) as [|b l].
  - split; [discriminate | intros [? ->]; congruence].
  - split; [intros [= <-]; split; [discriminate | reflexivity]
           | intros [_ ->]; reflexivity].
Qed.

Lemma group_by_keys (input : list Binding) (g : string) :
  g ∈ (group_by input).*1 <-> exists b, b ∈ input /\ classify b = g.
Proof.
  destruct (group_by_get input) as [Hnd Hget]. split.
  - intros Hg. destruct (JS.Map_get (group_by input) g) as [bs|] eqn:E.
    + rewrite Hget in E.
      destruct (members classify g input) as [|b l] eqn:Hm; [discriminate|].
      exists b. assert (b ∈ members classify g input) as Hb
        by (rewrite Hm; left).
      apply list_elem_of_filter in Hb as [? ?]. now split.
    + now apply Map_get_None in E.
  - intros (b & Hb & <-).
    destruct (JS.Map_get (group_by input) (classify b)) as [bs|] eqn:E.
    + apply (Map_elem_of _ _ _ Hnd) in E.
      apply list_elem_of_fmap. now exists (classify b, bs).
    + rewrite Hget in E.
      assert (b ∈ members classify (classify b) input) as Hm
        by (apply list_elem_of_filter; now split).
      destruct (members classify (classify b) input);
        [inversion Hm | discriminate].
Qed.

End GroupBy.

(** ** Sorting records by the name they carry *)

Section SortByName.
Context {A : Type} (name : A -> string) (order : list string).
Variable compare : A -> A -> Z.
Hypothesis compare_names :
  forall a b, compare a b = compareNames order (name a) (name b).

#[local] Instance not_after_total : Total (not_after compare).
Proof.
  intros a b. unfold not_after. rewrite !compare_names.
  apply (not_after_names_total order).
Qed.

#[local] Instance not_after_trans : Transitive (not_after compare).
Proof.
  intros a b c. unfold not_after. rewrite !compare_names.
  apply (not_after_names_trans order).
Qed.

Lemma sorted_names (l : list A) :
  StronglySorted (not_after (compareNames order)) (name <$> JS.sort compare l).
Proof.
  pose proof (sort_sorted compare l) as Hs.
  induction Hs as [|a l' Hl' IH Ha]; [constructor|].
  rewrite fmap_cons. constructor; [exact IH|].
  apply Forall_fmap. eapply Forall_impl; [exact Ha|].
  intros b Hab. unfold not_after in *. simpl. now rewrite <- compare_names.
Qed.

(** Whenever the comparator puts [x] before [y], the sorted array does. *)
Lemma sorted_names_precedes (l : list A) (x y : string) :
  x ∈ name <$> JS.sort compare l -> y ∈ name <$> JS.sort compare l ->
  compareNames order x y < 0 ->
  precedes (name <$> JS.sort compare l) x y.
Proof.
  intros Hx Hy Hxy.
  apply list_elem_of_lookup in Hx as [i Hi].
  apply list_elem_of_lookup in Hy as [j Hj].
  destruct (Nat.lt_trichotomy i j) as [Hlt|[->|Hgt]].
  - now exists i, j.
  - assert (x = y) as -> by congruence.
    assert (compareNames order y y = 0) by now apply compareNames_zero.
    lia.
  - assert (not_after (compareNames order) y x) as Hyx.
    { apply (sorted_precedes _ _ _ _ (sorted_names l)). now exists j, i. }
    apply compareNames_pos in Hxy. unfold not_after in Hyx. lia.
Qed.

Lemma sorted_unlisted_then_listed (l : list A) :
  unlisted_then_listed order (name <$> JS.sort compare l).
Proof.
  repeat split; intros x y Hx Hy Hxo Hyo; intros;
    apply sorted_names_precedes; auto; apply compareNames_neg.
  - now left.
  - left. apply indexOf_absent in Hxo.
    pose proof (indexOf_lower order y).
    assert (JS.indexOf order y <> -1)
      by (intros E; apply indexOf_absent in E; contradiction).
    lia.
  - right. apply indexOf_absent in Hxo, Hyo. split; [lia | done].
Qed.

(** Any sorted arrangement of the same records is the one [sort] returns:
    the result does not depend on the sorting algorithm. *)
Lemma sort_unique (l l' : list A) :
  NoDup (name <$> l) -> l' ≡ₚ l -> Sorted (not_after compare) l' ->
  l' = JS.sort compare l.
Proof.
  intros Hnd Hperm Hsorted.
  apply (Sorted_unique_strong (not_after compare)).
  - intros a b Ha Hb Hab Hba.
    rewrite Hperm in Ha. rewrite (sort_perm compare l) in Hb.
    assert (name a = name b) as Hname.
    { apply (not_after_names_antisym order); unfold not_after in *;
        now rewrite <- compare_names. }
    apply (NoDup_fmap_1 name) in Hnd as Hnd'.
    apply list_elem_of_lookup in Ha as [i Hi].
    apply list_elem_of_lookup in Hb as [j Hj].
    assert (i = j) as ->.
    { eapply NoDup_lookup; [exact Hnd | |];
        rewrite list_lookup_fmap; [rewrite Hi | rewrite Hj]; simpl;
        [reflexivity | now rewrite Hname]. }
    congruence.
  - exact Hsorted.
  - apply StronglySorted_Sorted, sort_sorted; typeclasses eauto.
  - now rewrite sort_perm.
Qed.

End SortByName.

(** ** Partition and order of the groups, for both registries *)

Section SortedGroups.
Context {A : Type} (name : A -> string) (mk : string * list Binding -> A).
Variables (classify : Binding -> string) (order : list string).
Variable compare : A -> A -> Z.
Hypothesis compare_names :
  forall a b, compare a b = compareNames order (name a) (name b).
Hypothesis name_mk : forall e, name (mk e) = e.1.

Local Abbreviation grouped :=
  (fun input => fold_left (group_add classify) input []).

Lemma names_of_groups (input : list Binding) :
  name <$> (mk <$> grouped input) = (grouped input).*1.
Proof.
  rewrite <- list_fmap_compose. apply list_fmap_ext. intros i e _. apply name_mk.
Qed.

Lemma sorted_groups (input : list Binding) :
  let sorted := JS.sort compare (mk <$> grouped input) in
  sorted ≡ₚ mk <$> grouped input /\
  NoDup (name <$> sorted) /\
  (forall g, g ∈ name <$> sorted <-> exists b, b ∈ input /\ classify b = g) /\
  unlisted_then_listed order (name <$> sorted).
Proof.
  intros sorted.
  pose proof (not_after_total name order compare compare_names) as Htot.
  pose proof (not_after_trans name order compare compare_names) as Htr.
  assert (sorted ≡ₚ mk <$> grouped input) as Hperm by apply sort_perm.
  assert (name <$> sorted ≡ₚ (grouped input).*1) as Hnames
    by (rewrite Hperm; now rewrite names_of_groups).
  split; [exact Hperm|]. split; [|split].
  - rewrite Hnames. apply group_by_get.
  - intros g. rewrite Hnames. apply group_by_keys.
  - now apply sorted_unlisted_then_listed.
Qed.

End SortedGroups.

Lemma groups_of_fmap CoreTags this input :
  Lifecycle.groups_of CoreTags this input
  = (fun e => {| Lifecycle.group := e.1; Lifecycle.bindings := e.2 |})
      <$> fold_left (group_add (Lifecycle.getObserverGroup CoreTags this)) input [].
Proof. reflexivity. Qed.

Lemma phases_of_fmap input :
  Middleware.phases_of input
  = (fun e => {| Middleware.phase := e.1; Middleware.bindings := e.2 |})
      <$> fold_left (group_add Middleware.getMiddlewarePhase) input [].
Proof.
  unfold Middleware.phases_of. apply list_fmap_ext. now intros i [g bs] _.
Qed.

(** The sorted array does not depend on the sorting algorithm: every
    arrangement of the groups that is in order for the comparator is the
    array the sorter returns. *)
Lemma sortObserverBindingsByGroup_unique CoreTags this input groups :
  groups ≡ₚ Lifecycle.groups_of CoreTags this input ->
  Sorted (not_after (Lifecycle.compareGroups this)) groups ->
  groups = Lifecycle.sortObserverBindingsByGroup CoreTags this input.
Proof.
  intros Hperm Hsorted. unfold Lifecycle.sortObserverBindingsByGroup.
  apply (sort_unique Lifecycle.group
           (Lifecycle.groupsByOrder (Lifecycle.options this))); auto.
  rewrite groups_of_fmap, names_of_groups by reflexivity.
  apply group_by_get.
Qed.

Lemma sortMiddlewareBindingsByPhase_unique this input phases :
  phases ≡ₚ Middleware.phases_of input ->
  Sorted (not_after (Middleware.comparePhases this)) phases ->
  phases = Middleware.sortMiddlewareBindingsByPhase this input.
Proof.
  intros Hperm Hsorted. unfold Middleware.sortMiddlewareBindingsByPhase.
  apply (sort_unique Middleware.phase
           (Middleware.phasesByOrder (Middleware.options this))); auto.
  rewrite phases_of_fmap, names_of_groups by reflexivity.
  apply group_by_get.
Qed.

(** C1 (as amended).  For every input and every priority list, the sorter of
    each registry returns a permutation of the groups of the input: each
    group name of the input occurs exactly once; two names that are both in
    the priority list come in the order of the list; a name that is not in
    the list comes before every name that is in it; and the names that are
    not in the list are in alphabetical order among themselves. *)
Theorem sort_puts_unlisted_groups_first :
  (forall CoreTags this input,
     let sorted := Lifecycle.sortObserverBindingsByGroup CoreTags this input in
     sorted ≡ₚ Lifecycle.groups_of CoreTags this input /\
     NoDup (Lifecycle.group <$> sorted) /\
     (forall g, g ∈ Lifecycle.group <$> sorted
                <-> exists b, b ∈ input /\ Lifecycle.getObserverGroup CoreTags this b = g) /\
     unlisted_then_listed (Lifecycle.groupsByOrder (Lifecycle.options this))
       (Lifecycle.group <$> sorted)) /\
  (forall this input,
     let sorted := Middleware.sortMiddlewareBindingsByPhase this input in
     sorted ≡ₚ Middleware.phases_of input /\
     NoDup (Middleware.phase <$> sorted) /\
     (forall p, p ∈ Middleware.phase <$> sorted
                <-> exists b, b ∈ input /\ Middleware.getMiddlewarePhase b = p) /\
     unlisted_then_listed (Middleware.phasesByOrder (Middleware.options this))
       (Middleware.phase <$> sorted)).
Proof.
  split.
  - intros CoreTags this input.
    unfold Lifecycle.sortObserverBindingsByGroup. rewrite groups_of_fmap.
    apply (sorted_groups Lifecycle.group); reflexivity.
  - intros this input.
    unfold Middleware.sortMiddlewareBindingsByPhase. rewrite phases_of_fmap.
    apply (sorted_groups Middleware.phase); reflexivity.
Qed.

(** The sorted group names of the scenario. *)
Lemma scenario_groups_sorted :
  Lifecycle.group <$>
    Lifecycle.sortObserverBindingsByGroup Scenario.CoreTags
      (Scenario.registry
         (Scenario.healthy [Scenario.A; Scenario.B; Scenario.C])
         ["db"; "server"] true)
      [Scenario.A; Scenario.B; Scenario.C]
  = [""; "db"; "server"].
Proof. vm_compute. reflexivity. Qed.

(** C1, as stated, fails on the scenario [{A: db, B: server, C: untagged}]
    with priority list [db, server]: the sorted names are ["", db, server],
    so the listed name [db] does not come before the unlisted name [""]. *)
Lemma sort_listed_groups_first_refuted :
  ~ listed_then_unlisted ["db"; "server"]
      (Lifecycle.group <$>
         Lifecycle.sortObserverBindingsByGroup Scenario.CoreTags
           (Scenario.registry
              (Scenario.healthy [Scenario.A; Scenario.B; Scenario.C])
              ["db"; "server"] true)
           [Scenario.A; Scenario.B; Scenario.C]).
Proof.
  rewrite scenario_groups_sorted. intros (_ & H & _).
  destruct (H "db" "") as (i & j & Hi & Hj & Hij); [compute_done..|].
  destruct i as [|[|[|i]]]; try discriminate Hi;
    destruct j as [|[|[|j]]]; try discriminate Hj; lia.
Qed.

(** On the scenario, the unlisted group [""] comes before the listed group
    [db]. *)
Lemma sort_puts_unlisted_groups_first_witness :
  precedes
    (Lifecycle.group <$>
       Lifecycle.sortObserverBindingsByGroup Scenario.CoreTags
         (Scenario.registry
            (Scenario.healthy [Scenario.A; Scenario.B; Scenario.C])
            ["db"; "server"] true)
         [Scenario.A; Scenario.B; Scenario.C])
    "" "db".
Proof.
  destruct (proj1 sort_puts_unlisted_groups_first Scenario.CoreTags
              (Scenario.registry
                 (Scenario.healthy [Scenario.A; Scenario.B; Scenario.C])
                 ["db"; "server"] true)
              [Scenario.A; Scenario.B; Scenario.C])
    as (_ & _ & _ & _ & H & _).
  apply H; compute_done.
Defined.

Section Partition.
Variable classify : Binding -> string.

Lemma group_by_partition (input : list Binding) :
  let m := fold_left (group_add classify) input [] in
  NoDup m.*1 /\
  (forall b, b ∈ input -> exists bs, (classify b, bs) ∈ m) /\
  (forall g bs b, (g, bs) ∈ m -> b ∈ input -> (b ∈ bs <-> g = classify b)) /\
  (forall g bs, (g, bs) ∈ m -> bs = members classify g input).
Proof.
  intros m. split; [apply group_by_get|]. split; [|split].
  - intros b Hb.
    assert (classify b ∈ m.*1) as Hk by (apply group_by_keys; eauto).
    apply list_elem_of_fmap in Hk as ([g bs] & Hg & Hin). simpl in Hg.
    subst g. now exists bs.
  - intros g bs b Hin Hb. apply group_by_entry in Hin as [_ ->].
    unfold members. rewrite list_elem_of_filter. split; [now intros [? _]|].
    intros ->. now split.
  - intros g bs Hin. now apply group_by_entry in Hin.
Qed.

End Partition.

(** C7.  The first loop of each sorter assigns every binding of the input to
    exactly one group, the one it is classified as, and the entry of a group
    holds its members as the subsequence of the input, in input order. *)
Theorem partition_keeps_registration_order :
  (forall CoreTags this input,
     let groupMap := Lifecycle.groupMap_of CoreTags this input in
     let classify := Lifecycle.getObserverGroup CoreTags this in
     NoDup groupMap.*1 /\
     (forall b, b ∈ input -> exists bs, (classify b, bs) ∈ groupMap) /\
     (forall g bs b, (g, bs) ∈ groupMap -> b ∈ input ->
        (b ∈ bs <-> g = classify b)) /\
     (forall g bs, (g, bs) ∈ groupMap -> bs = members classify g input)) /\
  (forall input,
     let phaseMap := Middleware.phaseMap_of input in
     let classify := Middleware.getMiddlewarePhase in
     NoDup phaseMap.*1 /\
     (forall b, b ∈ input -> exists bs, (classify b, bs) ∈ phaseMap) /\
     (forall p bs b, (p, bs) ∈ phaseMap -> b ∈ input ->
        (b ∈ bs <-> p = classify b)) /\
     (forall p bs, (p, bs) ∈ phaseMap -> bs = members classify p input)).
Proof.
  split.
  - intros CoreTags this input.
    apply (group_by_partition (Lifecycle.getObserverGroup CoreTags this)).
  - intros input. apply (group_by_partition Middleware.getMiddlewarePhase).
Qed.

(** [M1] and [M2], registered around [M3], form the phase [auth] in that
    order. *)
Lemma partition_keeps_registration_order_witness :
  Scenario.M2 ∈ [Scenario.M1; Scenario.M2] /\
  [Scenario.M1; Scenario.M2]
  = members Middleware.getMiddlewarePhase "auth"
      [Scenario.M1; Scenario.M3; Scenario.M2].
Proof.
  destruct (proj2 partition_keeps_registration_order
              [Scenario.M1; Scenario.M3; Scenario.M2])
    as (_ & _ & Hone & Hall).
  split.
  - apply (Hone "auth"); compute_done.
  - apply Hall. compute_done.
Defined.

(** ** Classification *)

Section Find.
Context {A : Type} (p : A -> bool).

Lemma find_Some (l : list A) (x : A) :
  JS.find p l = Some x <->
  exists i : nat, l !! i = Some x /\ p x = true /\
    forall (j : nat) y, (j < i)%nat -> l !! j = Some y -> p y = false.
Proof.
  induction l as [|a l IH]; simpl.
  - split; [discriminate | intros (i & Hi & _); discriminate].
  - destruct (p a) eqn:Ha.
    + split.
      * intros [= <-]. exists 0%nat. repeat split; auto. intros; lia.
      * intros (i & Hi & Hx & Hfirst). destruct i as [|i]; [exact Hi|].
        specialize (Hfirst 0%nat a ltac:(lia) eq_refl). congruence.
    + rewrite IH. split.
      * intros (i & Hi & Hx & Hfirst). exists (S i). repeat split; auto.
        intros [|j] y Hj Hy; simpl in Hy; [congruence|].
        apply (Hfirst j); [lia | exact Hy].
      * intros (i & Hi & Hx & Hfirst). destruct i as [|i].
        { simpl in Hi. congruence. }
        exists i. repeat split; auto.
        intros j y Hj Hy. apply (Hfirst (S j)); [lia | exact Hy].
Qed.

Lemma find_None (l : list A) :
  JS.find p l = None <-> forall x, x ∈ l -> p x = false.
Proof.
  induction l as [|a l IH]; simpl.
  - split; [intros _ x Hx; inversion Hx | reflexivity].
  - destruct (p a) eqn:Ha.
    + split; [discriminate|]. intros H.
      specialize (H a ltac:(left)). congruence.
    + rewrite IH. split.
      * intros H x Hx. apply elem_of_cons in Hx as [->|Hx]; auto.
      * intros H x Hx. apply H. now right.
Qed.

End Find.

Lemma or_empty_Some (g : string) : JS.or_empty (Some g) = g.
Proof.
  unfold JS.or_empty, JS.truthy.
  destruct (String.eqb_spec g ""); simpl; congruence.
Qed.

Lemma truthy_Some (v : string) : JS.truthy (Some v) = true <-> v <> "".
Proof.
  unfold JS.truthy. destruct (String.eqb_spec v ""); simpl; split; congruence.
Qed.

(** C6 (as amended).  [getObserverGroup] returns the value of the explicit
    group tag when the tag is set to a non-empty string; when the tag is not
    set or is the empty string, it returns the first name of the known group
    list that the binding carries as a tag whose key and value both equal
    that name; when there is no such name either, it returns the empty
    string.  A binding without any tag is classified as the empty string. *)
Theorem getObserverGroup_cases :
  forall CoreTags this binding,
    let tags := tagMap binding in
    let groupTag := tags !! LIFE_CYCLE_OBSERVER_GROUP CoreTags in
    let known := Lifecycle.groupsByOrder (Lifecycle.options this) in
    let result := Lifecycle.getObserverGroup CoreTags this binding in
    (forall v, groupTag = Some v -> v <> "" -> result = v) /\
    (groupTag = None \/ groupTag = Some "" ->
       (forall (i : nat) g,
          known !! i = Some g -> tags !! g = Some g ->
          (forall (j : nat) h, (j < i)%nat -> known !! j = Some h ->
                               tags !! h <> Some h) ->
          result = g) /\
       ((forall g, g ∈ known -> tags !! g <> Some g) -> result = "")) /\
    (tags = ∅ -> result = "").
Proof.
  intros CoreTags this binding tags groupTag known result.
  assert (JS.truthy groupTag = false ->
          (forall (i : nat) g,
             known !! i = Some g -> tags !! g = Some g ->
             (forall (j : nat) h, (j < i)%nat -> known !! j = Some h ->
                                  tags !! h <> Some h) ->
             result = g) /\
          ((forall g, g ∈ known -> tags !! g <> Some g) -> result = ""))
    as Hfallback.
  { intros Hfalsy. subst result. unfold Lifecycle.getObserverGroup.
    fold tags. fold groupTag. fold known. rewrite Hfalsy. simpl. split.
    - intros i g Hi Hg Hfirst.
      assert (JS.find (fun g => bool_decide (tags !! g = Some g)) known = Some g)
        as ->; [|apply or_empty_Some].
      apply find_Some. exists i. split; [exact Hi|]. split.
      + now apply bool_decide_eq_true.
      + intros j h Hj Hh. apply bool_decide_eq_false. eauto.
    - intros Hnone.
      assert (JS.find (fun g => bool_decide (tags !! g = Some g)) known = None)
        as ->; [|reflexivity].
      apply find_None. intros g Hg. apply bool_decide_eq_false. auto. }
  split; [|split].
  - intros v Hv Hne. subst result. unfold Lifecycle.getObserverGroup.
    fold tags. fold groupTag. rewrite Hv.
    apply truthy_Some in Hne as Ht. rewrite Ht. simpl. apply or_empty_Some.
  - intros [Hnone|Hempty]; apply Hfallback.
    + now rewrite Hnone.
    + now rewrite Hempty.
  - intros Hno.
    assert (forall k, tags !! k = None) as Hlook
      by (intros k; rewrite Hno; apply lookup_empty).
    apply Hfallback.
    + unfold groupTag. now rewrite Hlook.
    + intros g _. now rewrite Hlook.
Qed.

(** [A] is classified by its group tag, [D] by its marker tag. *)
Lemma getObserverGroup_cases_witness :
  Lifecycle.getObserverGroup Scenario.CoreTags
    (Scenario.registry (Scenario.healthy []) ["db"; "server"] true) Scenario.A
  = "db" /\
  Lifecycle.getObserverGroup Scenario.CoreTags
    (Scenario.registry (Scenario.healthy []) ["db"; "server"] true) Scenario.D
  = "server".
Proof.
  split.
  - apply (proj1 (getObserverGroup_cases Scenario.CoreTags
                    (Scenario.registry (Scenario.healthy []) ["db"; "server"] true)
                    Scenario.A)).
    + reflexivity.
    + discriminate.
  - apply (proj1 (proj1 (proj2 (getObserverGroup_cases Scenario.CoreTags
                    (Scenario.registry (Scenario.healthy []) ["db"; "server"] true)
                    Scenario.D)) (or_introl eq_refl)) 1%nat).
    + reflexivity.
    + reflexivity.
    + intros [|j] h Hj Hh; [|lia]. injection Hh as <-. discriminate.
Defined.

(** C6, as stated, fails for a binding whose explicit group tag is the empty
    string: [E] carries the group tag [""] and the marker tag [server], and
    is classified as [server], not as the value of its group tag. *)
Lemma getObserverGroup_explicit_tag_refuted :
  ~ (forall v,
       tagMap Scenario.E !! LIFE_CYCLE_OBSERVER_GROUP Scenario.CoreTags = Some v ->
       Lifecycle.getObserverGroup Scenario.CoreTags
         (Scenario.registry (Scenario.healthy []) ["server"] true) Scenario.E
       = v).
Proof.
  intros H. specialize (H "" eq_refl). vm_compute in H. discriminate H.
Qed.

(** ** The middleware sorter against the life cycle sorter *)

Section SortFmap.
Context {A B : Type} (f : A -> B).
Variables (compareA : A -> A -> Z) (compareB : B -> B -> Z).
Hypothesis compare_f : forall a a', compareA a a' = compareB (f a) (f a').

Lemma sort_insert_fmap (x : A) (l : list A) :
  f <$> JS.sort_insert compareA x l = JS.sort_insert compareB (f x) (f <$> l).
Proof.
  induction l as [|y l IH]; simpl; [reflexivity|].
  rewrite compare_f. destruct (compareB (f y) (f x) <=? 0); simpl;
    [f_equal; exact IH | reflexivity].
Qed.

Lemma sort_from_fmap (l acc : list A) :
  f <$> fold_left (fun acc x => JS.sort_insert compareA x acc) l acc
  = fold_left (fun acc x => JS.sort_insert compareB x acc) (f <$> l) (f <$> acc).
Proof.
  revert acc. induction l as [|x l IH]; intros acc; [reflexivity|].
  rewrite fmap_cons. cbn [fold_left]. now rewrite IH, sort_insert_fmap.
Qed.

Lemma sort_fmap (l : list A) :
  f <$> JS.sort compareA l = JS.sort compareB (f <$> l).
Proof. apply (sort_from_fmap l []). Qed.

End SortFmap.

Lemma group_by_ext (classify classify' : Binding -> string) (input : list Binding) :
  (forall b, b ∈ input -> classify b = classify' b) ->
  fold_left (group_add classify) input []
  = fold_left (group_add classify') input [].
Proof.
  generalize (@nil (string * list Binding)).
  induction input as [|b input IH]; intros m Hext; simpl; [reflexivity|].
  rewrite IH by (intros b' Hb'; apply Hext; now right).
  f_equal. unfold group_add. now rewrite (Hext b) by left.
Qed.

(** The classifiers agree on a binding that has a non-empty phase tag or no
    marker tag for a name of the priority list. *)
Lemma getObserverGroup_phase observerTag ctx this (b : Binding) :
  JS.truthy (tagMap b !! "phase") = true \/
  (forall g, g ∈ Middleware.phasesByOrder (Middleware.options this) ->
             tagMap b !! g <> Some g) ->
  Lifecycle.getObserverGroup (phaseTags observerTag) (lifecycle_of ctx this) b
  = Middleware.getMiddlewarePhase b.
Proof.
  unfold Lifecycle.getObserverGroup, Middleware.getMiddlewarePhase. simpl.
  intros [Ht|Hnone].
  - now rewrite Ht.
  - destruct (JS.truthy (tagMap b !! "phase")) eqn:Ht; simpl; [reflexivity|].
    assert (JS.find (fun g => bool_decide (tagMap b !! g = Some g))
              (Middleware.phasesByOrder (Middleware.options this)) = None) as ->.
    { apply find_None. intros g Hg. apply bool_decide_eq_false. auto. }
    unfold JS.or_empty. destruct (tagMap b !! "phase"); [now rewrite Ht | done].
Qed.

(** C8 (as amended).  The middleware registry partitions and orders its
    bindings as the life cycle registry does with the tag key [phase] in
    place of the group tag and the same priority list, for every input in
    which each binding has a non-empty [phase] tag or carries no marker tag
    (same key and value) for a name of the priority list: the middleware
    classifier reads the [phase] tag only and has no marker-tag fallback. *)
Theorem phases_sorted_as_groups :
  forall observerTag ctx this input,
    (forall b, b ∈ input ->
       JS.truthy (tagMap b !! "phase") = true \/
       (forall g, g ∈ Middleware.phasesByOrder (Middleware.options this) ->
                  tagMap b !! g <> Some g)) ->
    Lifecycle.groupMap_of (phaseTags observerTag) (lifecycle_of ctx this) input
    = Middleware.phaseMap_of input /\
    same_groups
      (Lifecycle.sortObserverBindingsByGroup (phaseTags observerTag)
         (lifecycle_of ctx this) input)
      (Middleware.sortMiddlewareBindingsByPhase this input).
Proof.
  intros observerTag ctx this input Hinput.
  assert (fold_left
            (group_add (Lifecycle.getObserverGroup (phaseTags observerTag)
                          (lifecycle_of ctx this))) input []
          = fold_left (group_add Middleware.getMiddlewarePhase) input [])
    as Hmap.
  { apply group_by_ext. intros b Hb. apply getObserverGroup_phase. auto. }
  split; [exact Hmap|].
  unfold same_groups, Lifecycle.sortObserverBindingsByGroup,
    Middleware.sortMiddlewareBindingsByPhase.
  set (compare := fun e e' : string * list Binding =>
         compareNames (Middleware.phasesByOrder (Middleware.options this))
           e.1 e'.1).
  rewrite (sort_fmap _ _ compare) by reflexivity.
  rewrite (sort_fmap _ (Middleware.comparePhases this) compare) by reflexivity.
  f_equal. rewrite groups_of_fmap, phases_of_fmap, <- !list_fmap_compose.
  rewrite Hmap. apply list_fmap_ext. now intros i [g bs] _.
Qed.

(** On bindings that all carry a phase tag the two sorters agree. *)
Lemma phases_sorted_as_groups_witness :
  same_groups
    (Lifecycle.sortObserverBindingsByGroup (phaseTags "middleware")
       (lifecycle_of (Scenario.healthy [])
          (Scenario.middlewareRegistry
             [Scenario.M1; Scenario.M2; Scenario.M3] ["log"; "auth"]))
       [Scenario.M1; Scenario.M2; Scenario.M3])
    (Middleware.sortMiddlewareBindingsByPhase
       (Scenario.middlewareRegistry
          [Scenario.M1; Scenario.M2; Scenario.M3] ["log"; "auth"])
       [Scenario.M1; Scenario.M2; Scenario.M3]).
Proof.
  apply (phases_sorted_as_groups "middleware" (Scenario.healthy [])
           (Scenario.middlewareRegistry
              [Scenario.M1; Scenario.M2; Scenario.M3] ["log"; "auth"])
           [Scenario.M1; Scenario.M2; Scenario.M3]).
  intros b Hb. left.
  apply elem_of_cons in Hb as [->|Hb]; [reflexivity|].
  apply elem_of_cons in Hb as [->|Hb]; [reflexivity|].
  apply list_elem_of_singleton in Hb as ->. reflexivity.
Defined.

(** C8, as stated, fails for a binding without a phase tag that carries the
    marker tag [auth] while [auth] is in the priority list: the life cycle
    classifier puts [M4] in group [auth], the middleware classifier puts it
    in the phase [""]. *)
Lemma phases_sorted_as_groups_refuted :
  ~ same_groups
      (Lifecycle.sortObserverBindingsByGroup (phaseTags "middleware")
         (lifecycle_of (Scenario.healthy [])
            (Scenario.middlewareRegistry [Scenario.M4] ["auth"]))
         [Scenario.M4])
      (Middleware.sortMiddlewareBindingsByPhase
         (Scenario.middlewareRegistry [Scenario.M4] ["auth"])
         [Scenario.M4]).
Proof.
  unfold same_groups. intros H.
  apply (f_equal (fmap fst)) in H. vm_compute in H. discriminate H.
Qed.

(** ** Notification *)

Section Calls.
Variable this : Lifecycle.LifeCycleObserverRegistry.

Lemma notifyObserver_callee event t b :
  callee (Lifecycle.notifyObserver this event t b) = key b.
Proof.
  unfold Lifecycle.notifyObserver.
  destruct (Lifecycle.instance _); [reflexivity|].
  now destruct (Lifecycle.invokeObserver _ _ _).
Qed.

Lemma notifyObserver_called event t b :
  called (Lifecycle.notifyObserver this event t b) = t.
Proof.
  unfold Lifecycle.notifyObserver.
  destruct (Lifecycle.instance _); [reflexivity|].
  now destruct (Lifecycle.invokeObserver _ _ _).
Qed.

(** A promise does not settle before the call that creates it. *)
Lemma notifyObserver_settled event t b :
  (t <= settled (Lifecycle.notifyObserver this event t b))%nat.
Proof.
  unfold Lifecycle.notifyObserver, Lifecycle.invokeObserver.
  destruct (Lifecycle.instance _) as [e|observer]; simpl; [lia|].
  destruct (observer !! event); simpl; lia.
Qed.

Lemma notifyObserver_callees event t bs :
  callee <$> map (Lifecycle.notifyObserver this event t) bs = key <$> bs.
Proof.
  induction bs as [|b bs IH]; [reflexivity|].
  cbn [map]. rewrite !fmap_cons, IH. now rewrite notifyObserver_callee.
Qed.

(** Sequential notification calls a prefix of the members, one at a time,
    and stops at the first rejection. *)
Lemma notifyInTurn_calls event bs : forall t calls t' r,
  Lifecycle.notifyInTurn this event t bs = (calls, t', r) ->
  match r with
  | None =>
      callee <$> calls = key <$> bs /\
      Forall (fun c => rejected c = None) calls
  | Some e =>
      (exists c, last calls = Some c /\ rejected c = Some e /\ t' = settled c) /\
      callee <$> calls `prefix_of` key <$> bs
  end.
Proof.
  induction bs as [|b bs IH]; intros t calls t' r; cbn [Lifecycle.notifyInTurn].
  - intros [= <- <- <-]. split; [reflexivity | constructor].
  - destruct (rejected (Lifecycle.notifyObserver this event t b)) as [e|] eqn:Hb.
    + intros [= <- <- <-]. split.
      * eexists. split; [reflexivity|]. split; [exact Hb | reflexivity].
      * rewrite !fmap_cons, notifyObserver_callee. simpl.
        exists (key <$> bs). reflexivity.
    + destruct (Lifecycle.notifyInTurn this event _ bs) as [[cs t1] r1] eqn:Hrest.
      intros [= <- <- <-]. specialize (IH _ _ _ _ Hrest).
      destruct r1 as [e|].
      * destruct IH as [(c & Hlast & Hc & Ht) Hpre]. split.
        -- exists c. split; [|now split].
           destruct cs; [discriminate | exact Hlast].
        -- rewrite !fmap_cons, notifyObserver_callee.
           now apply prefix_cons.
      * destruct IH as [Hkeys Hok]. split.
        -- now rewrite !fmap_cons, notifyObserver_callee, Hkeys.
        -- constructor; [exact Hb | exact Hok].
Qed.

End Calls.

Section PromiseAll.

Lemma first_rejected_None awaits (cs : list Call) :
  Promise.first_rejected awaits cs = None
  <-> Forall (fun c => rejected c = None) cs.
Proof.
  induction cs as [|c cs IH]; simpl.
  - split; [constructor | reflexivity].
  - rewrite Forall_cons. destruct (rejected c) as [e|].
    + split; [|intros [? _]; discriminate].
      destruct (Promise.first_rejected awaits cs) as [c'|]; [|discriminate].
      destruct (Promise.heard_first awaits c c'); discriminate.
    + rewrite IH. tauto.
Qed.

(** The call [Promise.all] reports rejected, and none settles rejected
    before it. *)
Lemma first_rejected_Some awaits (cs : list Call) (c : Call) :
  Promise.first_rejected awaits cs = Some c ->
  c ∈ cs /\ rejected c <> None /\
  forall c', c' ∈ cs -> rejected c' <> None -> (settled c <= settled c')%nat.
Proof.
  revert c. induction cs as [|c0 cs IH]; intros c; simpl; [discriminate|].
  destruct (rejected c0) as [e|] eqn:H0.
  - destruct (Promise.first_rejected awaits cs) as [c1|] eqn:H1.
    + destruct (IH c1 eq_refl) as (Hin & Hrej & Hmin).
      destruct (Promise.heard_first awaits c0 c1) eqn:Hfirst;
        unfold Promise.heard_first in Hfirst;
        [ assert (settled c0 <= settled c1)%nat as Hle
            by (apply orb_true_iff in Hfirst as [Hlt|Heq];
                [ apply Nat.ltb_lt in Hlt; lia
                | apply andb_true_iff in Heq as [Heq _];
                  apply Nat.eqb_eq in Heq; lia ])
        | assert (settled c1 <= settled c0)%nat as Hgt
            by (apply orb_false_iff in Hfirst as [Hlt _];
                apply Nat.ltb_ge in Hlt; exact Hlt) ];
        intros [= <-].
      * split; [left|]. split; [congruence|].
        intros c' Hc' Hr. apply elem_of_cons in Hc' as [->|Hc']; [lia|].
        specialize (Hmin c' Hc' Hr). lia.
      * split; [now right|]. split; [exact Hrej|].
        intros c' Hc' Hr. apply elem_of_cons in Hc' as [->|Hc']; [lia|].
        now apply Hmin.
    + intros [= <-]. split; [left|]. split; [congruence|].
      intros c' Hc' Hr. apply elem_of_cons in Hc' as [->|Hc']; [lia|].
      apply first_rejected_None in H1. rewrite Forall_forall in H1.
      now specialize (H1 c' Hc').
  - intros Hc. destruct (IH c Hc) as (Hin & Hrej & Hmin).
    split; [now right|]. split; [exact Hrej|].
    intros c' Hc' Hr. apply elem_of_cons in Hc' as [->|Hc']; [congruence|].
    now apply Hmin.
Qed.

Lemma all_settled_bound (t : nat) (cs : list Call) (c : Call) :
  c ∈ cs -> (settled c <= Promise.all_settled t cs)%nat.
Proof.
  induction cs as [|c0 cs IH]; simpl; intros Hc; [inversion Hc|].
  apply elem_of_cons in Hc as [->|Hc]; [lia|]. specialize (IH Hc). lia.
Qed.

End PromiseAll.

Section NotifyGroup.
Variable this : Lifecycle.LifeCycleObserverRegistry.

Local Abbreviation notify := (Lifecycle.notifyObserverGroup this).

(** A fulfilled [notifyObserverGroup] has called every member, in member
    order, and every call is fulfilled. *)
Lemma notifyObserverGroup_fulfilled g event w w' :
  notify g event w = (w', inr tt) ->
  exists v,
    Lifecycle.trace w' = Lifecycle.trace w ++ [v] /\
    visited [v] = [label (event, g)] /\
    Forall (fun c => rejected c = None) (Lifecycle.visit_calls v).
Proof.
  unfold Lifecycle.notifyObserverGroup.
  destruct (JS.truthy_bool _).
  - unfold Promise.all.
    destruct (Promise.first_rejected _ _) as [c|] eqn:Hfirst.
    + apply first_rejected_Some in Hfirst as (_ & Hrej & _).
      destruct (rejected c); [discriminate | congruence].
    + intros [= <-]. eexists. split; [reflexivity|]. split.
      * unfold visited, label. simpl. now rewrite notifyObserver_callees.
      * now apply first_rejected_None in Hfirst.
  - destruct (Lifecycle.notifyInTurn _ _ _ _) as [[calls t] r] eqn:Hturn.
    apply notifyInTurn_calls in Hturn.
    destruct r as [e|]; [discriminate|]. destruct Hturn as [Hkeys Hok].
    intros [= <-]. eexists. split; [reflexivity|]. split; [|exact Hok].
    unfold visited, label. simpl. now rewrite Hkeys.
Qed.

(** A rejected [notifyObserverGroup] carries the rejection of one of the
    calls it made. *)
Lemma notifyObserverGroup_rejected g event w w' e :
  notify g event w = (w', inl e) ->
  exists v,
    Lifecycle.trace w' = Lifecycle.trace w ++ [v] /\
    Lifecycle.visit_event v = event /\
    Lifecycle.visit_group v = Lifecycle.group g /\
    callee <$> Lifecycle.visit_calls v `prefix_of` key <$> Lifecycle.bindings g /\
    exists c, c ∈ Lifecycle.visit_calls v /\ rejected c = Some e.
Proof.
  unfold Lifecycle.notifyObserverGroup.
  destruct (JS.truthy_bool _).
  - unfold Promise.all.
    destruct (Promise.first_rejected _ _) as [c|] eqn:Hfirst; [|discriminate].
    apply first_rejected_Some in Hfirst as (Hin & Hrej & _).
    destruct (rejected c) as [e'|] eqn:Hc; [|congruence].
    intros [= <- <-]. eexists. split; [reflexivity|]. simpl.
    repeat split; [now rewrite notifyObserver_callees | eauto].
  - destruct (Lifecycle.notifyInTurn _ _ _ _) as [[calls t] r] eqn:Hturn.
    apply notifyInTurn_calls in Hturn.
    destruct r as [e'|]; [|discriminate].
    destruct Hturn as [(c & Hlast & Hc & _) Hpre].
    intros [= <- <-]. eexists. split; [reflexivity|]. simpl.
    repeat split; [exact Hpre|]. exists c. split; [|exact Hc].
    apply last_Some in Hlast as [l' ->]. apply elem_of_app. right. left.
Qed.

End NotifyGroup.

Section ForOf.
Context {A : Type}.
Implicit Types (body : A -> Lifecycle.Async unit) (w : Lifecycle.World).

Lemma for_of_app xs ys body w :
  Lifecycle.for_of (xs ++ ys) body w
  = Lifecycle.await (Lifecycle.for_of xs body)
      (fun _ => Lifecycle.for_of ys body) w.
Proof.
  revert w. induction xs as [|x xs IH]; intros w; [reflexivity|].
  cbn [app Lifecycle.for_of]. unfold Lifecycle.await.
  destruct (body x w) as [w1 [e|[]]]; [reflexivity|]. rewrite IH.
  reflexivity.
Qed.

Lemma for_of_fmap {B} (f : B -> A) (xs : list B) body w :
  Lifecycle.for_of (f <$> xs) body w
  = Lifecycle.for_of xs (fun x => body (f x)) w.
Proof.
  revert w. induction xs as [|x xs IH]; intros w; [reflexivity|].
  rewrite fmap_cons. cbn [Lifecycle.for_of]. unfold Lifecycle.await.
  destruct (body (f x) w) as [w1 [e|[]]]; [reflexivity | apply IH].
Qed.

End ForOf.

(** [notifyGroups] runs the steps of the schedule one after the other. *)
Lemma notifyGroups_schedule this events groups w :
  Lifecycle.notifyGroups this events groups w
  = Lifecycle.for_of (schedule events groups)
      (fun step => Lifecycle.notifyObserverGroup this step.2 step.1) w.
Proof.
  unfold Lifecycle.notifyGroups, schedule. revert w.
  induction events as [|event events IH]; intros w; [reflexivity|].
  rewrite bind_cons, for_of_app. cbn [Lifecycle.for_of].
  unfold Lifecycle.await. rewrite for_of_fmap. simpl.
  destruct (Lifecycle.for_of groups _ w) as [w1 [e|[]]]; [reflexivity|].
  apply IH.
Qed.

Lemma all_fulfilled_cons v visits :
  Forall (fun c => rejected c = None) (Lifecycle.visit_calls v) ->
  all_fulfilled visits -> all_fulfilled (v :: visits).
Proof.
  intros Hv Hvisits v' c Hv' Hc. apply elem_of_cons in Hv' as [->|Hv'].
  - rewrite Forall_forall in Hv. now apply Hv.
  - now apply (Hvisits v').
Qed.

(** What running a sequence of steps adds to the trace. *)
Lemma steps_run this steps : forall w w' r,
  Lifecycle.for_of steps
    (fun step => Lifecycle.notifyObserverGroup this step.2 step.1) w = (w', r) ->
  match r with
  | inr _ =>
      exists visits,
        Lifecycle.trace w' = Lifecycle.trace w ++ visits /\
        visited visits = label <$> steps /\
        all_fulfilled visits
  | inl e =>
      exists done failing rest visits visit,
        steps = done ++ failing :: rest /\
        Lifecycle.trace w' = Lifecycle.trace w ++ visits ++ [visit] /\
        visited visits = label <$> done /\
        all_fulfilled visits /\
        Lifecycle.visit_event visit = failing.1 /\
        Lifecycle.visit_group visit = Lifecycle.group failing.2 /\
        callee <$> Lifecycle.visit_calls visit
          `prefix_of` key <$> Lifecycle.bindings failing.2 /\
        exists c, c ∈ Lifecycle.visit_calls visit /\ rejected c = Some e
  end.
Proof.
  induction steps as [|[event g] steps IH]; intros w w' r.
  - intros [= <- <-]. exists []. rewrite app_nil_r.
    repeat split. intros v c Hv. inversion Hv.
  - cbn [Lifecycle.for_of]. unfold Lifecycle.await. simpl.
    destruct (Lifecycle.notifyObserverGroup this g event w) as [w1 [e|[]]] eqn:Hg.
    + intros [= <- <-].
      apply notifyObserverGroup_rejected in Hg
        as (v & Htrace & Hevent & Hgroup & Hpre & Hc).
      exists [], (event, g), steps, [], v. simpl. repeat split; auto.
      intros v' c Hv'. inversion Hv'.
    + apply notifyObserverGroup_fulfilled in Hg as (v & Htrace & Hv & Hok).
      intros Hrest. specialize (IH _ _ _ Hrest). destruct r as [e|u].
      * destruct IH as (done & failing & rest & visits & visit & -> & Ht & Hvis
                        & Hful & Hrest').
        exists ((event, g) :: done), failing, rest, (v :: visits), visit.
        split; [reflexivity|]. split.
        { rewrite Ht, Htrace, <- !app_assoc. reflexivity. }
        split.
        { change (v :: visits) with ([v] ++ visits). unfold visited in *.
          rewrite fmap_app, Hv, Hvis. reflexivity. }
        split; [now apply all_fulfilled_cons | exact Hrest'].
      * destruct IH as (visits & Ht & Hvis & Hful).
        exists (v :: visits). split.
        { rewrite Ht, Htrace, <- !app_assoc. reflexivity. }
        split; [|now apply all_fulfilled_cons].
        change (v :: visits) with ([v] ++ visits). unfold visited in *.
        rewrite fmap_app, Hv, Hvis. reflexivity.
Qed.

(** The same for [notifyGroups]. *)
Lemma notifyGroups_fulfilled this events groups w w' :
  Lifecycle.notifyGroups this events groups w = (w', inr tt) ->
  exists visits,
    Lifecycle.trace w' = Lifecycle.trace w ++ visits /\
    visited visits = schedule events (membership groups) /\
    all_fulfilled visits.
Proof.
  rewrite notifyGroups_schedule. intros Hrun.
  apply steps_run in Hrun as (visits & Ht & Hvis & Hful).
  exists visits. repeat split; auto. rewrite Hvis.
  unfold schedule, membership. clear.
  induction events as [|event events IH]; [reflexivity|].
  rewrite !bind_cons, fmap_app, IH. f_equal.
  rewrite <- !list_fmap_compose. reflexivity.
Qed.

Lemma notifyGroups_rejected this events groups w w' e :
  Lifecycle.notifyGroups this events groups w = (w', inl e) ->
  aborted_with e events groups w w'.
Proof.
  rewrite notifyGroups_schedule. intros Hrun.
  apply steps_run in Hrun. exact Hrun.
Qed.

(** ** The schedule is event-major *)

Section Schedule.
Context {G : Type}.
Implicit Types (events : list string) (groups : list G).

Lemma schedule_events events groups e g :
  (e, g) ∈ schedule events groups -> e ∈ events.
Proof.
  unfold schedule. rewrite list_elem_of_bind.
  intros (event & Hin & Hevent).
  apply list_elem_of_fmap in Hin as (g' & [= -> ->] & _). exact Hevent.
Qed.

Lemma schedule_fmap {G'} (f : G -> G') events groups :
  schedule events (f <$> groups)
  = (fun step => (step.1, f step.2)) <$> schedule events groups.
Proof.
  unfold schedule. induction events as [|event events IH]; [reflexivity|].
  rewrite !bind_cons, fmap_app, IH. f_equal.
  rewrite <- !list_fmap_compose. reflexivity.
Qed.

Lemma schedule_event_major events groups :
  NoDup events ->
  forall (i j : nat) e e' g g',
    schedule events groups !! i = Some (e, g) ->
    schedule events groups !! j = Some (e', g') ->
    JS.indexOf events e < JS.indexOf events e' -> (i < j)%nat.
Proof.
  induction events as [|e0 events IH]; intros Hnd i j e e' g g';
    [discriminate|].
  apply NoDup_cons in Hnd as [Hfresh Hnd].
  change (schedule (e0 :: events) groups)
    with (((fun g => (e0, g)) <$> groups) ++ schedule events groups).
  rewrite !lookup_app_Some, !length_fmap.
  assert (forall (k : nat) x y,
            ((fun g => (e0, g)) <$> groups) !! k = Some (x, y) ->
            x = e0 /\ (k < length groups)%nat) as Hblock.
  { intros k x y Hk. split.
    - rewrite list_lookup_fmap in Hk.
      destruct (groups !! k); simpl in Hk; congruence.
    - apply lookup_lt_Some in Hk. now rewrite length_fmap in Hk. }
  assert (forall (k : nat) x y,
            schedule events groups !! k = Some (x, y) ->
            x ∈ events /\ x <> e0 /\
            JS.indexOf (e0 :: events) x = JS.indexOf events x + 1) as Hrest.
  { intros k x y Hk.
    assert (x ∈ events) as Hx
      by (eapply schedule_events, list_elem_of_lookup_2, Hk).
    assert (x <> e0) as Hne by (intros ->; contradiction).
    repeat split; auto. simpl.
    destruct (decide (e0 = x)); [congruence|].
    destruct (Z.eqb_spec (JS.indexOf events x) (-1)) as [E|E]; [|reflexivity].
    apply indexOf_absent in E. contradiction. }
  intros [Hi|[Hi Hi']] [Hj|[Hj Hj']] Hlt.
  - apply Hblock in Hi as [-> _]. apply Hblock in Hj as [-> _]. lia.
  - apply Hblock in Hi as [_ Hi]. lia.
  - apply Hblock in Hj as [-> _]. apply Hrest in Hi' as (_ & Hne & Hidx).
    rewrite Hidx in Hlt. simpl in Hlt.
    destruct (decide (e0 = e0)); [|congruence].
    pose proof (indexOf_lower events e). lia.
  - pose proof (Hrest _ _ _ Hi') as (_ & _ & Ei).
    pose proof (Hrest _ _ _ Hj') as (_ & _ & Ej).
    rewrite Ei, Ej in Hlt.
    assert (i - length groups < j - length groups)%nat; [|lia].
    apply (IH Hnd _ _ _ _ _ _ Hi' Hj'). lia.
Qed.

End Schedule.

Lemma membership_rev groups : membership (rev groups) = rev (membership groups).
Proof.
  unfold membership. induction groups as [|g groups IH]; [reflexivity|].
  simpl. now rewrite fmap_app, IH.
Qed.

Lemma notified_visited visits :
  notified visits
  = (fun x : string * (string * list string) => (x.1, x.2.1)) <$> visited visits.
Proof. unfold notified, visited. now rewrite <- list_fmap_compose. Qed.

(** Whatever its outcome, [notifyGroups] notifies a prefix of the schedule. *)
Lemma notifyGroups_prefix this events groups w w' r :
  Lifecycle.notifyGroups this events groups w = (w', r) ->
  exists visits,
    Lifecycle.trace w' = Lifecycle.trace w ++ visits /\
    notified visits `prefix_of` schedule events (Lifecycle.group <$> groups) /\
    (r = inr tt -> visited visits = schedule events (membership groups)).
Proof.
  intros Hrun. destruct r as [e|[]].
  - apply notifyGroups_rejected in Hrun
      as (done & failing & rest & visits & visit & Hsched & Ht & Hvis & _
          & Hevent & Hgroup & _).
    exists (visits ++ [visit]). split; [exact Ht|]. split; [|discriminate].
    rewrite schedule_fmap, Hsched.
    exists ((fun step : string * Lifecycle.LifeCycleObserverGroup =>
               (step.1, Lifecycle.group step.2)) <$> rest).
    unfold notified at 1. rewrite !fmap_app, !fmap_cons. simpl.
    fold (notified visits). rewrite notified_visited, Hvis, Hevent, Hgroup.
    rewrite <- list_fmap_compose, <- app_assoc. reflexivity.
  - apply notifyGroups_fulfilled in Hrun as (visits & Ht & Hvis & _).
    exists visits. split; [exact Ht|]. split; [|now intros _].
    rewrite notified_visited, Hvis. unfold membership.
    rewrite !schedule_fmap, <- list_fmap_compose. reflexivity.
Qed.

Lemma notifyGroups_event_major this events groups w w' :
  NoDup events ->
  Lifecycle.notifyGroups this events groups w = (w', inr tt) ->
  exists visits,
    Lifecycle.trace w' = Lifecycle.trace w ++ visits /\
    event_major events (Lifecycle.group <$> groups) visits.
Proof.
  intros Hnd Hrun.
  apply notifyGroups_fulfilled in Hrun as (visits & Ht & Hvis & _).
  exists visits. split; [exact Ht|].
  assert (notified visits = schedule events (Lifecycle.group <$> groups))
    as Hnotified.
  { rewrite notified_visited, Hvis. unfold membership.
    rewrite !schedule_fmap, <- list_fmap_compose. reflexivity. }
  split; [exact Hnotified|]. rewrite Hnotified.
  now apply schedule_event_major.
Qed.

(** C5.  In every successful [start] (and [stop]) the visits the run adds to
    the trace are the event-major broadcast of the three sub-events, in
    declared order, over the ordered groups: each sub-event is sent to every
    group, and every group is notified of a sub-event before any group is
    notified of a later one. *)
Theorem broadcast_is_event_major :
  forall CoreTags this w w',
    (Lifecycle.start CoreTags this w = (w', inr tt) ->
     exists visits,
       Lifecycle.trace w' = Lifecycle.trace w ++ visits /\
       event_major ["preStart"; "start"; "postStart"]
         (Lifecycle.group <$> Lifecycle.getObserverGroupsByOrder CoreTags this)
         visits) /\
    (Lifecycle.stop CoreTags this w = (w', inr tt) ->
     exists visits,
       Lifecycle.trace w' = Lifecycle.trace w ++ visits /\
       event_major ["preStop"; "stop"; "postStop"]
         (Lifecycle.group <$> rev (Lifecycle.getObserverGroupsByOrder CoreTags this))
         visits).
Proof.
  intros CoreTags this w w'. split; intros Hrun;
    (apply (notifyGroups_event_major this _ _ w w'); [|exact Hrun]);
    repeat (apply NoDup_cons; split; [compute_done|]); apply NoDup_nil_2.
Qed.

(** A successful [start] on the scenario. *)
Lemma broadcast_is_event_major_witness :
  exists visits,
    Lifecycle.trace
      (Lifecycle.start Scenario.CoreTags
         (Scenario.registry
            (Scenario.healthy [Scenario.A; Scenario.B; Scenario.C])
            ["db"; "server"] true)
         Scenario.idle).1
    = Lifecycle.trace Scenario.idle ++ visits /\
    event_major ["preStart"; "start"; "postStart"]
      (Lifecycle.group <$>
         Lifecycle.getObserverGroupsByOrder Scenario.CoreTags
           (Scenario.registry
              (Scenario.healthy [Scenario.A; Scenario.B; Scenario.C])
              ["db"; "server"] true))
      visits.
Proof.
  apply (proj1 (broadcast_is_event_major Scenario.CoreTags
                  (Scenario.registry
                     (Scenario.healthy [Scenario.A; Scenario.B; Scenario.C])
                     ["db"; "server"] true)
                  Scenario.idle _)).
  vm_compute. reflexivity.
Defined.

(** C4.  A [start] or [stop] that is rejected is rejected with the rejection
    of a call it made for a member, and is aborted there: the groups
    notified are those of the schedule up to and including the group of
    that call, and no later group and no later sub-event is notified.  A
    [start] or [stop] that is fulfilled has had no rejected call: a failure
    is never turned into a success. *)
Theorem failure_aborts_transition :
  forall CoreTags this w w',
    (forall e,
       Lifecycle.start CoreTags this w = (w', inl e) ->
       aborted_with e ["preStart"; "start"; "postStart"]
         (Lifecycle.getObserverGroupsByOrder CoreTags this) w w') /\
    (forall e,
       Lifecycle.stop CoreTags this w = (w', inl e) ->
       aborted_with e ["preStop"; "stop"; "postStop"]
         (rev (Lifecycle.getObserverGroupsByOrder CoreTags this)) w w') /\
    (Lifecycle.start CoreTags this w = (w', inr tt) ->
     exists visits,
       Lifecycle.trace w' = Lifecycle.trace w ++ visits /\ all_fulfilled visits) /\
    (Lifecycle.stop CoreTags this w = (w', inr tt) ->
     exists visits,
       Lifecycle.trace w' = Lifecycle.trace w ++ visits /\ all_fulfilled visits).
Proof.
  intros CoreTags this w w'. repeat split.
  - intros e Hrun. exact (notifyGroups_rejected this _ _ _ _ _ Hrun).
  - intros e Hrun. exact (notifyGroups_rejected this _ _ _ _ _ Hrun).
  - intros Hrun. apply notifyGroups_fulfilled in Hrun as (visits & ? & _ & ?).
    now exists visits.
  - intros Hrun. apply notifyGroups_fulfilled in Hrun as (visits & ? & _ & ?).
    now exists visits.
Qed.

(** A sequential [start] in which [B] fails to start. *)
Lemma failure_aborts_transition_witness :
  aborted_with "B failed" ["preStart"; "start"; "postStart"]
    (Lifecycle.getObserverGroupsByOrder Scenario.CoreTags
       (Scenario.registry
          (Scenario.failing [Scenario.A; Scenario.B; Scenario.C])
          ["db"; "server"] false))
    Scenario.idle
    (Lifecycle.start Scenario.CoreTags
       (Scenario.registry
          (Scenario.failing [Scenario.A; Scenario.B; Scenario.C])
          ["db"; "server"] false)
       Scenario.idle).1.
Proof.
  apply (proj1 (failure_aborts_transition Scenario.CoreTags
                  (Scenario.registry
                     (Scenario.failing [Scenario.A; Scenario.B; Scenario.C])
                     ["db"; "server"] false)
                  Scenario.idle _)).
  vm_compute. reflexivity.
Defined.

(** C2.  For a fixed registry, [stop] visits the groups in exactly the
    reverse of the order in which [start] visits them: whatever the outcome,
    a [start] notifies a prefix of the broadcast of its three sub-events
    over the ordered groups, and a [stop] a prefix of the broadcast of its
    three sub-events over the same groups in reverse order; a fulfilled run
    notifies all of it.  Only the order of the groups is reversed: each
    group is visited with its members in the same order, and the sub-events
    of [stop] run in their declared order, as those of [start] do. *)
Theorem stop_reverses_group_order :
  forall CoreTags this,
    let groups := Lifecycle.getObserverGroupsByOrder CoreTags this in
    (forall w w' r,
       Lifecycle.start CoreTags this w = (w', r) ->
       exists visits,
         Lifecycle.trace w' = Lifecycle.trace w ++ visits /\
         notified visits
           `prefix_of` schedule ["preStart"; "start"; "postStart"]
                         (Lifecycle.group <$> groups) /\
         (r = inr tt ->
          visited visits
          = schedule ["preStart"; "start"; "postStart"] (membership groups))) /\
    (forall w w' r,
       Lifecycle.stop CoreTags this w = (w', r) ->
       exists visits,
         Lifecycle.trace w' = Lifecycle.trace w ++ visits /\
         notified visits
           `prefix_of` schedule ["preStop"; "stop"; "postStop"]
                         (rev (Lifecycle.group <$> groups)) /\
         (r = inr tt ->
          visited visits
          = schedule ["preStop"; "stop"; "postStop"] (rev (membership groups)))).
Proof.
  intros CoreTags this groups. split; intros w w' r Hrun.
  - exact (notifyGroups_prefix this _ _ _ _ _ Hrun).
  - destruct (notifyGroups_prefix this _ _ _ _ _ Hrun)
      as (visits & Ht & Hpre & Hall).
    exists visits. split; [exact Ht|].
    rewrite <- membership_rev. split; [|exact Hall].
    replace (rev (Lifecycle.group <$> groups))
      with (Lifecycle.group <$> rev groups); [exact Hpre|].
    clear. induction groups as [|g groups IH]; [reflexivity|].
    simpl. now rewrite fmap_app, IH.
Qed.

(** On the scenario [{A: db, B: server, C: untagged, D: marked server}]
    with priority list [db, server], run to completion. *)
Lemma stop_reverses_group_order_witness :
  (exists visits,
     Lifecycle.trace
       (Lifecycle.start Scenario.CoreTags
          (Scenario.registry
             (Scenario.healthy [Scenario.A; Scenario.B; Scenario.C; Scenario.D])
             ["db"; "server"] true)
          Scenario.idle).1
     = Lifecycle.trace Scenario.idle ++ visits /\
     visited visits
     = schedule ["preStart"; "start"; "postStart"]
         (membership
            (Lifecycle.getObserverGroupsByOrder Scenario.CoreTags
               (Scenario.registry
                  (Scenario.healthy
                     [Scenario.A; Scenario.B; Scenario.C; Scenario.D])
                  ["db"; "server"] true)))) /\
  (exists visits,
     Lifecycle.trace
       (Lifecycle.stop Scenario.CoreTags
          (Scenario.registry
             (Scenario.healthy [Scenario.A; Scenario.B; Scenario.C; Scenario.D])
             ["db"; "server"] true)
          Scenario.idle).1
     = Lifecycle.trace Scenario.idle ++ visits /\
     visited visits
     = schedule ["preStop"; "stop"; "postStop"]
         (rev (membership
                 (Lifecycle.getObserverGroupsByOrder Scenario.CoreTags
                    (Scenario.registry
                       (Scenario.healthy
                          [Scenario.A; Scenario.B; Scenario.C; Scenario.D])
                       ["db"; "server"] true))))).
Proof.
  split.
  - destruct (proj1 (stop_reverses_group_order Scenario.CoreTags
                       (Scenario.registry
                          (Scenario.healthy
                             [Scenario.A; Scenario.B; Scenario.C; Scenario.D])
                          ["db"; "server"] true))
                Scenario.idle
                (Lifecycle.start Scenario.CoreTags
                   (Scenario.registry
                      (Scenario.healthy
                         [Scenario.A; Scenario.B; Scenario.C; Scenario.D])
                      ["db"; "server"] true)
                   Scenario.idle).1
                (inr tt))
      as (visits & Ht & _ & Hall); [vm_compute; reflexivity|].
    exists visits. split; [exact Ht | exact (Hall eq_refl)].
  - destruct (proj2 (stop_reverses_group_order Scenario.CoreTags
                       (Scenario.registry
                          (Scenario.healthy
                             [Scenario.A; Scenario.B; Scenario.C; Scenario.D])
                          ["db"; "server"] true))
                Scenario.idle
                (Lifecycle.stop Scenario.CoreTags
                   (Scenario.registry
                      (Scenario.healthy
                         [Scenario.A; Scenario.B; Scenario.C; Scenario.D])
                      ["db"; "server"] true)
                   Scenario.idle).1
                (inr tt))
      as (visits & Ht & _ & Hall); [vm_compute; reflexivity|].
    exists visits. split; [exact Ht | exact (Hall eq_refl)].
Defined.

(** The groups of that scenario, with their members: [""] with [C], [db]
    with [A], [server] with [B] and [D]. *)
Example scenario_membership :
  membership
    (Lifecycle.getObserverGroupsByOrder Scenario.CoreTags
       (Scenario.registry
          (Scenario.healthy [Scenario.A; Scenario.B; Scenario.C; Scenario.D])
          ["db"; "server"] true))
  = [("", ["C"]); ("db", ["A"]); ("server", ["B"; "D"])].
Proof. vm_compute. reflexivity. Qed.

(** With [parallel] enabled, a fulfilled [notifyObserverGroup] resumes its
    caller when every call of the group has settled. *)
Lemma parallel_group_joins_when_fulfilled this g event w w' :
  JS.truthy_bool (Lifecycle.parallel (Lifecycle.options this)) = true ->
  Lifecycle.notifyObserverGroup this g event w = (w', inr tt) ->
  forall c,
    c ∈ map (Lifecycle.notifyObserver this event (Lifecycle.now w))
            (Lifecycle.bindings g) ->
    (settled c <= Lifecycle.now w')%nat.
Proof.
  intros Hpar. unfold Lifecycle.notifyObserverGroup. rewrite Hpar.
  unfold Promise.all.
  destruct (Promise.first_rejected _ _) as [c0|] eqn:Hfirst.
  - apply first_rejected_Some in Hfirst as (_ & Hrej & _).
    destruct (rejected c0); [discriminate | congruence].
  - intros [= <-] c Hc. simpl. now apply all_settled_bound.
Qed.

(** C3 (as amended).  When [parallel] is enabled and [notifyObserverGroup]
    is rejected, the call for every member of the group has been made, all
    at the instant the group is entered (none is skipped or cancelled); the
    rejection reaches the caller at the instant the first rejected call
    settles, whether or not the other calls have settled by then; and it
    carries the rejection of that first call. *)
Theorem parallel_group_rejects_at_first_failure :
  forall this g event w w' e,
    JS.truthy_bool (Lifecycle.parallel (Lifecycle.options this)) = true ->
    Lifecycle.notifyObserverGroup this g event w = (w', inl e) ->
    let calls :=
      map (Lifecycle.notifyObserver this event (Lifecycle.now w))
          (Lifecycle.bindings g) in
    Lifecycle.trace w'
    = Lifecycle.trace w ++ [{| Lifecycle.visit_event := event;
                               Lifecycle.visit_group := Lifecycle.group g;
                               Lifecycle.visit_calls := calls |}] /\
    exists c,
      c ∈ calls /\ rejected c = Some e /\ Lifecycle.now w' = settled c /\
      forall c', c' ∈ calls -> rejected c' <> None ->
                 (settled c <= settled c')%nat.
Proof.
  intros this g event w w' e Hpar. unfold Lifecycle.notifyObserverGroup.
  rewrite Hpar. unfold Promise.all.
  destruct (Promise.first_rejected _ _) as [c|] eqn:Hfirst; [|discriminate].
  apply first_rejected_Some in Hfirst as (Hin & Hrej & Hmin).
  destruct (rejected c) as [e'|] eqn:Hc; [|congruence].
  intros [= <- <-]. cbv zeta. split; [reflexivity|].
  exists c. repeat split; auto. simpl.
  apply list_elem_of_In, in_map_iff in Hin as (b & <- & _).
  pose proof (notifyObserver_settled this event (Lifecycle.now w) b). lia.
Qed.

(** The group [server] with [B] rejected after 2 ticks and [D] fulfilled
    after 6. *)
Lemma parallel_group_rejects_at_first_failure_witness :
  exists c,
    c ∈ map (Lifecycle.notifyObserver
               (Scenario.registry
                  (Scenario.failing [Scenario.B; Scenario.D]) ["server"] true)
               "start" 0%nat)
            [Scenario.B; Scenario.D] /\
    rejected c = Some "B failed" /\ 2%nat = settled c /\
    forall c',
      c' ∈ map (Lifecycle.notifyObserver
                  (Scenario.registry
                     (Scenario.failing [Scenario.B; Scenario.D]) ["server"] true)
                  "start" 0%nat)
               [Scenario.B; Scenario.D] ->
      rejected c' <> None -> (settled c <= settled c')%nat.
Proof.
  apply (parallel_group_rejects_at_first_failure
           (Scenario.registry
              (Scenario.failing [Scenario.B; Scenario.D]) ["server"] true)
           {| Lifecycle.group := "server";
              Lifecycle.bindings := [Scenario.B; Scenario.D] |}
           "start" Scenario.idle
           {| Lifecycle.now := 2;
              Lifecycle.trace :=
                [{| Lifecycle.visit_event := "start";
                    Lifecycle.visit_group := "server";
                    Lifecycle.visit_calls :=
                      [{| callee := "B"; called := 0; settled := 2;
                          rejected := Some "B failed" |};
                       {| callee := "D"; called := 0; settled := 6;
                          rejected := None |}] |}] |}
           "B failed").
  - reflexivity.
  - vm_compute. reflexivity.
Defined.

(** C3, as stated, fails: with [parallel] enabled, [B] rejected after 2
    ticks and [D] fulfilled after 6, [notifyObserverGroup] is rejected at
    instant 2, four ticks before the call for [D] settles. *)
Lemma parallel_group_join_refuted :
  ~ joins_before_rejecting
      (Scenario.registry
         (Scenario.failing [Scenario.B; Scenario.D]) ["server"] true)
      {| Lifecycle.group := "server";
         Lifecycle.bindings := [Scenario.B; Scenario.D] |}
      "start" Scenario.idle.
Proof.
  intros Hjoin.
  specialize (Hjoin
    {| Lifecycle.now := 2;
       Lifecycle.trace :=
         [{| Lifecycle.visit_event := "start";
             Lifecycle.visit_group := "server";
             Lifecycle.visit_calls :=
               [{| callee := "B"; called := 0; settled := 2;
                   rejected := Some "B failed" |};
                {| callee := "D"; called := 0; settled := 6;
                   rejected := None |}] |}] |}
    "B failed"
    {| Lifecycle.visit_event := "start";
       Lifecycle.visit_group := "server";
       Lifecycle.visit_calls :=
         [{| callee := "B"; called := 0; settled := 2;
             rejected := Some "B failed" |};
          {| callee := "D"; called := 0; settled := 6;
             rejected := None |}] |}
    {| callee := "D"; called := 0; settled := 6; rejected := None |}).
  simpl in Hjoin.
  assert (6 <= 2)%nat; [|lia].
  apply Hjoin; [vm_compute; reflexivity | reflexivity | right; left].
Qed.

(** ** Defaults *)

Lemma sorted_distinct {A} (R R' : relation A) (l : list A) :
  (forall a b, R a b -> a <> b -> R' a b) ->
  StronglySorted R l -> NoDup l -> StronglySorted R' l.
Proof.
  intros HR. induction 1 as [|a l Hl IH Ha]; intros Hnd; [constructor|].
  apply NoDup_cons in Hnd as [Hfresh Hnd]. constructor; [now apply IH|].
  rewrite Forall_forall in Ha. apply Forall_forall. intros b Hb.
  apply HR; [now apply Ha|]. intros ->. contradiction.
Qed.

(** C10.  Without an injected options value, the life cycle registry has
    [parallel = true] and [groupsByOrder = ['server']], and the middleware
    registry has [parallel = false] and [phasesByOrder = []].  With these
    defaults the calls for the members of a life cycle group are all made at
    the instant the group is entered, and the middleware phases are sorted
    alphabetically. *)
Theorem registries_default_options :
  (forall ctx,
     Lifecycle.options (Lifecycle.new ctx None)
     = {| Lifecycle.groupsByOrder := ["server"];
          Lifecycle.parallel := Some true |}) /\
  (forall view,
     Middleware.options (Middleware.new view None)
     = {| Middleware.phasesByOrder := [];
          Middleware.parallel := Some false |}) /\
  (forall ctx g event w,
     let this := Lifecycle.new ctx None in
     Lifecycle.trace (Lifecycle.notifyObserverGroup this g event w).1
     = Lifecycle.trace w ++
       [{| Lifecycle.visit_event := event;
           Lifecycle.visit_group := Lifecycle.group g;
           Lifecycle.visit_calls :=
             map (Lifecycle.notifyObserver this event (Lifecycle.now w))
                 (Lifecycle.bindings g) |}]) /\
  (forall view input,
     StronglySorted (fun p q => JS.lt p q = true)
       (Middleware.phase <$>
          Middleware.sortMiddlewareBindingsByPhase (Middleware.new view None)
            input)).
Proof.
  split; [reflexivity|]. split; [reflexivity|]. split.
  - intros ctx g event w this. unfold Lifecycle.notifyObserverGroup. simpl.
    destruct (Promise.all _ _ _) as [t [e|]]; reflexivity.
  - intros view input.
    assert (NoDup (Middleware.phase <$>
                     Middleware.sortMiddlewareBindingsByPhase
                       (Middleware.new view None) input)) as Hnd.
    { unfold Middleware.sortMiddlewareBindingsByPhase. rewrite phases_of_fmap.
      eapply proj1, proj2. apply (sorted_groups Middleware.phase); reflexivity. }
    unfold Middleware.sortMiddlewareBindingsByPhase in *.
    eapply sorted_distinct; [| |exact Hnd].
    2: { apply (sorted_names Middleware.phase []
                  (Middleware.comparePhases (Middleware.new view None))).
         reflexivity. }
    intros p q Hpq Hne. unfold not_after in Hpq.
    assert (compareNames [] p q < 0) as Hlt.
    { destruct (Z.eq_dec (compareNames [] p q) 0) as [E|E]; [|lia].
      apply compareNames_zero in E. contradiction. }
    apply compareNames_neg in Hlt as [Hidx|[_ Hlex]]; [|exact Hlex].
    simpl in Hidx. lia.
Qed.

(** ** The registries on further scenarios *)

(** With priority list [x] and the groups [b] and [a], neither of which is
    listed, the order is alphabetical. *)
Example unlisted_groups_alphabetical :
  Lifecycle.group <$>
    Lifecycle.sortObserverBindingsByGroup Scenario.CoreTags
      (Scenario.registry (Scenario.healthy []) ["x"] true)
      [Scenario.F; Scenario.G]
  = ["a"; "b"].
Proof. vm_compute. reflexivity. Qed.

(** Middleware [M1] (phase [auth], path [/api]), [M2] (phase [auth]) and
    [M3] (phase [log]) with priority list [log, auth]: the phase [log] is
    mounted before the phase [auth], and in [auth] the handler of [M1],
    scoped to [/api], before that of [M2]. *)
Example router_of_three :
  Middleware.createExpressRouter
    (Scenario.middlewareRegistry
       [Scenario.M1; Scenario.M2; Scenario.M3] ["log"; "auth"])
    (inr ["h1"; "h2"; "h3"])
  = inr [[{| Middleware.path := None; Middleware.handle := Some "h3" |}];
         [{| Middleware.path := Some "/api"; Middleware.handle := Some "h1" |};
          {| Middleware.path := None; Middleware.handle := Some "h2" |}]].
Proof. vm_compute. reflexivity. Qed.

(** A parallel [start] in which [B] fails to start: [preStart] is joined at
    instant 6; the calls for [start] are made at 6 and the transition is
    rejected at 8, when the call for [B] is, while the call for [D] settles
    at 12. *)
Example parallel_start_rejected :
  Lifecycle.start Scenario.CoreTags
    (Scenario.registry
       (Scenario.failing [Scenario.B; Scenario.D]) ["server"] true)
    Scenario.idle
  = ({| Lifecycle.now := 8;
        Lifecycle.trace :=
          [{| Lifecycle.visit_event := "preStart";
              Lifecycle.visit_group := "server";
              Lifecycle.visit_calls :=
                [{| callee := "B"; called := 0; settled := 2; rejected := None |};
                 {| callee := "D"; called := 0; settled := 6; rejected := None |}] |};
           {| Lifecycle.visit_event := "start";
              Lifecycle.visit_group := "server";
              Lifecycle.visit_calls :=
                [{| callee := "B"; called := 6; settled := 8;
                    rejected := Some "B failed" |};
                 {| callee := "D"; called := 6; settled := 12;
                    rejected := None |}] |}] |},
     inl "B failed").
Proof. vm_compute. reflexivity. Qed.

(** With a handler for [M1] only, the assembly is rejected: the handler
    looked up for [M3], the first to be mounted, is [undefined]. *)
Example router_of_one_handler :
  Middleware.createExpressRouter
    (Scenario.middlewareRegistry
       [Scenario.M1; Scenario.M2; Scenario.M3] ["log"; "auth"])
    (inr ["h1"])
  = inl Middleware.TypeError.
Proof. vm_compute. reflexivity. Qed.

(** Two rejections at the same instant.  [D], called first, resolves at
    instant 1 and its [start] is rejected at instant 2; the key of [B] is
    rejected at instant 2.  The group is rejected with the rejection of
    [B], which has one [await] to pass where that of [D] has three. *)
Example rejections_at_the_same_instant :
  Lifecycle.notifyObserverGroup
    (Scenario.registry
       (Scenario.unresolved [Scenario.D; Scenario.B]) ["server"] true)
    {| Lifecycle.group := "server";
       Lifecycle.bindings := [Scenario.D; Scenario.B] |}
    "start" Scenario.idle
  = ({| Lifecycle.now := 2;
        Lifecycle.trace :=
          [{| Lifecycle.visit_event := "start";
              Lifecycle.visit_group := "server";
              Lifecycle.visit_calls :=
                [{| callee := "D"; called := 0; settled := 2;
                    rejected := Some "D failed" |};
                 {| callee := "B"; called := 0; settled := 2;
                    rejected := Some "B unresolved" |}] |}] |},
     inl "B unresolved").
Proof. vm_compute. reflexivity. Qed.

(** * Further properties of the registries *)

(** ** The groups cover the input *)

Section MapConcat.
Context {K V : Type} `{EqDecision K}.
Implicit Types (m : JS.Map K (list V)) (k : K).

Lemma Map_set_new m k (bs : list V) :
  JS.Map_get m k = None -> JS.Map_set m k bs = m ++ [(k, bs)].
Proof.
  induction m as [|[k0 bs0] m IH]; simpl; [reflexivity|].
  destruct (decide (k0 = k)); [discriminate|]. intros Hget. now rewrite IH.
Qed.

Lemma Map_set_push m k (bs : list V) (b : V) :
  JS.Map_get m k = Some bs ->
  JS.Map_set m k (bs ++ [b]) ≫= snd ≡ₚ (m ≫= snd) ++ [b].
Proof.
  induction m as [|[k0 bs0] m IH]; simpl; [discriminate|].
  destruct (decide (k0 = k)) as [->|Hne].
  - intros [= ->]. rewrite !bind_cons. simpl.
    rewrite <- !app_assoc. apply Permutation_app_head, Permutation_app_comm.
  - intros Hget. rewrite !bind_cons, IH by exact Hget. simpl.
    now rewrite app_assoc.
Qed.

End MapConcat.

Section Cover.
Variable classify : Binding -> string.

(** The entries of the map hold each binding of the input once. *)
Lemma group_by_cover (input : list Binding) :
  fold_left (group_add classify) input [] ≫= snd ≡ₚ input.
Proof.
  induction input as [|b input IH] using rev_ind; [reflexivity|].
  rewrite fold_left_app. simpl. unfold group_add at 1.
  destruct (JS.Map_get _ (classify b)) as [bs|] eqn:Hget.
  - rewrite Map_set_push by exact Hget. now rewrite IH.
  - rewrite Map_set_new by exact Hget. rewrite bind_app, IH. reflexivity.
Qed.

End Cover.

Section CoverSorted.
Context {A : Type} (name : A -> string) (members_of : A -> list Binding).
Context (mk : string * list Binding -> A).
Variables (classify : Binding -> string) (compare : A -> A -> Z).
Hypothesis name_mk : forall e, name (mk e) = e.1.
Hypothesis members_mk : forall e, members_of (mk e) = e.2.

Local Abbreviation sorted_of :=
  (fun input => JS.sort compare (mk <$> fold_left (group_add classify) input [])).

Lemma sorted_entry (input : list Binding) (a : A) :
  a ∈ sorted_of input ->
  members_of a <> [] /\ members_of a = members classify (name a) input.
Proof.
  rewrite (sort_perm compare). intros ([g bs] & -> & Hin)%list_elem_of_fmap.
  rewrite name_mk, members_mk. simpl. now apply group_by_entry.
Qed.

Lemma sorted_member (input : list Binding) (a : A) (b : Binding) :
  a ∈ sorted_of input -> b ∈ members_of a -> b ∈ input /\ classify b = name a.
Proof.
  intros Ha Hb. apply sorted_entry in Ha as [_ Hmem]. rewrite Hmem in Hb.
  apply list_elem_of_filter in Hb. tauto.
Qed.

Lemma sorted_cover (input : list Binding) :
  sorted_of input ≫= members_of ≡ₚ input.
Proof.
  rewrite (sort_perm compare). rewrite <- (group_by_cover classify input) at 2.
  generalize (fold_left (group_add classify) input []). intros m.
  induction m as [|e m IH]; [reflexivity|].
  rewrite fmap_cons, !bind_cons, IH, members_mk. reflexivity.
Qed.

End CoverSorted.

(** X1.  The sorters make no empty group and lose or duplicate no binding:
    every group of the result has a member, and the members of all groups
    together are the bindings of the input, each as often as the input has
    it. *)
Theorem groups_cover_the_input :
  (forall CoreTags this input,
     let sorted := Lifecycle.sortObserverBindingsByGroup CoreTags this input in
     Forall (fun g => Lifecycle.bindings g <> []) sorted /\
     sorted ≫= Lifecycle.bindings ≡ₚ input) /\
  (forall this input,
     let sorted := Middleware.sortMiddlewareBindingsByPhase this input in
     Forall (fun p => Middleware.bindings p <> []) sorted /\
     sorted ≫= Middleware.bindings ≡ₚ input).
Proof.
  split.
  - intros CoreTags this input sorted. subst sorted.
    unfold Lifecycle.sortObserverBindingsByGroup. rewrite groups_of_fmap. split.
    + apply Forall_forall. intros g Hg.
      eapply (sorted_entry Lifecycle.group Lifecycle.bindings) in Hg;
        [apply Hg | reflexivity..].
    + apply (sorted_cover Lifecycle.bindings). reflexivity.
  - intros this input sorted. subst sorted.
    unfold Middleware.sortMiddlewareBindingsByPhase. rewrite phases_of_fmap. split.
    + apply Forall_forall. intros g Hg.
      eapply (sorted_entry Middleware.phase Middleware.bindings) in Hg;
        [apply Hg | reflexivity..].
    + apply (sorted_cover Middleware.bindings). reflexivity.
Qed.

(** ** The order of the groups *)

Lemma lt_empty (x : string) : JS.lt x "" = false.
Proof. now destruct x. Qed.

Section IndexOfBounds.
Context {A : Type} `{EqDecision A}.

Lemma indexOf_upper (l : list A) (x : A) : JS.indexOf l x < Z.of_nat (length l).
Proof.
  induction l as [|y l IH]; simpl; [lia|].
  destruct (decide (y = x)); [lia|].
  destruct (Z.eqb_spec (JS.indexOf l x) (-1)); lia.
Qed.

Lemma indexOf_snoc_fresh (l : list A) (x : A) :
  x ∉ l -> JS.indexOf (l ++ [x]) x = Z.of_nat (length l).
Proof.
  induction l as [|y l IH]; simpl; intros Hx.
  - destruct (decide (x = x)); [reflexivity | congruence].
  - apply not_elem_of_cons in Hx as [Hne Hx].
    destruct (decide (y = x)); [congruence|]. rewrite IH by exact Hx.
    destruct (Z.eqb_spec (Z.of_nat (length l)) (-1)); lia.
Qed.

End IndexOfBounds.

Section SortedNames.
Variable order : list string.
Variable out : list string.
Hypothesis out_sorted : StronglySorted (not_after (compareNames order)) out.

(** An unlisted empty name is the first of the sorted names. *)
Lemma sorted_names_empty_first :
  "" ∈ out -> "" ∉ order -> head out = Some "".
Proof.
  intros Hin Hunlisted. destruct out_sorted as [|x l Hl Hx]; [inversion Hin|].
  simpl. f_equal. destruct (decide (x = "")) as [|Hne]; [done|]. exfalso.
  apply elem_of_cons in Hin as [Heq|Hin]; [congruence|].
  rewrite Forall_forall in Hx. specialize (Hx _ Hin). unfold not_after in Hx.
  assert (compareNames order x "" < 0) as Hlt.
  { destruct (Z.eq_dec (compareNames order x "") 0) as [E|E]; [|lia].
    apply compareNames_zero in E. contradiction. }
  apply compareNames_neg in Hlt as [Hidx|[_ Hlex]].
  - apply indexOf_absent in Hunlisted. pose proof (indexOf_lower order x). lia.
  - now rewrite lt_empty in Hlex.
Qed.

(** A listed name whose index no other name exceeds is the last one. *)
Lemma sorted_names_last (g : string) :
  g ∈ out -> 0 <= JS.indexOf order g ->
  (forall x, x ∈ out -> JS.indexOf order x <= JS.indexOf order g) ->
  last out = Some g.
Proof.
  intros Hin Hlisted Hmax.
  assert (exists l x0, out = l ++ [x0]) as (l & x0 & Hout).
  { destruct (last out) as [x0|] eqn:E.
    - apply last_Some in E as [l ->]. eauto.
    - apply last_None in E. rewrite E in Hin. inversion Hin. }
  pose proof out_sorted as Hsorted. rewrite Hout in Hsorted, Hin, Hmax |- *.
  rewrite last_snoc. f_equal.
  destruct (decide (x0 = g)) as [|Hne]; [done|]. exfalso.
  apply elem_of_app in Hin as [Hin|Hin];
    [|apply list_elem_of_singleton in Hin; congruence].
  assert (not_after (compareNames order) g x0) as Hgx.
  { eapply StronglySorted_app_1_elem_of; [exact Hsorted | exact Hin | left]. }
  unfold not_after in Hgx.
  assert (compareNames order g x0 < 0) as Hlt.
  { destruct (Z.eq_dec (compareNames order g x0) 0) as [E|E]; [|lia].
    apply compareNames_zero in E. congruence. }
  assert (JS.indexOf order x0 <= JS.indexOf order g) as Hx0
    by (apply Hmax, elem_of_app; right; left).
  apply compareNames_neg in Hlt as [Hidx|[Heq _]]; [lia|].
  apply Hne. symmetry. now apply (indexOf_inj order g x0).
Qed.

End SortedNames.

(** Two sorted arrangements of the same names are equal. *)
Lemma sorted_names_unique (order out out' : list string) :
  StronglySorted (not_after (compareNames order)) out ->
  StronglySorted (not_after (compareNames order)) out' ->
  NoDup out -> NoDup out' -> (forall g, g ∈ out <-> g ∈ out') -> out = out'.
Proof.
  intros Hs Hs' Hnd Hnd' Hsame.
  apply (StronglySorted_unique_strong (not_after (compareNames order))); auto.
  - intros a b _ _. apply not_after_names_antisym.
  - now apply NoDup_Permutation.
Qed.

(** X2.  Bindings without a group come first: when the empty name is not in
    the priority list and some binding of the input is classified as [""],
    the group [""] is the first of the sorted groups, in both registries. *)
Theorem ungrouped_bindings_come_first :
  (forall CoreTags this input,
     "" ∉ Lifecycle.groupsByOrder (Lifecycle.options this) ->
     (exists b, b ∈ input /\ Lifecycle.getObserverGroup CoreTags this b = "") ->
     head (Lifecycle.group <$>
             Lifecycle.sortObserverBindingsByGroup CoreTags this input)
     = Some "") /\
  (forall this input,
     "" ∉ Middleware.phasesByOrder (Middleware.options this) ->
     (exists b, b ∈ input /\ Middleware.getMiddlewarePhase b = "") ->
     head (Middleware.phase <$>
             Middleware.sortMiddlewareBindingsByPhase this input)
     = Some "").
Proof.
  split.
  - intros CoreTags this input Hunlisted Hsome.
    unfold Lifecycle.sortObserverBindingsByGroup. rewrite groups_of_fmap.
    apply (sorted_names_empty_first
             (Lifecycle.groupsByOrder (Lifecycle.options this))); auto.
    + apply (sorted_names Lifecycle.group). reflexivity.
    + eapply (sorted_groups Lifecycle.group); [reflexivity.. | exact Hsome].
  - intros this input Hunlisted Hsome.
    unfold Middleware.sortMiddlewareBindingsByPhase. rewrite phases_of_fmap.
    apply (sorted_names_empty_first
             (Middleware.phasesByOrder (Middleware.options this))); auto.
    + apply (sorted_names Middleware.phase). reflexivity.
    + eapply (sorted_groups Middleware.phase); [reflexivity.. | exact Hsome].
Qed.

(** [C], which has no group, leads the scenario; [M4] has no phase. *)
Lemma ungrouped_bindings_come_first_witness :
  head (Lifecycle.group <$>
          Lifecycle.sortObserverBindingsByGroup Scenario.CoreTags
            (Scenario.registry (Scenario.healthy []) ["db"; "server"] true)
            [Scenario.A; Scenario.B; Scenario.C])
  = Some "" /\
  head (Middleware.phase <$>
          Middleware.sortMiddlewareBindingsByPhase
            (Scenario.middlewareRegistry [] ["log"; "auth"])
            [Scenario.M1; Scenario.M4])
  = Some "".
Proof.
  split.
  - apply (proj1 ungrouped_bindings_come_first).
    + compute_done.
    + exists Scenario.C. split; [compute_done | vm_compute; reflexivity].
  - apply (proj2 ungrouped_bindings_come_first).
    + compute_done.
    + exists Scenario.M4. split; [compute_done | vm_compute; reflexivity].
Defined.

(** X3.  The group listed last is started last and stopped first: for a
    priority list without duplicates, the group named by its last entry,
    when some binding is in it, is the last of the groups [start] goes
    through and the first of those [stop] goes through. *)
Theorem last_listed_group_starts_last :
  forall CoreTags this g,
    NoDup (Lifecycle.groupsByOrder (Lifecycle.options this)) ->
    last (Lifecycle.groupsByOrder (Lifecycle.options this)) = Some g ->
    (exists b, b ∈ Lifecycle.findObserverBindings CoreTags this /\
               Lifecycle.getObserverGroup CoreTags this b = g) ->
    last (Lifecycle.group <$> Lifecycle.getObserverGroupsByOrder CoreTags this)
    = Some g /\
    head (Lifecycle.group <$> rev (Lifecycle.getObserverGroupsByOrder CoreTags this))
    = Some g.
Proof.
  intros CoreTags this g Hnd Hlast Hsome.
  set (order := Lifecycle.groupsByOrder (Lifecycle.options this)) in *.
  set (groups := Lifecycle.getObserverGroupsByOrder CoreTags this).
  assert (last (Lifecycle.group <$> groups) = Some g) as Hg.
  { apply last_Some in Hlast as [l Horder]. rewrite Horder in Hnd.
    apply NoDup_app in Hnd as (_ & Hfresh & _).
    assert (g ∉ l) as Hgl by (intros Hin; apply (Hfresh g Hin); left).
    assert (JS.indexOf order g = Z.of_nat (length l)) as Hidx
      by (rewrite Horder; now apply indexOf_snoc_fresh).
    subst groups. unfold Lifecycle.getObserverGroupsByOrder,
      Lifecycle.sortObserverBindingsByGroup. rewrite groups_of_fmap.
    apply (sorted_names_last order).
    - apply (sorted_names Lifecycle.group). reflexivity.
    - eapply (sorted_groups Lifecycle.group); [reflexivity.. | exact Hsome].
    - lia.
    - intros x _. pose proof (indexOf_upper order x) as Hup.
      assert (length order = S (length l)) as Hlen
        by (rewrite Horder, length_app; simpl; lia).
      lia. }
  split; [exact Hg|].
  rewrite fmap_last in Hg.
  destruct (last groups) as [lg|] eqn:Hlg; [|discriminate].
  injection Hg as Hg. apply last_Some in Hlg as [gs ->].
  rewrite rev_unit. simpl. now rewrite Hg.
Qed.

(** With the default options and [B] in the group [server], [server] is
    started last. *)
Lemma last_listed_group_starts_last_witness :
  last (Lifecycle.group <$>
          Lifecycle.getObserverGroupsByOrder Scenario.CoreTags
            (Lifecycle.new
               (Scenario.healthy [Scenario.B; Scenario.A; Scenario.C]) None))
  = Some "server" /\
  head (Lifecycle.group <$>
          rev (Lifecycle.getObserverGroupsByOrder Scenario.CoreTags
                 (Lifecycle.new
                    (Scenario.healthy [Scenario.B; Scenario.A; Scenario.C]) None)))
  = Some "server".
Proof.
  apply (last_listed_group_starts_last Scenario.CoreTags
           (Lifecycle.new
              (Scenario.healthy [Scenario.B; Scenario.A; Scenario.C]) None)
           "server").
  - apply NoDup_singleton.
  - reflexivity.
  - exists Scenario.B. split; [compute_done | vm_compute; reflexivity].
Defined.

Section OrderOfNames.
Context {A : Type} (name : A -> string) (mk : string * list Binding -> A).
Variables (classify : Binding -> string) (order : list string).
Variable compare : A -> A -> Z.
Hypothesis compare_names :
  forall a b, compare a b = compareNames order (name a) (name b).
Hypothesis name_mk : forall e, name (mk e) = e.1.

Lemma sorted_names_of_permutation (input input' : list Binding) :
  input ≡ₚ input' ->
  name <$> JS.sort compare (mk <$> fold_left (group_add classify) input [])
  = name <$> JS.sort compare (mk <$> fold_left (group_add classify) input' []).
Proof.
  intros Hperm.
  destruct (sorted_groups name mk classify order compare compare_names name_mk
              input) as (_ & Hnd & Hin & _).
  destruct (sorted_groups name mk classify order compare compare_names name_mk
              input') as (_ & Hnd' & Hin' & _).
  apply (sorted_names_unique order); auto.
  - now apply sorted_names.
  - now apply sorted_names.
  - intros g. rewrite Hin, Hin'. now setoid_rewrite Hperm.
Qed.

End OrderOfNames.

(** X4.  The order of the groups does not depend on the order of
    registration: two inputs with the same bindings, registered in any
    order, give the same sequence of group names, in both registries.
    (The order of registration shows in the order of the members only.) *)
Theorem group_order_ignores_registration_order :
  (forall CoreTags this input input',
     input ≡ₚ input' ->
     Lifecycle.group <$> Lifecycle.sortObserverBindingsByGroup CoreTags this input
     = Lifecycle.group <$> Lifecycle.sortObserverBindingsByGroup CoreTags this input') /\
  (forall this input input',
     input ≡ₚ input' ->
     Middleware.phase <$> Middleware.sortMiddlewareBindingsByPhase this input
     = Middleware.phase <$> Middleware.sortMiddlewareBindingsByPhase this input').
Proof.
  split.
  - intros CoreTags this input input' Hperm.
    unfold Lifecycle.sortObserverBindingsByGroup. rewrite !groups_of_fmap.
    now apply (sorted_names_of_permutation Lifecycle.group _ _
                 (Lifecycle.groupsByOrder (Lifecycle.options this))).
  - intros this input input' Hperm.
    unfold Middleware.sortMiddlewareBindingsByPhase. rewrite !phases_of_fmap.
    now apply (sorted_names_of_permutation Middleware.phase _ _
                 (Middleware.phasesByOrder (Middleware.options this))).
Qed.

(** [A], [B], [C] registered in two orders. *)
Lemma group_order_ignores_registration_order_witness :
  Lifecycle.group <$>
    Lifecycle.sortObserverBindingsByGroup Scenario.CoreTags
      (Scenario.registry (Scenario.healthy []) ["db"; "server"] true)
      [Scenario.A; Scenario.B; Scenario.C]
  = Lifecycle.group <$>
      Lifecycle.sortObserverBindingsByGroup Scenario.CoreTags
        (Scenario.registry (Scenario.healthy []) ["db"; "server"] true)
        [Scenario.B; Scenario.A; Scenario.C].
Proof.
  apply (proj1 group_order_ignores_registration_order).
  apply perm_swap.
Defined.

(** ** The calls of a transition *)

Section CallFacts.
Variable this : Lifecycle.LifeCycleObserverRegistry.

Local Abbreviation call := (Lifecycle.notifyObserver this).

(** A call is rejected exactly with a failure of the observer. *)
Lemma notifyObserver_rejected event t b e :
  rejected (call event t b) = Some e
  <-> fails_with (Lifecycle.ctx this) e event b.
Proof.
  unfold Lifecycle.notifyObserver, Lifecycle.invokeObserver, fails_with.
  destruct (Lifecycle.instance _) as [e'|observer]; simpl.
  - split; [intros [= ->]; now left|].
    intros [[= ->]|(o & m & Ho & _)]; [reflexivity | discriminate].
  - destruct (observer !! event) as [m|] eqn:Hm; simpl.
    + split; [intros He; right; now exists observer, m|].
      intros [Hl|(o & m' & [= <-] & Hm' & He)]; [discriminate|].
      congruence.
    + split; [discriminate|].
      intros [Hl|(o & m' & [= <-] & Hm' & _)]; [discriminate | congruence].
Qed.

Lemma notifyObserver_dependable event t b :
  dependable (Lifecycle.ctx this) b -> rejected (call event t b) = None.
Proof.
  intros (observer & Hres & Hok).
  destruct (rejected (call event t b)) as [e|] eqn:He; [|reflexivity].
  apply notifyObserver_rejected in He as [Hl|(o & m & Ho & Hm & Hf)].
  - congruence.
  - rewrite Hres in Ho. injection Ho as <-. rewrite (Hok _ _ Hm) in Hf.
    discriminate.
Qed.

(** The calls made in turn: each is a call for a member, made no earlier
    than the loop is entered; the loop ends no earlier than it starts, and
    when it is fulfilled every call has settled by then. *)
Lemma notifyInTurn_from event bs : forall t calls t' r,
  Lifecycle.notifyInTurn this event t bs = (calls, t', r) ->
  (t <= t')%nat /\
  (forall c, c ∈ calls ->
     exists t0 b, (t <= t0)%nat /\ b ∈ bs /\ c = call event t0 b) /\
  (r = None -> forall c, c ∈ calls -> (settled c <= t')%nat).
Proof.
  induction bs as [|b bs IH]; intros t calls t' r; cbn [Lifecycle.notifyInTurn].
  - intros [= <- <- <-]. split; [lia|]. split; intros; exfalso;
      eapply not_elem_of_nil; eauto.
  - pose proof (notifyObserver_settled this event t b) as Hb.
    destruct (rejected (call event t b)) as [e|] eqn:Hrej.
    + intros [= <- <- <-]. split; [exact Hb|]. split; [|discriminate].
      intros c Hc. apply list_elem_of_singleton in Hc as ->.
      exists t, b. split; [lia|]. split; [left | reflexivity].
    + destruct (Lifecycle.notifyInTurn this event _ bs) as [[cs t1] r1] eqn:Hrest.
      intros [= <- <- <-]. destruct (IH _ _ _ _ Hrest) as (Hle & Hcalls & Hdone).
      split; [lia|]. split.
      * intros c Hc. apply elem_of_cons in Hc as [->|Hc].
        -- exists t, b. split; [lia|]. split; [left | reflexivity].
        -- destruct (Hcalls c Hc) as (t0 & b0 & Ht0 & Hb0 & ->).
           exists t0, b0. split; [lia|]. split; [now right | reflexivity].
      * intros Hr c Hc. apply elem_of_cons in Hc as [->|Hc]; [lia|].
        now apply Hdone.
Qed.

(** One execution of [notifyObserverGroup]. *)
Lemma notifyObserverGroup_calls g event w w' r :
  Lifecycle.notifyObserverGroup this g event w = (w', r) ->
  exists v,
    Lifecycle.trace w' = Lifecycle.trace w ++ [v] /\
    Lifecycle.visit_event v = event /\
    (Lifecycle.now w <= Lifecycle.now w')%nat /\
    (forall c, c ∈ Lifecycle.visit_calls v ->
       exists t b, (Lifecycle.now w <= t)%nat /\ b ∈ Lifecycle.bindings g /\
                   c = call event t b) /\
    (r = inr tt ->
     forall c, c ∈ Lifecycle.visit_calls v -> (settled c <= Lifecycle.now w')%nat) /\
    (forall e, r = inl e ->
       exists c, c ∈ Lifecycle.visit_calls v /\ rejected c = Some e).
Proof.
  unfold Lifecycle.notifyObserverGroup.
  destruct (JS.truthy_bool _).
  - assert (forall c,
              c ∈ map (call event (Lifecycle.now w)) (Lifecycle.bindings g) ->
              exists t b, (Lifecycle.now w <= t)%nat /\
                          b ∈ Lifecycle.bindings g /\ c = call event t b)
      as Hcalls.
    { intros c Hc. apply list_elem_of_In, in_map_iff in Hc as (b & <- & Hb).
      exists (Lifecycle.now w), b. split; [lia|]. split; [|reflexivity].
      now apply list_elem_of_In. }
    unfold Promise.all.
    destruct (Promise.first_rejected _ _) as [c0|] eqn:Hfirst.
    + apply first_rejected_Some in Hfirst as (Hin & Hrej & _).
      destruct (rejected c0) as [e0|] eqn:Hc0; [|congruence].
      intros [= <- <-]. eexists. split; [reflexivity|]. simpl.
      split; [reflexivity|]. split; [lia|]. split; [exact Hcalls|].
      split; [discriminate|]. intros e [= <-]. eauto.
    + intros [= <- <-]. eexists. split; [reflexivity|]. simpl.
      split; [reflexivity|]. split.
      { clear. induction (map _ _) as [|c cs IH]; simpl; lia. }
      split; [exact Hcalls|]. split; [|discriminate].
      intros _ c Hc. now apply all_settled_bound.
  - destruct (Lifecycle.notifyInTurn _ _ _ _) as [[calls t] r0] eqn:Hturn.
    pose proof (notifyInTurn_calls _ _ _ _ _ _ _ Hturn) as Hlast.
    apply notifyInTurn_from in Hturn as (Hle & Hcalls & Hdone).
    destruct r0 as [e0|]; intros [= <- <-]; eexists;
      (split; [reflexivity|]); simpl; (split; [reflexivity|]);
      (split; [exact Hle|]); (split; [exact Hcalls|]).
    + split; [discriminate|]. intros e [= <-].
      destruct Hlast as [(c & Hc & Hrej & _) _]. exists c. split; [|exact Hrej].
      apply last_Some in Hc as [l' ->]. apply elem_of_app. right. left.
    + split; [|discriminate]. intros _. now apply Hdone.
Qed.

(** What a sequence of steps adds to the trace, with its instants. *)
Lemma steps_calls steps : forall w w' r,
  Lifecycle.for_of steps
    (fun step => Lifecycle.notifyObserverGroup this step.2 step.1) w = (w', r) ->
  exists visits,
    Lifecycle.trace w' = Lifecycle.trace w ++ visits /\
    (Lifecycle.now w <= Lifecycle.now w')%nat /\
    (forall v c, v ∈ visits -> c ∈ Lifecycle.visit_calls v ->
       exists g t b,
         (Lifecycle.visit_event v, g) ∈ steps /\ (Lifecycle.now w <= t)%nat /\
         b ∈ Lifecycle.bindings g /\ c = call (Lifecycle.visit_event v) t b) /\
    (forall (i j : nat) v v' c c',
       visits !! i = Some v -> visits !! j = Some v' -> (i < j)%nat ->
       c ∈ Lifecycle.visit_calls v -> c' ∈ Lifecycle.visit_calls v' ->
       (settled c <= called c')%nat) /\
    (r = inr tt ->
     forall v c, v ∈ visits -> c ∈ Lifecycle.visit_calls v ->
                 (settled c <= Lifecycle.now w')%nat) /\
    (forall e, r = inl e ->
       exists v c, v ∈ visits /\ c ∈ Lifecycle.visit_calls v /\
                   rejected c = Some e).
Proof.
  induction steps as [|[event g] steps IH]; intros w w' r.
  - intros [= <- <-]. exists []. rewrite app_nil_r.
    split; [reflexivity|]. split; [lia|].
    repeat split; try discriminate;
      intros; exfalso; eapply not_elem_of_nil; eauto.
  - cbn [Lifecycle.for_of]. unfold Lifecycle.await. simpl.
    destruct (Lifecycle.notifyObserverGroup this g event w) as [w1 r1] eqn:Hg.
    apply notifyObserverGroup_calls in Hg
      as (v0 & Ht0 & Hev0 & Hle0 & Hcalls0 & Hdone0 & Hrej0).
    assert (forall c, c ∈ Lifecycle.visit_calls v0 ->
              exists g0 t b,
                (Lifecycle.visit_event v0, g0) ∈ (event, g) :: steps /\
                (Lifecycle.now w <= t)%nat /\ b ∈ Lifecycle.bindings g0 /\
                c = call (Lifecycle.visit_event v0) t b) as Hfirst.
    { intros c Hc. destruct (Hcalls0 c Hc) as (t & b & Ht & Hb & ->).
      exists g, t, b. rewrite Hev0. repeat split; auto. left. }
    destruct r1 as [e1|[]].
    + intros [= <- <-]. exists [v0]. split; [exact Ht0|]. split; [exact Hle0|].
      split; [|split; [|split; [discriminate|]]].
      * intros v c Hv Hc. apply list_elem_of_singleton in Hv as ->. auto.
      * intros i j v v' c c' Hi Hj Hij.
        apply lookup_lt_Some in Hj. simpl in Hj. lia.
      * intros e [= <-]. destruct (Hrej0 e1 eq_refl) as (c & Hc & He).
        exists v0, c. split; [left | auto].
    + intros Hrest. apply IH in Hrest
        as (visits & Ht & Hle & Hcalls & Hord & Hdone & Hrej).
      exists (v0 :: visits). split.
      { rewrite Ht, Ht0, <- app_assoc. reflexivity. }
      split; [lia|]. split; [|split; [|split]].
      * intros v c Hv Hc. apply elem_of_cons in Hv as [->|Hv]; [auto|].
        destruct (Hcalls v c Hv Hc) as (g0 & t & b & Hin & Htw & Hb & ->).
        exists g0, t, b. repeat split; auto; [now right | lia].
      * intros i j v v' c c' Hi Hj Hij Hc Hc'.
        destruct j as [|j]; [lia|]. simpl in Hj.
        assert (v' ∈ visits) as Hv' by (eapply list_elem_of_lookup_2; eauto).
        destruct i as [|i]; simpl in Hi.
        -- injection Hi as <-.
           destruct (Hcalls v' c' Hv' Hc') as (g0 & t & b & _ & Htw & _ & ->).
           rewrite notifyObserver_called.
           specialize (Hdone0 eq_refl c Hc). lia.
        -- apply (Hord i j v v' c c'); auto. lia.
      * intros Hr v c Hv Hc. apply elem_of_cons in Hv as [->|Hv].
        -- specialize (Hdone0 eq_refl c Hc). lia.
        -- now apply (Hdone Hr v).
      * intros e He. destruct (Hrej e He) as (v & c & Hv & Hc & Hc').
        exists v, c. split; [now right | auto].
Qed.

End CallFacts.

(** ** Transitions as a whole *)

Lemma schedule_elem {G} (events : list string) (groups : list G) e g :
  (e, g) ∈ schedule events groups <-> e ∈ events /\ g ∈ groups.
Proof.
  unfold schedule. rewrite list_elem_of_bind. split.
  - intros (event & Hin & Hevent).
    apply list_elem_of_fmap in Hin as (g' & [= -> ->] & Hg). now split.
  - intros [He Hg]. exists e. split; [|exact He].
    apply list_elem_of_fmap. now exists g.
Qed.

Lemma elem_of_rev {A} (l : list A) (x : A) : x ∈ rev l <-> x ∈ l.
Proof. rewrite !list_elem_of_In. symmetry. apply in_rev. Qed.

Section Transitions.
Variable CoreTags : CoreTagNames.
Variable this : Lifecycle.LifeCycleObserverRegistry.

Local Abbreviation found := (Lifecycle.findObserverBindings CoreTags this).
Local Abbreviation ordered := (Lifecycle.getObserverGroupsByOrder CoreTags this).

Lemma found_eligible (b : Binding) :
  b ∈ found <->
  b ∈ Lifecycle.registered (Lifecycle.ctx this) /\ eligible CoreTags b.
Proof.
  unfold Lifecycle.findObserverBindings, eligible.
  rewrite !list_elem_of_In, filter_In, andb_true_iff, orb_true_iff,
    !bool_decide_eq_true. tauto.
Qed.

(** The members of the ordered groups are bindings that were found. *)
Lemma ordered_member (g : Lifecycle.LifeCycleObserverGroup) (b : Binding) :
  g ∈ ordered -> b ∈ Lifecycle.bindings g ->
  b ∈ found /\ Lifecycle.getObserverGroup CoreTags this b = Lifecycle.group g.
Proof.
  unfold Lifecycle.getObserverGroupsByOrder,
    Lifecycle.sortObserverBindingsByGroup. rewrite groups_of_fmap.
  apply (sorted_member Lifecycle.group Lifecycle.bindings); reflexivity.
Qed.

(** Every run over the ordered groups or over their reverse. *)
Lemma transition_calls events groups w w' r :
  (forall g, g ∈ groups -> g ∈ ordered) ->
  Lifecycle.notifyGroups this events groups w = (w', r) ->
  exists visits,
    Lifecycle.trace w' = Lifecycle.trace w ++ visits /\
    (Lifecycle.now w <= Lifecycle.now w')%nat /\
    (forall v c, v ∈ visits -> c ∈ Lifecycle.visit_calls v ->
       exists t b,
         Lifecycle.visit_event v ∈ events /\ b ∈ found /\
         c = Lifecycle.notifyObserver this (Lifecycle.visit_event v) t b) /\
    (forall (i j : nat) v v' c c',
       visits !! i = Some v -> visits !! j = Some v' -> (i < j)%nat ->
       c ∈ Lifecycle.visit_calls v -> c' ∈ Lifecycle.visit_calls v' ->
       (settled c <= called c')%nat) /\
    (forall e, r = inl e ->
       exists v c, v ∈ visits /\ c ∈ Lifecycle.visit_calls v /\
                   rejected c = Some e).
Proof.
  intros Hgroups. rewrite notifyGroups_schedule. intros Hrun.
  apply steps_calls in Hrun as (visits & Ht & Hle & Hcalls & Hord & _ & Hrej).
  exists visits. repeat split; auto.
  intros v c Hv Hc. destruct (Hcalls v c Hv Hc) as (g & t & b & Hin & _ & Hb & ->).
  apply schedule_elem in Hin as [Hev Hg].
  exists t, b. repeat split; auto.
  now apply (ordered_member g b); [apply Hgroups|].
Qed.

Lemma start_calls w w' r :
  Lifecycle.start CoreTags this w = (w', r) ->
  exists visits,
    Lifecycle.trace w' = Lifecycle.trace w ++ visits /\
    (Lifecycle.now w <= Lifecycle.now w')%nat /\
    (forall v c, v ∈ visits -> c ∈ Lifecycle.visit_calls v ->
       exists t b,
         Lifecycle.visit_event v ∈ ["preStart"; "start"; "postStart"] /\
         b ∈ found /\
         c = Lifecycle.notifyObserver this (Lifecycle.visit_event v) t b) /\
    (forall (i j : nat) v v' c c',
       visits !! i = Some v -> visits !! j = Some v' -> (i < j)%nat ->
       c ∈ Lifecycle.visit_calls v -> c' ∈ Lifecycle.visit_calls v' ->
       (settled c <= called c')%nat) /\
    (forall e, r = inl e ->
       exists v c, v ∈ visits /\ c ∈ Lifecycle.visit_calls v /\
                   rejected c = Some e).
Proof. apply transition_calls. auto. Qed.

Lemma stop_calls w w' r :
  Lifecycle.stop CoreTags this w = (w', r) ->
  exists visits,
    Lifecycle.trace w' = Lifecycle.trace w ++ visits /\
    (Lifecycle.now w <= Lifecycle.now w')%nat /\
    (forall v c, v ∈ visits -> c ∈ Lifecycle.visit_calls v ->
       exists t b,
         Lifecycle.visit_event v ∈ ["preStop"; "stop"; "postStop"] /\
         b ∈ found /\
         c = Lifecycle.notifyObserver this (Lifecycle.visit_event v) t b) /\
    (forall (i j : nat) v v' c c',
       visits !! i = Some v -> visits !! j = Some v' -> (i < j)%nat ->
       c ∈ Lifecycle.visit_calls v -> c' ∈ Lifecycle.visit_calls v' ->
       (settled c <= called c')%nat) /\
    (forall e, r = inl e ->
       exists v c, v ∈ visits /\ c ∈ Lifecycle.visit_calls v /\
                   rejected c = Some e).
Proof. apply transition_calls. intros g. apply elem_of_rev. Qed.

End Transitions.

(** X5.  Groups never overlap: in every run of [start] or [stop], whatever
    its outcome, every call made for a group has settled before any call
    for a group visited later is made; the clock never runs backwards and
    the trace only grows. *)
Theorem groups_never_overlap :
  forall CoreTags this w w' r,
    Lifecycle.start CoreTags this w = (w', r) \/
    Lifecycle.stop CoreTags this w = (w', r) ->
    exists visits,
      Lifecycle.trace w' = Lifecycle.trace w ++ visits /\
      (Lifecycle.now w <= Lifecycle.now w')%nat /\
      forall (i j : nat) v v' c c',
        visits !! i = Some v -> visits !! j = Some v' -> (i < j)%nat ->
        c ∈ Lifecycle.visit_calls v -> c' ∈ Lifecycle.visit_calls v' ->
        (settled c <= called c')%nat.
Proof.
  intros CoreTags this w w' r [Hrun|Hrun];
    [apply start_calls in Hrun | apply stop_calls in Hrun];
    destruct Hrun as (visits & Ht & Hle & _ & Hord & _);
    exists visits; auto.
Qed.

(** A parallel [start] of the scenario. *)
Lemma groups_never_overlap_witness :
  exists visits,
    Lifecycle.trace
      (Lifecycle.start Scenario.CoreTags
         (Scenario.registry
            (Scenario.failing [Scenario.A; Scenario.B; Scenario.D])
            ["db"; "server"] true)
         Scenario.idle).1
    = Lifecycle.trace Scenario.idle ++ visits /\
    (Lifecycle.now Scenario.idle
     <= Lifecycle.now
          (Lifecycle.start Scenario.CoreTags
             (Scenario.registry
                (Scenario.failing [Scenario.A; Scenario.B; Scenario.D])
                ["db"; "server"] true)
             Scenario.idle).1)%nat /\
    forall (i j : nat) v v' c c',
      visits !! i = Some v -> visits !! j = Some v' -> (i < j)%nat ->
      c ∈ Lifecycle.visit_calls v -> c' ∈ Lifecycle.visit_calls v' ->
      (settled c <= called c')%nat.
Proof.
  apply (groups_never_overlap Scenario.CoreTags
           (Scenario.registry
              (Scenario.failing [Scenario.A; Scenario.B; Scenario.D])
              ["db"; "server"] true)
           Scenario.idle _ (inl "B failed")).
  left. vm_compute. reflexivity.
Defined.

(** X6.  Only eligible bindings are notified: in every run of [start] or
    [stop], every call is made for a binding registered in the context that
    is a constant or a singleton and carries the observer tag.  A transient
    binding that is not a constant, or one without the tag, is never
    called. *)
Theorem only_eligible_bindings_are_notified :
  forall CoreTags this w w' r,
    Lifecycle.start CoreTags this w = (w', r) \/
    Lifecycle.stop CoreTags this w = (w', r) ->
    exists visits,
      Lifecycle.trace w' = Lifecycle.trace w ++ visits /\
      forall v c, v ∈ visits -> c ∈ Lifecycle.visit_calls v ->
        exists b,
          b ∈ Lifecycle.registered (Lifecycle.ctx this) /\
          eligible CoreTags b /\ callee c = key b.
Proof.
  intros CoreTags this w w' r [Hrun|Hrun];
    [apply start_calls in Hrun | apply stop_calls in Hrun];
    destruct Hrun as (visits & Ht & _ & Hcalls & _);
    exists visits; (split; [exact Ht|]); intros v c Hv Hc;
    destruct (Hcalls v c Hv Hc) as (t & b & _ & Hb & ->);
    apply found_eligible in Hb as [Hreg Hel];
    exists b; rewrite notifyObserver_callee; auto.
Qed.

(** A [stop] of the scenario. *)
Lemma only_eligible_bindings_are_notified_witness :
  exists visits,
    Lifecycle.trace
      (Lifecycle.stop Scenario.CoreTags
         (Scenario.registry
            (Scenario.healthy [Scenario.A; Scenario.M1; Scenario.C])
            ["db"; "server"] false)
         Scenario.idle).1
    = Lifecycle.trace Scenario.idle ++ visits /\
    forall v c, v ∈ visits -> c ∈ Lifecycle.visit_calls v ->
      exists b,
        b ∈ [Scenario.A; Scenario.M1; Scenario.C] /\
        eligible Scenario.CoreTags b /\ callee c = key b.
Proof.
  apply (only_eligible_bindings_are_notified Scenario.CoreTags
           (Scenario.registry
              (Scenario.healthy [Scenario.A; Scenario.M1; Scenario.C])
              ["db"; "server"] false)
           Scenario.idle _ (inr tt)).
  right. vm_compute. reflexivity.
Defined.

(** X7.  A rejection always comes from an observer: when [start] or [stop]
    is rejected with [e], some binding found by [findObserverBindings]
    failed with [e] at one of the sub-events of the transition, either when
    its key was resolved or in its method for that sub-event. *)
Theorem rejection_comes_from_an_observer :
  forall CoreTags this w w' e,
    (Lifecycle.start CoreTags this w = (w', inl e) ->
     exists b event,
       b ∈ Lifecycle.findObserverBindings CoreTags this /\
       event ∈ ["preStart"; "start"; "postStart"] /\
       fails_with (Lifecycle.ctx this) e event b) /\
    (Lifecycle.stop CoreTags this w = (w', inl e) ->
     exists b event,
       b ∈ Lifecycle.findObserverBindings CoreTags this /\
       event ∈ ["preStop"; "stop"; "postStop"] /\
       fails_with (Lifecycle.ctx this) e event b).
Proof.
  intros CoreTags this w w' e. split; intros Hrun;
    [apply start_calls in Hrun | apply stop_calls in Hrun];
    destruct Hrun as (visits & _ & _ & Hcalls & _ & Hrej);
    destruct (Hrej e eq_refl) as (v & c & Hv & Hc & He);
    destruct (Hcalls v c Hv Hc) as (t & b & Hev & Hb & ->);
    exists b, (Lifecycle.visit_event v); repeat split; auto;
    now apply notifyObserver_rejected in He.
Qed.

(** The [start] in which the method [start] of [B] fails. *)
Lemma rejection_comes_from_an_observer_witness :
  exists b event,
    b ∈ Lifecycle.findObserverBindings Scenario.CoreTags
          (Scenario.registry
             (Scenario.failing [Scenario.A; Scenario.B; Scenario.C])
             ["db"; "server"] true) /\
    event ∈ ["preStart"; "start"; "postStart"] /\
    fails_with (Scenario.failing [Scenario.A; Scenario.B; Scenario.C])
      "B failed" event b.
Proof.
  apply (proj1 (rejection_comes_from_an_observer Scenario.CoreTags
                  (Scenario.registry
                     (Scenario.failing [Scenario.A; Scenario.B; Scenario.C])
                     ["db"; "server"] true)
                  Scenario.idle
                  (Lifecycle.start Scenario.CoreTags
                     (Scenario.registry
                        (Scenario.failing [Scenario.A; Scenario.B; Scenario.C])
                        ["db"; "server"] true)
                     Scenario.idle).1
                  "B failed")).
  vm_compute. reflexivity.
Defined.

(** X8.  Dependable observers always start and stop: when every binding
    found by [findObserverBindings] resolves and none of the methods its
    observer implements fails, [start] and [stop] are fulfilled, from every
    world.  An observer may lack any of the six methods. *)
Theorem dependable_observers_start_and_stop :
  forall CoreTags this,
    (forall b, b ∈ Lifecycle.findObserverBindings CoreTags this ->
               dependable (Lifecycle.ctx this) b) ->
    forall w,
      (exists w', Lifecycle.start CoreTags this w = (w', inr tt)) /\
      (exists w', Lifecycle.stop CoreTags this w = (w', inr tt)).
Proof.
  intros CoreTags this Hdep w. split.
  - destruct (Lifecycle.start CoreTags this w) as [w' [e|[]]] eqn:Hrun; [|eauto].
    exfalso. apply start_calls in Hrun as (visits & _ & _ & Hcalls & _ & Hrej).
    destruct (Hrej e eq_refl) as (v & c & Hv & Hc & He).
    destruct (Hcalls v c Hv Hc) as (t & b & _ & Hb & ->).
    rewrite (notifyObserver_dependable this _ _ _ (Hdep b Hb)) in He.
    discriminate.
  - destruct (Lifecycle.stop CoreTags this w) as [w' [e|[]]] eqn:Hrun; [|eauto].
    exfalso. apply stop_calls in Hrun as (visits & _ & _ & Hcalls & _ & Hrej).
    destruct (Hrej e eq_refl) as (v & c & Hv & Hc & He).
    destruct (Hcalls v c Hv Hc) as (t & b & _ & Hb & ->).
    rewrite (notifyObserver_dependable this _ _ _ (Hdep b Hb)) in He.
    discriminate.
Qed.

(** In the healthy context every observer is dependable. *)
Lemma dependable_observers_start_and_stop_witness :
  (exists w',
     Lifecycle.start Scenario.CoreTags
       (Scenario.registry (Scenario.healthy [Scenario.A; Scenario.C])
          ["db"] true)
       Scenario.idle = (w', inr tt)) /\
  (exists w',
     Lifecycle.stop Scenario.CoreTags
       (Scenario.registry (Scenario.healthy [Scenario.A; Scenario.C])
          ["db"] true)
       Scenario.idle = (w', inr tt)).
Proof.
  apply (dependable_observers_start_and_stop Scenario.CoreTags
           (Scenario.registry (Scenario.healthy [Scenario.A; Scenario.C])
              ["db"] true)).
  intros b _. exists (Scenario.observer 1 None). split; [reflexivity|].
  intros event m Hm.
  apply elem_of_list_to_map_2 in Hm.
  repeat (apply elem_of_cons in Hm as [[= _ ->]|Hm]; [reflexivity|]).
  inversion Hm.
Defined.

Lemma bind_fmap {A B C} (f : A -> B) (g : B -> list C) (l : list A) :
  (f <$> l) ≫= g = l ≫= (fun x => g (f x)).
Proof.
  induction l as [|x l IH]; [reflexivity|].
  now rewrite fmap_cons, !bind_cons, IH.
Qed.

Lemma bind_nil_all {A B} (g : A -> list B) (l : list A) :
  (forall x, x ∈ l -> g x = []) -> l ≫= g = [].
Proof.
  induction l as [|x l IH]; intros Hg; [reflexivity|].
  rewrite bind_cons, (Hg x) by left. apply IH. intros y Hy. apply Hg. now right.
Qed.

(** The part of a schedule that belongs to one event. *)
Lemma schedule_of_event {G B} (f : G -> list B) (events : list string)
    (groups : list G) (event : string) :
  NoDup events -> event ∈ events ->
  schedule events groups
    ≫= (fun step => if decide (step.1 = event) then f step.2 else [])
  = groups ≫= f.
Proof.
  assert (forall e,
            ((fun g => (e, g)) <$> groups)
              ≫= (fun step : string * G =>
                    if decide (step.1 = event) then f step.2 else [])
            = if decide (e = event) then groups ≫= f else []) as Hblock.
  { intros e. rewrite bind_fmap. simpl. destruct (decide (e = event)).
    - reflexivity.
    - apply bind_nil_all. reflexivity. }
  induction events as [|e0 events IH]; intros Hnd Hin; [inversion Hin|].
  apply NoDup_cons in Hnd as [Hfresh Hnd].
  change (schedule (e0 :: events) groups)
    with (((fun g => (e0, g)) <$> groups) ++ schedule events groups).
  rewrite bind_app, Hblock. destruct (decide (e0 = event)) as [->|Hne].
  - rewrite (bind_nil_all _ (schedule events groups)), app_nil_r; [done|].
    intros [e g] Hstep. apply schedule_events in Hstep. simpl.
    destruct (decide (e = event)) as [->|]; [contradiction | reflexivity].
  - apply elem_of_cons in Hin as [Heq|Hin]; [congruence|]. now apply IH.
Qed.

Lemma called_for_visited event visits :
  called_for event visits
  = visited visits
      ≫= (fun step : string * (string * list string) =>
            if decide (step.1 = event) then step.2.2 else []).
Proof. unfold called_for, visited. now rewrite bind_fmap. Qed.

Lemma membership_keys CoreTags this :
  membership (Lifecycle.getObserverGroupsByOrder CoreTags this) ≫= snd
  ≡ₚ key <$> Lifecycle.findObserverBindings CoreTags this.
Proof.
  unfold membership. rewrite bind_fmap. simpl.
  transitivity (key <$> (Lifecycle.getObserverGroupsByOrder CoreTags this
                           ≫= Lifecycle.bindings)).
  - generalize (Lifecycle.getObserverGroupsByOrder CoreTags this). intros groups.
    induction groups as [|g groups IH]; [reflexivity|].
    now rewrite !bind_cons, fmap_app, IH.
  - apply fmap_Permutation.
    unfold Lifecycle.getObserverGroupsByOrder,
      Lifecycle.sortObserverBindingsByGroup. rewrite groups_of_fmap.
    apply (sorted_cover Lifecycle.bindings). reflexivity.
Qed.

(** X9.  A fulfilled [start] calls every binding found by
    [findObserverBindings] exactly once for each of [preStart], [start] and
    [postStart], and a fulfilled [stop] exactly once for each of [preStop],
    [stop] and [postStop]: for each sub-event, the keys called are the keys
    of the bindings found, each as often as it was found. *)
Theorem each_observer_is_notified_once :
  forall CoreTags this w w',
    (Lifecycle.start CoreTags this w = (w', inr tt) ->
     exists visits,
       Lifecycle.trace w' = Lifecycle.trace w ++ visits /\
       forall event, event ∈ ["preStart"; "start"; "postStart"] ->
         called_for event visits
         ≡ₚ key <$> Lifecycle.findObserverBindings CoreTags this) /\
    (Lifecycle.stop CoreTags this w = (w', inr tt) ->
     exists visits,
       Lifecycle.trace w' = Lifecycle.trace w ++ visits /\
       forall event, event ∈ ["preStop"; "stop"; "postStop"] ->
         called_for event visits
         ≡ₚ key <$> Lifecycle.findObserverBindings CoreTags this).
Proof.
  intros CoreTags this w w'. split; intros Hrun;
    apply notifyGroups_fulfilled in Hrun as (visits & Ht & Hvis & _);
    exists visits; (split; [exact Ht|]); intros event Hevent;
    rewrite called_for_visited, Hvis, (schedule_of_event snd); auto;
    try (repeat (apply NoDup_cons; split; [compute_done|]); apply NoDup_nil_2).
  - apply membership_keys.
  - rewrite membership_rev, <- Permutation_rev. apply membership_keys.
Qed.

(** The scenario with four observers. *)
Lemma each_observer_is_notified_once_witness :
  exists visits,
    Lifecycle.trace
      (Lifecycle.start Scenario.CoreTags
         (Scenario.registry
            (Scenario.healthy [Scenario.A; Scenario.B; Scenario.C; Scenario.D])
            ["db"; "server"] true)
         Scenario.idle).1
    = Lifecycle.trace Scenario.idle ++ visits /\
    forall event, event ∈ ["preStart"; "start"; "postStart"] ->
      called_for event visits
      ≡ₚ key <$> Lifecycle.findObserverBindings Scenario.CoreTags
           (Scenario.registry
              (Scenario.healthy [Scenario.A; Scenario.B; Scenario.C; Scenario.D])
              ["db"; "server"] true).
Proof.
  apply (proj1 (each_observer_is_notified_once Scenario.CoreTags
                  (Scenario.registry
                     (Scenario.healthy
                        [Scenario.A; Scenario.B; Scenario.C; Scenario.D])
                     ["db"; "server"] true)
                  Scenario.idle _)).
  vm_compute. reflexivity.
Defined.

(** ** One group *)

Section InTurn.
Variable this : Lifecycle.LifeCycleObserverRegistry.

(** The calls made in turn follow one another without a gap. *)
Lemma notifyInTurn_chain event bs : forall t calls t' r,
  Lifecycle.notifyInTurn this event t bs = (calls, t', r) ->
  (forall c, head calls = Some c -> called c = t) /\
  (forall (i : nat) c c',
     calls !! i = Some c -> calls !! S i = Some c' ->
     rejected c = None /\ called c' = settled c) /\
  t' = from_option settled t (last calls).
Proof.
  induction bs as [|b bs IH]; intros t calls t' r; cbn [Lifecycle.notifyInTurn].
  - intros [= <- <- <-]. repeat split; discriminate.
  - destruct (rejected (Lifecycle.notifyObserver this event t b)) as [e|] eqn:Hb.
    + intros [= <- <- <-]. split; [|split; [|reflexivity]].
      * intros c [= <-]. apply notifyObserver_called.
      * intros i c c' _ Hc'. destruct i; discriminate.
    + destruct (Lifecycle.notifyInTurn this event _ bs) as [[cs t1] r1] eqn:Hrest.
      intros [= <- <- <-].
      destruct (IH _ _ _ _ Hrest) as (Hhead & Hnext & Hend).
      split; [|split].
      * intros c [= <-]. apply notifyObserver_called.
      * intros [|i] c c' Hc Hc'; simpl in Hc, Hc'.
        -- injection Hc as <-. split; [exact Hb|].
           apply Hhead. now rewrite head_lookup.
        -- now apply (Hnext i).
      * rewrite last_cons. rewrite Hend. now destruct (last cs).
Qed.

End InTurn.

(** X10.  Without [parallel], the members of a group are notified strictly
    one after the other, in member order: the first call is made when the
    group is entered, each further call at the instant the call before it
    is fulfilled, no call follows a rejected one, and the group is left at
    the instant its last call settles.  A fulfilled group has called every
    member. *)
Theorem sequential_group_runs_in_turn :
  forall this g event w w' r,
    JS.truthy_bool (Lifecycle.parallel (Lifecycle.options this)) = false ->
    Lifecycle.notifyObserverGroup this g event w = (w', r) ->
    exists calls,
      Lifecycle.trace w'
      = Lifecycle.trace w ++ [{| Lifecycle.visit_event := event;
                                 Lifecycle.visit_group := Lifecycle.group g;
                                 Lifecycle.visit_calls := calls |}] /\
      callee <$> calls `prefix_of` key <$> Lifecycle.bindings g /\
      (r = inr tt -> callee <$> calls = key <$> Lifecycle.bindings g) /\
      (forall c, head calls = Some c -> called c = Lifecycle.now w) /\
      (forall (i : nat) c c',
         calls !! i = Some c -> calls !! S i = Some c' ->
         rejected c = None /\ called c' = settled c) /\
      Lifecycle.now w' = from_option settled (Lifecycle.now w) (last calls).
Proof.
  intros this g event w w' r Hseq. unfold Lifecycle.notifyObserverGroup.
  rewrite Hseq.
  destruct (Lifecycle.notifyInTurn _ _ _ _) as [[calls t] r0] eqn:Hturn.
  pose proof (notifyInTurn_calls _ _ _ _ _ _ _ Hturn) as Hcalls.
  apply notifyInTurn_chain in Hturn as (Hhead & Hnext & Hend).
  destruct r0 as [e|]; intros [= <- <-]; exists calls;
    (split; [reflexivity|]); simpl.
  - destruct Hcalls as [_ Hpre].
    split; [exact Hpre|]. split; [discriminate|]. split; [exact Hhead|].
    split; [exact Hnext | exact Hend].
  - destruct Hcalls as [Hkeys _]. rewrite Hkeys.
    split; [reflexivity|]. split; [reflexivity|]. split; [exact Hhead|].
    split; [exact Hnext | exact Hend].
Qed.

(** The group [server] of [B] and [D], notified of [start] in turn: [B]
    fails and [D] is not called. *)
Lemma sequential_group_runs_in_turn_witness :
  exists calls,
    [{| Lifecycle.visit_event := "start"; Lifecycle.visit_group := "server";
        Lifecycle.visit_calls :=
          [{| callee := "B"; called := 0; settled := 2;
              rejected := Some "B failed" |}] |}]
    = [] ++ [{| Lifecycle.visit_event := "start";
                Lifecycle.visit_group := "server";
                Lifecycle.visit_calls := calls |}] /\
    callee <$> calls `prefix_of` key <$> [Scenario.B; Scenario.D] /\
    (@inl Error unit "B failed" = inr tt ->
     callee <$> calls = key <$> [Scenario.B; Scenario.D]) /\
    (forall c, head calls = Some c -> called c = 0%nat) /\
    (forall (i : nat) c c',
       calls !! i = Some c -> calls !! S i = Some c' ->
       rejected c = None /\ called c' = settled c) /\
    2%nat = from_option settled 0%nat (last calls).
Proof.
  apply (sequential_group_runs_in_turn
           (Scenario.registry
              (Scenario.failing [Scenario.B; Scenario.D]) ["server"] false)
           {| Lifecycle.group := "server";
              Lifecycle.bindings := [Scenario.B; Scenario.D] |}
           "start" Scenario.idle
           {| Lifecycle.now := 2;
              Lifecycle.trace :=
                [{| Lifecycle.visit_event := "start";
                    Lifecycle.visit_group := "server";
                    Lifecycle.visit_calls :=
                      [{| callee := "B"; called := 0; settled := 2;
                          rejected := Some "B failed" |}] |}] |}
           (inl "B failed")).
  - reflexivity.
  - vm_compute. reflexivity.
Defined.

Lemma all_settled_attained (t : nat) (cs : list Call) :
  Promise.all_settled t cs = t \/
  exists c, c ∈ cs /\ Promise.all_settled t cs = settled c.
Proof.
  induction cs as [|c cs IH]; simpl; [now left|].
  destruct (Nat.max_spec (settled c) (Promise.all_settled t cs)) as [[_ E]|[_ E]];
    rewrite E.
  - destruct IH as [?|(c' & Hc' & ?)]; [now left|].
    right. exists c'. split; [now right | done].
  - right. exists c. split; [left | reflexivity].
Qed.

(** X11.  With [parallel], a fulfilled group is joined: the call for every
    member is made at the instant the group is entered, every call is
    fulfilled, and the group is left at the instant the last of them
    settles, neither before nor after. *)
Theorem parallel_group_is_joined :
  forall this g event w w',
    JS.truthy_bool (Lifecycle.parallel (Lifecycle.options this)) = true ->
    Lifecycle.notifyObserverGroup this g event w = (w', inr tt) ->
    let calls :=
      map (Lifecycle.notifyObserver this event (Lifecycle.now w))
          (Lifecycle.bindings g) in
    Lifecycle.trace w'
    = Lifecycle.trace w ++ [{| Lifecycle.visit_event := event;
                               Lifecycle.visit_group := Lifecycle.group g;
                               Lifecycle.visit_calls := calls |}] /\
    (forall c, c ∈ calls ->
       called c = Lifecycle.now w /\ rejected c = None /\
       (settled c <= Lifecycle.now w')%nat) /\
    (Lifecycle.now w' = Lifecycle.now w \/
     exists c, c ∈ calls /\ Lifecycle.now w' = settled c).
Proof.
  intros this g event w w' Hpar. unfold Lifecycle.notifyObserverGroup.
  rewrite Hpar. unfold Promise.all.
  destruct (Promise.first_rejected _ _) as [c0|] eqn:Hfirst.
  - apply first_rejected_Some in Hfirst as (_ & Hrej & _).
    destruct (rejected c0); [discriminate | congruence].
  - intros [= <-]. cbv zeta. simpl. split; [reflexivity|]. split.
    + intros c Hc. split; [|split].
      * apply list_elem_of_In, in_map_iff in Hc as (b & <- & _).
        apply notifyObserver_called.
      * apply first_rejected_None in Hfirst. rewrite Forall_forall in Hfirst.
        now apply Hfirst.
      * now apply all_settled_bound.
    + apply all_settled_attained.
Qed.

(** The group [server] of [B] and [D], notified of [preStart] in parallel. *)
Lemma parallel_group_is_joined_witness :
  exists c,
    c ∈ map (Lifecycle.notifyObserver
               (Scenario.registry
                  (Scenario.failing [Scenario.B; Scenario.D]) ["server"] true)
               "preStart" 0%nat)
            [Scenario.B; Scenario.D] /\
    6%nat = settled c.
Proof.
  destruct (parallel_group_is_joined
              (Scenario.registry
                 (Scenario.failing [Scenario.B; Scenario.D]) ["server"] true)
              {| Lifecycle.group := "server";
                 Lifecycle.bindings := [Scenario.B; Scenario.D] |}
              "preStart" Scenario.idle
              {| Lifecycle.now := 6;
                 Lifecycle.trace :=
                   [{| Lifecycle.visit_event := "preStart";
                       Lifecycle.visit_group := "server";
                       Lifecycle.visit_calls :=
                         [{| callee := "B"; called := 0; settled := 2;
                             rejected := None |};
                          {| callee := "D"; called := 0; settled := 6;
                             rejected := None |}] |}] |})
    as (_ & _ & [Hnow|Hlast]).
  - reflexivity.
  - vm_compute. reflexivity.
  - discriminate Hnow.
  - exact Hlast.
Defined.

(** X12.  A context without an eligible binding: when no registered binding
    is a constant or singleton that carries the observer tag, [start] and
    [stop] are fulfilled at once; they notify nothing and take no time. *)
Theorem nothing_eligible_nothing_notified :
  forall CoreTags this,
    (forall b, b ∈ Lifecycle.registered (Lifecycle.ctx this) ->
               ~ eligible CoreTags b) ->
    forall w,
      Lifecycle.start CoreTags this w = (w, inr tt) /\
      Lifecycle.stop CoreTags this w = (w, inr tt).
Proof.
  intros CoreTags this Hnone w.
  assert (Lifecycle.findObserverBindings CoreTags this = []) as Hnil.
  { apply elem_of_nil_inv. intros b Hb.
    apply found_eligible in Hb as [Hreg Hel]. now apply (Hnone b). }
  unfold Lifecycle.start, Lifecycle.stop, Lifecycle.getObserverGroupsByOrder.
  rewrite Hnil. split; reflexivity.
Qed.

(** A context that holds a middleware binding only. *)
Lemma nothing_eligible_nothing_notified_witness :
  Lifecycle.start Scenario.CoreTags
    (Scenario.registry (Scenario.healthy [Scenario.M1]) ["server"] true)
    Scenario.idle
  = (Scenario.idle, inr tt).
Proof.
  apply (nothing_eligible_nothing_notified Scenario.CoreTags
           (Scenario.registry (Scenario.healthy [Scenario.M1]) ["server"] true)).
  intros b Hb [_ Htag]. apply list_elem_of_singleton in Hb as ->.
  apply Htag. reflexivity.
Defined.

(** ** The router *)

Lemma indexOf_NoDup {A} `{EqDecision A} (l : list A) (i : nat) (x : A) :
  NoDup l -> l !! i = Some x -> JS.indexOf l x = Z.of_nat i.
Proof.
  intros Hnd Hi. pose proof (indexOf_first l x i Hi) as [Hlo Hhi].
  pose proof (indexOf_lookup l x Hlo) as Hidx.
  pose proof (NoDup_lookup l _ _ x Hnd Hidx Hi). lia.
Qed.

Lemma nth_of_nat {A} (a : list A) (i : nat) : JS.nth a (Z.of_nat i) = a !! i.
Proof.
  unfold JS.nth. destruct (Z.ltb_spec (Z.of_nat i) 0); [lia|].
  now rewrite Nat2Z.id.
Qed.

(** A loop in which no round throws yields what its rounds yield. *)
Lemma for_of_fmap_inr {A B} (body : A -> Error + B) (g : A -> B) (xs : list A) :
  (forall x, x ∈ xs -> body x = inr (g x)) ->
  Middleware.for_of xs body = inr (g <$> xs).
Proof.
  induction xs as [|x xs IH]; intros Hbody; [reflexivity|]. simpl.
  rewrite (Hbody x) by left. rewrite IH; [reflexivity|].
  intros y Hy. apply Hbody. now right.
Qed.

(** What holds of everything a round yields holds of what the loop
    yields. *)
Lemma for_of_Forall {A B} (P : B -> Prop) (body : A -> Error + B) (xs : list A) :
  (forall x y, body x = inr y -> P y) ->
  forall ys, Middleware.for_of xs body = inr ys -> Forall P ys.
Proof.
  intros Hbody. induction xs as [|x xs IH]; simpl; intros ys.
  - intros [= <-]. constructor.
  - destruct (body x) as [e|y] eqn:Hy; [discriminate|].
    destruct (Middleware.for_of xs body) as [e|ys']; [discriminate|].
    intros [= <-]. constructor; [now apply (Hbody x) | now apply IH].
Qed.

(** A router that [createExpressRouter] returns has a handler in every
    layer. *)
Lemma mounted_layers_have_handlers this {H} (values : Error + list H) router :
  Middleware.createExpressRouter this values = inr router ->
  Forall (Forall (fun layer => is_Some (Middleware.handle layer))) router.
Proof.
  unfold Middleware.createExpressRouter. destruct values as [e|middleware];
    [discriminate|].
  apply for_of_Forall. intros p layers. unfold Middleware.phaseRouter_of.
  apply for_of_Forall. intros b layer.
  destruct (JS.truthy _);
    (unfold Middleware.use; destruct (JS.nth _ _) as [h|];
     [intros [= <-]; now exists h | discriminate]).
Qed.

(** The layer [createExpressRouter] makes for a binding for which a
    handler is resolved. *)
Lemma phaseRouter_of_layers {H} (middleware : list H) bindings phase :
  (forall b, b ∈ Middleware.bindings phase ->
             is_Some (JS.nth middleware (JS.indexOf bindings b))) ->
  Middleware.phaseRouter_of middleware bindings phase
  = inr ((fun b => {| Middleware.path := path_of b;
                      Middleware.handle :=
                        JS.nth middleware (JS.indexOf bindings b) |})
           <$> Middleware.bindings phase).
Proof.
  intros Hall. unfold Middleware.phaseRouter_of, path_of.
  apply for_of_fmap_inr. intros b Hb. simpl.
  destruct (Hall b Hb) as [h Hh]. rewrite Hh.
  now destruct (JS.truthy (tagMap b !! "path")).
Qed.

(** With one handler for each of the distinct bindings of the view, a
    handler is resolved for every binding of the view. *)
Lemma handler_of_view {H} (middleware : list H) (bindings : list Binding) b :
  NoDup bindings -> length middleware = length bindings -> b ∈ bindings ->
  is_Some (JS.nth middleware (JS.indexOf bindings b)).
Proof.
  intros Hnd Hlen Hb. apply list_elem_of_lookup in Hb as [i Hi].
  rewrite (indexOf_NoDup bindings i b Hnd Hi), nth_of_nat.
  apply lookup_lt_is_Some. apply lookup_lt_Some in Hi. lia.
Qed.

Lemma layers_of_view {H} (middleware : list H) (bindings : list Binding) :
  NoDup bindings -> length middleware = length bindings ->
  (fun b => {| Middleware.path := path_of b;
               Middleware.handle := JS.nth middleware (JS.indexOf bindings b) |})
    <$> bindings
  = zip_with (fun b h => {| Middleware.path := path_of b;
                            Middleware.handle := Some h |})
      bindings middleware.
Proof.
  intros Hnd Hlen. apply list_eq. intros i.
  rewrite list_lookup_fmap, lookup_zip_with.
  destruct (bindings !! i) as [b|] eqn:Hb; simpl; [|reflexivity].
  rewrite (indexOf_NoDup bindings i b Hnd Hb), nth_of_nat.
  destruct (middleware !! i) as [h|] eqn:Hh; simpl; [reflexivity|].
  apply lookup_lt_Some in Hb. apply lookup_ge_None in Hh. lia.
Qed.

(** X13.  Every middleware is mounted exactly once, with its own handler:
    when the bindings of the view are distinct and the view resolves one
    handler per binding, the layers of all phase routers together are, up
    to their order, one layer per binding of the view, carrying the handler
    resolved for that binding and the path the binding asks for; and no
    phase router is empty. *)
Theorem router_mounts_each_middleware_once :
  forall this (H : Type) (middleware : list H),
    let bindings := Middleware.view_bindings (Middleware.middlewareView this) in
    NoDup bindings -> length middleware = length bindings ->
    exists router : list (list (Middleware.Layer H)),
      Middleware.createExpressRouter this (inr middleware) = inr router /\
      Forall (fun phaseRouter => phaseRouter <> []) router /\
      mjoin router
      ≡ₚ zip_with (fun b h => {| Middleware.path := path_of b;
                                 Middleware.handle := Some h |})
           bindings middleware.
Proof.
  intros this H middleware bindings Hnd Hlen.
  set (layer := fun b => {| Middleware.path := path_of b;
                            Middleware.handle :=
                              JS.nth middleware (JS.indexOf bindings b) |}).
  set (phases := Middleware.getMiddlewarePhasesByOrder this).
  assert (Forall (fun p => Middleware.bindings p <> []) phases
          /\ phases ≫= Middleware.bindings ≡ₚ bindings) as [Hne Hcover].
  { subst phases. unfold Middleware.getMiddlewarePhasesByOrder,
      Middleware.sortMiddlewareBindingsByPhase. rewrite phases_of_fmap. split.
    - apply Forall_forall. intros p Hp.
      eapply (sorted_entry Middleware.phase Middleware.bindings) in Hp;
        [apply Hp | reflexivity..].
    - apply (sorted_cover Middleware.bindings). reflexivity. }
  exists ((fun p => layer <$> Middleware.bindings p) <$> phases). split.
  { unfold Middleware.createExpressRouter. apply for_of_fmap_inr.
    intros p Hp. apply phaseRouter_of_layers. intros b Hb.
    apply handler_of_view; [exact Hnd | exact Hlen |].
    rewrite <- Hcover. apply list_elem_of_bind. now exists p. }
  split.
  - apply Forall_fmap. eapply Forall_impl; [exact Hne|].
    intros p Hp Hnil. apply Hp. now apply fmap_nil_inv in Hnil.
  - rewrite <- (layers_of_view middleware bindings Hnd Hlen).
    rewrite <- Hcover. clear.
    induction phases as [|p phases IH]; [reflexivity|].
    rewrite fmap_cons, bind_cons, fmap_app. simpl. now rewrite IH.
Qed.

(** The three middleware of the scenario with the handlers [h1], [h2],
    [h3]. *)
Lemma router_mounts_each_middleware_once_witness :
  exists router : list (list (Middleware.Layer string)),
    Middleware.createExpressRouter
      (Scenario.middlewareRegistry
         [Scenario.M1; Scenario.M2; Scenario.M3] ["log"; "auth"])
      (inr ["h1"; "h2"; "h3"]) = inr router /\
    Forall (fun phaseRouter => phaseRouter <> []) router /\
    mjoin router
    ≡ₚ zip_with (fun b h => {| Middleware.path := path_of b;
                               Middleware.handle := Some h |})
         [Scenario.M1; Scenario.M2; Scenario.M3] ["h1"; "h2"; "h3"].
Proof.
  apply (router_mounts_each_middleware_once
           (Scenario.middlewareRegistry
              [Scenario.M1; Scenario.M2; Scenario.M3] ["log"; "auth"])
           string ["h1"; "h2"; "h3"]).
  - repeat (apply NoDup_cons; split; [compute_done|]). apply NoDup_nil_2.
  - reflexivity.
Defined.

(** ** Changing the priority list *)

Lemma sorted_names_alphabetical (out : list string) :
  StronglySorted (not_after (compareNames [])) out -> NoDup out ->
  StronglySorted (fun p q => JS.lt p q = true) out.
Proof.
  apply sorted_distinct. intros p q Hpq Hne. unfold not_after in Hpq.
  assert (compareNames [] p q < 0) as Hlt.
  { destruct (Z.eq_dec (compareNames [] p q) 0) as [E|E]; [|lia].
    apply compareNames_zero in E. contradiction. }
  apply compareNames_neg in Hlt as [Hidx|[_ Hlex]]; [|exact Hlex].
  simpl in Hidx. lia.
Qed.

(** X14.  [setPhasesByOrder] reorders the phases and nothing else: the
    sorted phases after the call are a permutation of the sorted phases
    before it (the same phases with the same members in the same order),
    now ordered by the new priority list; the view and [parallel] are
    kept; and after [setPhasesByOrder(undefined)] the phases are in
    alphabetical order. *)
Theorem setPhasesByOrder_reorders_only :
  forall this phases input,
    let this' := Middleware.setPhasesByOrder this phases in
    let sorted' := Middleware.sortMiddlewareBindingsByPhase this' input in
    Middleware.middlewareView this' = Middleware.middlewareView this /\
    Middleware.parallel (Middleware.options this')
    = Middleware.parallel (Middleware.options this) /\
    sorted' ≡ₚ Middleware.sortMiddlewareBindingsByPhase this input /\
    unlisted_then_listed (default [] phases) (Middleware.phase <$> sorted') /\
    (phases = None ->
     StronglySorted (fun p q => JS.lt p q = true) (Middleware.phase <$> sorted')).
Proof.
  intros this phases input this' sorted'.
  split; [reflexivity|]. split; [reflexivity|].
  assert (Middleware.phasesByOrder (Middleware.options this') = default [] phases)
    as Horder by now destruct phases.
  destruct (sorted_groups Middleware.phase
              (fun e => {| Middleware.phase := e.1; Middleware.bindings := e.2 |})
              Middleware.getMiddlewarePhase
              (Middleware.phasesByOrder (Middleware.options this'))
              (Middleware.comparePhases this')
              ltac:(reflexivity) ltac:(reflexivity) input)
    as (_ & Hnd & _ & Hord).
  rewrite <- phases_of_fmap in Hnd, Hord.
  fold (Middleware.sortMiddlewareBindingsByPhase this' input) in Hnd, Hord.
  fold sorted' in Hnd, Hord.
  split; [|split].
  - subst sorted'. unfold Middleware.sortMiddlewareBindingsByPhase.
    now rewrite !sort_perm.
  - now rewrite <- Horder.
  - intros ->. apply sorted_names_alphabetical; [|exact Hnd].
    subst sorted'. unfold Middleware.sortMiddlewareBindingsByPhase.
    apply (sorted_names Middleware.phase []). reflexivity.
Qed.

(** After [setPhasesByOrder(undefined)] the phases [log] and [auth] are in
    alphabetical order. *)
Lemma setPhasesByOrder_reorders_only_witness :
  StronglySorted (fun p q => JS.lt p q = true)
    (Middleware.phase <$>
       Middleware.sortMiddlewareBindingsByPhase
         (Middleware.setPhasesByOrder
            (Scenario.middlewareRegistry [] ["log"; "auth"]) None)
         [Scenario.M1; Scenario.M2; Scenario.M3]).
Proof.
  apply (setPhasesByOrder_reorders_only
           (Scenario.middlewareRegistry [] ["log"; "auth"]) None
           [Scenario.M1; Scenario.M2; Scenario.M3]).
  reflexivity.
Defined.

(** A binding with a non-empty group tag is classified by it, whatever the
    priority list is. *)
Lemma getObserverGroup_tagged CoreTags this (b : Binding) :
  JS.truthy (tagMap b !! LIFE_CYCLE_OBSERVER_GROUP CoreTags) = true ->
  Lifecycle.getObserverGroup CoreTags this b
  = JS.or_empty (tagMap b !! LIFE_CYCLE_OBSERVER_GROUP CoreTags).
Proof.
  intros Ht. unfold Lifecycle.getObserverGroup. now rewrite Ht.
Qed.

(** X15.  [setGroupsByOrder] keeps the context and [parallel], and stores
    the list it is given, or [['server']] for [undefined]; an empty list is
    stored as it is.  It regroups no binding that has a non-empty group
    tag: for an input of such bindings the sorted groups after the call are
    a permutation of the sorted groups before it, ordered by the new
    list. *)
Theorem setGroupsByOrder_keeps_tagged_groups :
  forall CoreTags this groups input,
    let this' := Lifecycle.setGroupsByOrder this groups in
    let sorted' := Lifecycle.sortObserverBindingsByGroup CoreTags this' input in
    (forall b, b ∈ input ->
       JS.truthy (tagMap b !! LIFE_CYCLE_OBSERVER_GROUP CoreTags) = true) ->
    Lifecycle.ctx this' = Lifecycle.ctx this /\
    Lifecycle.parallel (Lifecycle.options this')
    = Lifecycle.parallel (Lifecycle.options this) /\
    Lifecycle.groupsByOrder (Lifecycle.options this') = default ["server"] groups /\
    sorted' ≡ₚ Lifecycle.sortObserverBindingsByGroup CoreTags this input /\
    unlisted_then_listed (default ["server"] groups) (Lifecycle.group <$> sorted').
Proof.
  intros CoreTags this groups input this' sorted' Htagged.
  split; [reflexivity|]. split; [reflexivity|].
  assert (Lifecycle.groupsByOrder (Lifecycle.options this')
          = default ["server"] groups) as Horder by now destruct groups.
  split; [exact Horder|]. split.
  - subst sorted'. unfold Lifecycle.sortObserverBindingsByGroup.
    rewrite !sort_perm, !groups_of_fmap.
    rewrite (group_by_ext (Lifecycle.getObserverGroup CoreTags this')
               (Lifecycle.getObserverGroup CoreTags this)); [reflexivity|].
    intros b Hb. now rewrite !getObserverGroup_tagged by auto.
  - rewrite <- Horder. subst sorted'.
    unfold Lifecycle.sortObserverBindingsByGroup. rewrite groups_of_fmap.
    apply (sorted_unlisted_then_listed Lifecycle.group). reflexivity.
Qed.

(** [A] and [B] carry group tags. *)
Lemma setGroupsByOrder_keeps_tagged_groups_witness :
  Lifecycle.sortObserverBindingsByGroup Scenario.CoreTags
    (Lifecycle.setGroupsByOrder
       (Scenario.registry (Scenario.healthy []) ["db"; "server"] true)
       (Some ["server"; "db"]))
    [Scenario.A; Scenario.B]
  ≡ₚ Lifecycle.sortObserverBindingsByGroup Scenario.CoreTags
       (Scenario.registry (Scenario.healthy []) ["db"; "server"] true)
       [Scenario.A; Scenario.B].
Proof.
  apply (setGroupsByOrder_keeps_tagged_groups Scenario.CoreTags
           (Scenario.registry (Scenario.healthy []) ["db"; "server"] true)
           (Some ["server"; "db"]) [Scenario.A; Scenario.B]).
  intros b Hb.
  apply elem_of_cons in Hb as [->|Hb]; [reflexivity|].
  apply list_elem_of_singleton in Hb as ->. reflexivity.
Defined.

(** A binding that is in a group by its marker tag is regrouped when the
    name leaves the priority list: [D], in [server] under [db, server], is
    ungrouped under [db]. *)
Example setGroupsByOrder_regroups_marked :
  Lifecycle.getObserverGroup Scenario.CoreTags
    (Scenario.registry (Scenario.healthy []) ["db"; "server"] true) Scenario.D
  = "server" /\
  Lifecycle.getObserverGroup Scenario.CoreTags
    (Lifecycle.setGroupsByOrder
       (Scenario.registry (Scenario.healthy []) ["db"; "server"] true)
       (Some ["db"]))
    Scenario.D
  = "".
Proof. split; vm_compute; reflexivity. Qed.

(** ** Parallel against sequential notification *)

Section Shift.
Variable this : Lifecycle.LifeCycleObserverRegistry.

(** A call made later settles that much later, with the same outcome. *)
Lemma notifyObserver_shift event t b :
  settled (Lifecycle.notifyObserver this event t b)
  = (t + settled (Lifecycle.notifyObserver this event 0 b))%nat /\
  rejected (Lifecycle.notifyObserver this event t b)
  = rejected (Lifecycle.notifyObserver this event 0 b).
Proof.
  unfold Lifecycle.notifyObserver, Lifecycle.invokeObserver.
  destruct (Lifecycle.instance _) as [e|observer]; simpl; [split; [lia|done]|].
  destruct (observer !! event); simpl; split; (lia || done).
Qed.

Lemma notifyInTurn_fulfilled event bs :
  (forall b, b ∈ bs ->
     rejected (Lifecycle.notifyObserver this event 0 b) = None) ->
  forall t0, exists calls t',
    Lifecycle.notifyInTurn this event t0 bs = (calls, t', None) /\
    callee <$> calls = key <$> bs /\
    forall t, (t <= t0)%nat ->
      (Promise.all_settled t (map (Lifecycle.notifyObserver this event t) bs)
       <= t')%nat.
Proof.
  induction bs as [|b bs IH]; intros Hok t0; cbn [Lifecycle.notifyInTurn].
  - exists [], t0. repeat split. intros t Ht. simpl. lia.
  - destruct (notifyObserver_shift event t0 b) as [Hs0 Hr0].
    rewrite Hr0, (Hok b) by left.
    destruct (IH (fun b' Hb' => Hok b' ltac:(now right))
                (settled (Lifecycle.notifyObserver this event t0 b)))
      as (cs & t' & Hrun & Hkeys & Hbound).
    rewrite Hrun. eexists _, t'. split; [reflexivity|]. split.
    + now rewrite !fmap_cons, notifyObserver_callee, Hkeys.
    + intros t Ht. cbn [map Promise.all_settled fold_right].
      destruct (notifyObserver_shift event t b) as [Hs _].
      assert (t0 <= settled (Lifecycle.notifyObserver this event t0 b))%nat
        by apply notifyObserver_settled.
      specialize (Hbound t ltac:(lia)).
      apply notifyInTurn_from in Hrun as (Hend & _).
      unfold Promise.all_settled in Hbound. lia.
Qed.

End Shift.

Lemma notifyObserver_ctx this this' event t b :
  Lifecycle.ctx this = Lifecycle.ctx this' ->
  Lifecycle.notifyObserver this event t b
  = Lifecycle.notifyObserver this' event t b.
Proof. unfold Lifecycle.notifyObserver. now intros ->. Qed.

(** X16.  Parallel notification is never slower than sequential
    notification and reaches the same members: when a group is fulfilled by
    a registry with [parallel], a registry on the same context without
    [parallel] fulfils it too, entered at the same instant; both call the
    same members in the same order, and the parallel one leaves the group no
    later than the sequential one.  (An observer takes the same time
    whenever it is called.) *)
Theorem parallel_group_is_not_slower :
  forall this this' g event w wp,
    Lifecycle.ctx this = Lifecycle.ctx this' ->
    JS.truthy_bool (Lifecycle.parallel (Lifecycle.options this)) = true ->
    JS.truthy_bool (Lifecycle.parallel (Lifecycle.options this')) = false ->
    Lifecycle.notifyObserverGroup this g event w = (wp, inr tt) ->
    exists ws,
      Lifecycle.notifyObserverGroup this' g event w = (ws, inr tt) /\
      (Lifecycle.now wp <= Lifecycle.now ws)%nat /\
      visited (Lifecycle.trace wp) = visited (Lifecycle.trace ws).
Proof.
  intros this this' g event w wp Hctx Hpar Hseq.
  unfold Lifecycle.notifyObserverGroup. rewrite Hpar, Hseq. unfold Promise.all.
  destruct (Promise.first_rejected _ _) as [c0|] eqn:Hfirst.
  { apply first_rejected_Some in Hfirst as (_ & Hrej & _).
    destruct (rejected c0); [discriminate | congruence]. }
  intros [= <-].
  apply first_rejected_None in Hfirst. rewrite Forall_forall in Hfirst.
  assert (forall b, b ∈ Lifecycle.bindings g ->
            rejected (Lifecycle.notifyObserver this' event 0 b) = None) as Hok.
  { intros b Hb. rewrite <- (notifyObserver_ctx this this') by exact Hctx.
    rewrite <- (proj2 (notifyObserver_shift this event (Lifecycle.now w) b)).
    apply Hfirst. apply list_elem_of_In, in_map, list_elem_of_In, Hb. }
  destruct (notifyInTurn_fulfilled this' event (Lifecycle.bindings g) Hok
              (Lifecycle.now w)) as (calls & t' & Hrun & Hkeys & Hbound).
  rewrite Hrun. eexists. split; [reflexivity|]. simpl. split.
  - specialize (Hbound (Lifecycle.now w) ltac:(lia)).
    erewrite map_ext; [exact Hbound|].
    intros b. now apply notifyObserver_ctx.
  - unfold visited. rewrite !fmap_app. simpl.
    now rewrite notifyObserver_callees, Hkeys.
Qed.

(** The group [server] of [B] and [D] at [preStart]: left at instant 6 in
    parallel, at instant 8 in turn. *)
Lemma parallel_group_is_not_slower_witness :
  exists ws,
    Lifecycle.notifyObserverGroup
      (Scenario.registry
         (Scenario.failing [Scenario.B; Scenario.D]) ["server"] false)
      {| Lifecycle.group := "server";
         Lifecycle.bindings := [Scenario.B; Scenario.D] |}
      "preStart" Scenario.idle = (ws, inr tt) /\
    (6 <= Lifecycle.now ws)%nat /\
    [("preStart", ("server", ["B"; "D"]))] = visited (Lifecycle.trace ws).
Proof.
  apply (parallel_group_is_not_slower
           (Scenario.registry
              (Scenario.failing [Scenario.B; Scenario.D]) ["server"] true)
           (Scenario.registry
              (Scenario.failing [Scenario.B; Scenario.D]) ["server"] false)
           {| Lifecycle.group := "server";
              Lifecycle.bindings := [Scenario.B; Scenario.D] |}
           "preStart" Scenario.idle
           {| Lifecycle.now := 6;
              Lifecycle.trace :=
                [{| Lifecycle.visit_event := "preStart";
                    Lifecycle.visit_group := "server";
                    Lifecycle.visit_calls :=
                      [{| callee := "B"; called := 0; settled := 2;
                          rejected := None |};
                       {| callee := "D"; called := 0; settled := 6;
                          rejected := None |}] |}] |}).
  - reflexivity.
  - reflexivity.
  - reflexivity.
  - vm_compute. reflexivity.
Defined.

(** ** Members in registration order *)

Lemma members_sublist classify g (input : list Binding) :
  members classify g input `sublist_of` input.
Proof.
  unfold members. induction input as [|b input IH]; [constructor|].
  rewrite filter_cons. destruct (decide (classify b = g)); now constructor.
Qed.

Lemma List_filter_sublist {A} (f : A -> bool) (l : list A) :
  List.filter f l `sublist_of` l.
Proof.
  induction l as [|x l IH]; simpl; [constructor|].
  destruct (f x); now constructor.
Qed.

(** X17.  Members keep the order of registration: the bindings of every
    group [getObserverGroupsByOrder] returns are a subsequence of the
    bindings registered in the context, and the bindings of every phase
    [getMiddlewarePhasesByOrder] returns are a subsequence of the bindings
    of the view; so the members of a group are notified, and the middleware
    of a phase mounted, in the order of registration. *)
Theorem members_keep_registration_order :
  (forall CoreTags this g,
     g ∈ Lifecycle.getObserverGroupsByOrder CoreTags this ->
     Lifecycle.bindings g
       `sublist_of` Lifecycle.registered (Lifecycle.ctx this)) /\
  (forall this p,
     p ∈ Middleware.getMiddlewarePhasesByOrder this ->
     Middleware.bindings p
       `sublist_of` Middleware.view_bindings (Middleware.middlewareView this)).
Proof.
  split.
  - intros CoreTags this g Hg.
    unfold Lifecycle.getObserverGroupsByOrder,
      Lifecycle.sortObserverBindingsByGroup in Hg. rewrite groups_of_fmap in Hg.
    eapply (sorted_entry Lifecycle.group Lifecycle.bindings) in Hg;
      [|reflexivity..].
    destruct Hg as [_ ->]. etransitivity; [apply members_sublist|].
    apply List_filter_sublist.
  - intros this p Hp.
    unfold Middleware.getMiddlewarePhasesByOrder,
      Middleware.sortMiddlewareBindingsByPhase in Hp. rewrite phases_of_fmap in Hp.
    eapply (sorted_entry Middleware.phase Middleware.bindings) in Hp;
      [|reflexivity..].
    destruct Hp as [_ ->]. apply members_sublist.
Qed.

(** The phase [auth] of the scenario. *)
Lemma members_keep_registration_order_witness :
  [Scenario.M1; Scenario.M2]
    `sublist_of` [Scenario.M1; Scenario.M3; Scenario.M2].
Proof.
  apply (proj2 members_keep_registration_order
           (Scenario.middlewareRegistry
              [Scenario.M1; Scenario.M3; Scenario.M2] ["log"; "auth"])
           {| Middleware.phase := "auth";
              Middleware.bindings := [Scenario.M1; Scenario.M2] |}).
  vm_compute. right. left.
Defined.

(** * The router is assembled on shared arrays *)

(** ** Loops over an array of the heap *)

Section HeapLoops.
Context {E S : Type} (arrays : Store.Heap -> list (list E)).
Variables (a : Store.ref) (l : list E) (body : E -> S -> Store.Run S).

(** A loop whose rounds keep an invariant under which the array is [l]
    and the body returns: it makes one round for each element of [l]. *)
Lemma for_of_rounds (P : nat -> S -> Store.Heap -> Prop) :
  (forall i s h, P i s h -> arrays h !! a = Some l) ->
  (forall i x s h, l !! i = Some x -> P i s h ->
     exists h' s', body x s h = Some (h', inr s') /\ P (Datatypes.S i) s' h') ->
  forall fuel i s h,
    P i s h -> (i <= length l)%nat -> (length l - i < fuel)%nat ->
    exists h' s',
      Store.for_of arrays fuel a i body s h = Some (h', inr s') /\
      P (length l) s' h'.
Proof.
  intros Harray Hstep fuel.
  induction fuel as [|fuel IH]; intros i s h HP Hi Hfuel; [lia|].
  simpl. rewrite (Harray i s h HP).
  destruct (l !! i) as [x|] eqn:Hx.
  - destruct (Hstep i x s h Hx HP) as (h' & s' & Hbody & HP').
    unfold Store.bind. rewrite Hbody.
    apply lookup_lt_Some in Hx. apply IH; [exact HP' | lia | lia].
  - apply lookup_ge_None in Hx. assert (i = length l) as -> by lia.
    now exists h, s.
Qed.

End HeapLoops.

Section HeapCollect.
Context {E B : Type} (arrays : Store.Heap -> list (list E)).
Variables (a : Store.ref) (l : list E).
Variables (body : E -> list B -> Store.Run (list B)) (f : E -> Error + B).
Variable h : Store.Heap.
Hypothesis array_l : arrays h !! a = Some l.
Hypothesis body_f : forall x s, x ∈ l ->
  body x s h = Some (h, match f x with
                        | inl e => inl e
                        | inr y => inr (s ++ [y])
                        end).

(** A loop whose rounds leave the heap as it is, and each either throw
    or add one item to what is collected. *)
Lemma for_of_collect fuel : forall i s,
  (length l - i < fuel)%nat ->
  Store.for_of arrays fuel a i body s h
  = Some (h, match Middleware.for_of (drop i l) f with
             | inl e => inl e
             | inr ys => inr (s ++ ys)
             end).
Proof.
  induction fuel as [|fuel IH]; intros i s Hfuel; [lia|].
  simpl. rewrite array_l.
  destruct (l !! i) as [x|] eqn:Hx.
  - rewrite (drop_S l x i Hx). simpl. unfold Store.bind.
    rewrite body_f by (eapply list_elem_of_lookup_2; exact Hx).
    destruct (f x) as [e|y]; [reflexivity|].
    apply lookup_lt_Some in Hx. rewrite IH by lia.
    destruct (Middleware.for_of (drop (Datatypes.S i) l) f) as [e|ys];
      [reflexivity|]. now rewrite <- app_assoc.
  - apply lookup_ge_None in Hx. rewrite drop_ge by lia. simpl.
    now rewrite app_nil_r.
Qed.

End HeapCollect.

Lemma collect_fmap {A A' B} (g : A -> A') (f : A' -> Error + B) (xs : list A) :
  Middleware.for_of xs (fun x => f (g x)) = Middleware.for_of (g <$> xs) f.
Proof.
  induction xs as [|x xs IH]; [reflexivity|].
  rewrite fmap_cons. simpl. now rewrite IH.
Qed.

(** ** The map of references *)

Section MapOfRefs.
Implicit Types (m : JS.Map string (list Binding)) (n : Store.ref).

Lemma Map_set_fresh {V} (m : JS.Map string V) k (v : V) :
  JS.Map_get m k = None -> JS.Map_set m k v = m ++ [(k, v)].
Proof.
  induction m as [|[k0 v0] m IH]; simpl; [reflexivity|].
  destruct (decide (k0 = k)); [discriminate|]. intros Hget. now rewrite IH.
Qed.

Lemma refs_from_None m n k :
  JS.Map_get m k = None -> JS.Map_get (refs_from n m) k = None.
Proof.
  revert n. induction m as [|[k0 v0] m IH]; intros n; simpl; [reflexivity|].
  destruct (decide (k0 = k)); [discriminate|]. apply IH.
Qed.

(** The reference under a name is the position of the entry of that name. *)
Lemma refs_from_Some m n k bs :
  JS.Map_get m k = Some bs ->
  exists j : nat,
    JS.Map_get (refs_from n m) k = Some (n + j)%nat /\
    m !! j = Some (k, bs) /\
    forall bs', JS.Map_set m k bs' = <[j := (k, bs')]> m.
Proof.
  revert n. induction m as [|[k0 v0] m IH]; intros n; simpl; [discriminate|].
  destruct (decide (k0 = k)) as [->|Hne].
  - intros [= ->]. exists 0%nat. rewrite Nat.add_0_r.
    split; [reflexivity|]. split; [reflexivity|]. intros bs'. reflexivity.
  - intros Hget. destruct (IH (Datatypes.S n) Hget) as (j & Hj & Hm & Hset).
    exists (Datatypes.S j). split; [|split].
    + rewrite Hj. f_equal. lia.
    + exact Hm.
    + intros bs'. simpl. now rewrite Hset.
Qed.

Lemma refs_from_snoc m n k bs :
  refs_from n (m ++ [(k, bs)]) = refs_from n m ++ [(k, (n + length m)%nat)].
Proof.
  revert n. induction m as [|[k0 v0] m IH]; intros n; simpl.
  - now rewrite Nat.add_0_r.
  - now rewrite IH, Nat.add_succ_r.
Qed.

Lemma refs_from_insert m n j k bs bs' :
  m !! j = Some (k, bs) -> refs_from n (<[j := (k, bs')]> m) = refs_from n m.
Proof.
  revert n j. induction m as [|[k0 v0] m IH]; intros n j; [discriminate|].
  destruct j as [|j]; simpl.
  - now intros [= -> ->].
  - intros Hj. now rewrite (IH _ _ Hj).
Qed.

Lemma refs_from_length m n : length (refs_from n m) = length m.
Proof.
  revert n. induction m as [|[k0 v0] m IH]; intros n; simpl; [reflexivity|].
  now rewrite IH.
Qed.

(** Read off a heap that holds the arrays of [m] behind the arrays
    [arrays], the references are the entries of [m]. *)
Lemma refs_from_load m (arrays : list (list Binding)) :
  (fun e => (e.1, (arrays ++ m.*2) !! e.2)) <$> refs_from (length arrays) m
  = (fun e => (e.1, Some e.2)) <$> m.
Proof.
  revert arrays. induction m as [|[k0 v0] m IH]; intros arrays; [reflexivity|].
  cbn [refs_from]. rewrite !fmap_cons. cbn [fst snd]. f_equal.
  - f_equal. now rewrite list_lookup_middle.
  - specialize (IH (arrays ++ [v0])).
    rewrite length_app, Nat.add_1_r, <- app_assoc in IH. exact IH.
Qed.

End MapOfRefs.

(** ** The number of groups and of their members *)

Section GroupSizes.
Variable classify : Binding -> string.

Lemma Map_set_length {V} (m : JS.Map string V) k (v : V) :
  (length (JS.Map_set m k v) <= Datatypes.S (length m))%nat.
Proof.
  induction m as [|[k0 v0] m IH]; simpl; [lia|].
  destruct (decide (k0 = k)); simpl; lia.
Qed.

Lemma group_by_length (input : list Binding) :
  (length (fold_left (group_add classify) input []) <= length input)%nat.
Proof.
  induction input as [|b input IH] using rev_ind; [reflexivity|].
  rewrite fold_left_app, length_app. simpl. unfold group_add at 1.
  pose proof (Map_set_length (fold_left (group_add classify) input [])
                (classify b)) as Hset.
  destruct (JS.Map_get _ (classify b)) as [bs|];
    [specialize (Hset (bs ++ [b])) | specialize (Hset [b])]; lia.
Qed.

Lemma group_by_member_length (input : list Binding) g bs :
  (g, bs) ∈ fold_left (group_add classify) input [] ->
  (length bs <= length input)%nat.
Proof.
  intros Hin. rewrite <- (Permutation_length (group_by_cover classify input)).
  revert Hin. generalize (fold_left (group_add classify) input []).
  intros m. induction m as [|e m IH]; intros Hin; [inversion Hin|].
  rewrite bind_cons, length_app.
  apply elem_of_cons in Hin as [<-|Hin]; [simpl; lia|].
  specialize (IH Hin). lia.
Qed.

End GroupSizes.

(** ** [sortMiddlewareBindingsByPhase] on the heap *)

(** A write to the array made last. *)
Lemma insert_behind {A} (l : list A) (x y : A) :
  <[length l := y]> (l ++ [x]) = l ++ [y].
Proof.
  rewrite <- (Nat.add_0_r (length l)). now rewrite insert_app_r.
Qed.

Section SortOnHeap.
Variable fuel : nat.
Variable h : Store.Heap.
Variables (bindings : Store.ref) (view : list Binding).
Hypothesis view_in_heap : Store.bindingArrays h !! bindings = Some view.
Hypothesis enough_fuel : (length view < fuel)%nat.

Local Abbreviation grouped :=
  (fun input => fold_left (group_add Middleware.getMiddlewarePhase) input []).

Local Abbreviation with_arrays := (fun arrays =>
  {| Store.options := Store.options h;
     Store.bindingArrays := arrays;
     Store.phaseArrays := Store.phaseArrays h |}).

(** The first loop leaves the arrays of the heap as they are and puts
    the arrays of the map behind them, in the order of its entries. *)
Lemma first_loop_on_heap body :
  body = (fun binding (phaseMap : JS.Map string Store.ref) =>
            let phase := Middleware.getMiddlewarePhase binding in
            match JS.Map_get phaseMap phase with
            | None =>
                Store.bind Store.new_array (fun bindingsInPhase =>
                  let phaseMap := JS.Map_set phaseMap phase bindingsInPhase in
                  Store.bind (Store.push bindingsInPhase binding)
                    (fun _ => Store.ret phaseMap))
            | Some bindingsInPhase =>
                Store.bind (Store.push bindingsInPhase binding)
                  (fun _ => Store.ret phaseMap)
            end) ->
  Store.for_of Store.bindingArrays fuel bindings 0 body [] h
  = Some (with_arrays (Store.bindingArrays h ++ (grouped view).*2),
          inr (refs_from (length (Store.bindingArrays h)) (grouped view))).
Proof.
  intros Hbody.
  set (P := fun (i : nat) (s : JS.Map string Store.ref) (h' : Store.Heap) =>
              s = refs_from (length (Store.bindingArrays h)) (grouped (take i view)) /\
              h' = with_arrays
                     (Store.bindingArrays h ++ (grouped (take i view)).*2)).
  assert (forall i s h', P i s h' ->
            Store.bindingArrays h' !! bindings = Some view) as Harray.
  { intros i s h' [_ ->]. simpl. now apply lookup_app_l_Some. }
  assert (forall i x s h', view !! i = Some x -> P i s h' ->
            exists h'' s', body x s h' = Some (h'', inr s') /\
                           P (Datatypes.S i) s' h'') as Hstep.
  { intros i x s h' Hx [-> ->]. subst body P. cbv beta.
    rewrite (take_S_r _ _ _ Hx), fold_left_app. cbn [fold_left].
    set (m := grouped (take i view)). unfold group_add.
    destruct (JS.Map_get m (Middleware.getMiddlewarePhase x)) as [bs|] eqn:Hget.
    + destruct (refs_from_Some m (length (Store.bindingArrays h)) _ _ Hget) as (j & Hj & Hm & Hset).
      cbv zeta. rewrite Hj. unfold Store.bind, Store.push, Store.ret. simpl.
      assert ((Store.bindingArrays h ++ m.*2)
                !! (length (Store.bindingArrays h) + j)%nat = Some bs) as Hbs.
      { rewrite lookup_app_r by lia.
        replace (length (Store.bindingArrays h) + j
                 - length (Store.bindingArrays h))%nat with j by lia.
        rewrite list_lookup_fmap. apply (f_equal (fmap snd)) in Hm. exact Hm. }
      rewrite Hbs. eexists _, _. split; [reflexivity|].
      rewrite Hset, (refs_from_insert _ _ _ _ _ _ Hm). split; [reflexivity|].
      f_equal. rewrite insert_app_r. f_equal.
      symmetry. apply (list_fmap_insert snd).
    + cbv zeta. rewrite (refs_from_None _ (length (Store.bindingArrays h)) _ Hget).
      unfold Store.bind, Store.new_array, Store.push, Store.ret. simpl.
      rewrite list_lookup_middle by reflexivity.
      eexists _, _. split; [reflexivity|].
      rewrite !Map_set_fresh
        by (first [exact Hget | now apply refs_from_None]).
      rewrite refs_from_snoc, fmap_app. simpl. split.
      * do 3 f_equal. rewrite length_app. f_equal. apply length_fmap.
      * f_equal. now rewrite insert_behind, <- app_assoc. }
  destruct (for_of_rounds Store.bindingArrays bindings view body P
              Harray Hstep fuel 0%nat [] h) as (h' & s' & Hrun & -> & ->);
    [split; [reflexivity | destruct h; simpl; now rewrite app_nil_r]
    | lia | lia |].
  rewrite Hrun. now rewrite firstn_all.
Qed.

(** The second loop fills the array [phases]. *)
Lemma second_loop_on_heap (entries : list (string * Store.ref)) phases :
  forall g acc,
    Store.phaseArrays g !! phases = Some acc ->
    Store.for_of_entries entries
      (fun entry => Store.push_phase phases
                      {| Store.phase := entry.1; Store.bindings := entry.2 |}) g
    = Some ({| Store.options := Store.options g;
               Store.bindingArrays := Store.bindingArrays g;
               Store.phaseArrays :=
                 <[phases :=
                     acc ++ ((fun e => {| Store.phase := e.1;
                                          Store.bindings := e.2 |})
                               <$> entries)]> (Store.phaseArrays g) |},
            inr tt).
Proof.
  induction entries as [|entry entries IH]; intros g acc Hacc.
  - simpl. unfold Store.ret. rewrite app_nil_r, list_insert_id by exact Hacc.
    now destruct g.
  - cbn [Store.for_of_entries]. unfold Store.bind at 1, Store.push_phase at 1.
    rewrite Hacc. erewrite IH.
    2: { simpl. apply list_lookup_insert_eq. now apply lookup_lt_Some in Hacc. }
    simpl. rewrite list_insert_insert_eq, <- app_assoc. reflexivity.
Qed.

(** [sortMiddlewareBindingsByPhase] puts the arrays of the phases and the
    array of the phase objects behind the arrays the heap holds, returns
    the latter sorted, and writes to nothing else. *)
Lemma sortMiddlewareBindingsByPhase_on_heap :
  Store.sortMiddlewareBindingsByPhase fuel bindings h
  = Some ({| Store.options := Store.options h;
             Store.bindingArrays :=
               Store.bindingArrays h ++ (grouped view).*2;
             Store.phaseArrays :=
               Store.phaseArrays h ++
               [JS.sort (Store.comparePhases (Store.options h))
                  ((fun e => {| Store.phase := e.1; Store.bindings := e.2 |})
                     <$> refs_from (length (Store.bindingArrays h))
                           (grouped view))] |},
          inr (length (Store.phaseArrays h))).
Proof.
  unfold Store.sortMiddlewareBindingsByPhase. unfold Store.bind at 1.
  erewrite first_loop_on_heap by reflexivity.
  unfold Store.bind at 1, Store.new_phases at 1. cbn [Store.phaseArrays].
  unfold Store.bind at 1. erewrite second_loop_on_heap.
  2: { cbn [Store.phaseArrays]. now apply list_lookup_middle. }
  unfold Store.sort. cbn [Store.phaseArrays Store.options Store.bindingArrays].
  rewrite insert_behind, list_lookup_middle by reflexivity.
  now rewrite insert_behind.
Qed.

End SortOnHeap.

(** ** The loops of [createExpressRouter] on the heap *)

Section MountOnHeap.
Context {H : Type}.
Variables (fuel : nat) (g : Store.Heap).
Variables (bindings : Store.ref) (view : list Binding) (middleware : list H).
Hypothesis view_in_heap : Store.bindingArrays g !! bindings = Some view.

(** The inner loop reads the heap and writes to nothing. *)
Lemma inner_loop_on_heap bindingsInPhase phase body :
  body = (fun binding (phaseRouter : list (Middleware.Layer H)) =>
            Store.bind (Store.indexOf bindings binding) (fun index =>
              Store.bind
                (Store.lift
                   (if JS.truthy (tagMap binding !! "path")
                    then Middleware.use (tagMap binding !! "path")
                                        (JS.nth middleware index)
                    else Middleware.use None (JS.nth middleware index)))
                (fun layer => Store.ret (phaseRouter ++ [layer])))) ->
  Store.bindingArrays g !! bindingsInPhase
  = Some (Middleware.bindings phase) ->
  (length (Middleware.bindings phase) < fuel)%nat ->
  Store.for_of Store.bindingArrays fuel bindingsInPhase 0 body [] g
  = Some (g, Middleware.phaseRouter_of middleware view phase).
Proof.
  intros -> Hmembers Hfuel.
  erewrite (for_of_collect Store.bindingArrays bindingsInPhase
              (Middleware.bindings phase) _
              (fun binding =>
                 let index := JS.indexOf view binding in
                 if JS.truthy (tagMap binding !! "path")
                 then Middleware.use (tagMap binding !! "path")
                                     (JS.nth middleware index)
                 else Middleware.use None (JS.nth middleware index))
              g Hmembers).
  - unfold Middleware.phaseRouter_of. simpl.
    now destruct (Middleware.for_of _ _).
  - intros x s _. unfold Store.bind, Store.indexOf, Store.lift, Store.ret.
    rewrite view_in_heap. cbv zeta.
    now destruct (if JS.truthy (tagMap x !! "path") then _ else _).
  - lia.
Qed.

(** The outer loop reads the heap and writes to nothing. *)
Lemma outer_loop_on_heap phases sorted body :
  body = (fun phase (rootRouter : Middleware.Router H) =>
            let bindingsInPhase := Store.bindings phase in
            Store.bind
              (Store.for_of Store.bindingArrays fuel bindingsInPhase 0
                 (fun binding (phaseRouter : list (Middleware.Layer H)) =>
                    Store.bind (Store.indexOf bindings binding) (fun index =>
                      Store.bind
                        (Store.lift
                           (if JS.truthy (tagMap binding !! "path")
                            then Middleware.use (tagMap binding !! "path")
                                                (JS.nth middleware index)
                            else Middleware.use None (JS.nth middleware index)))
                        (fun layer => Store.ret (phaseRouter ++ [layer]))))
                 [])
              (fun phaseRouter => Store.ret (rootRouter ++ [phaseRouter]))) ->
  Store.phaseArrays g !! phases = Some sorted ->
  (length sorted < fuel)%nat ->
  (forall p, p ∈ sorted ->
     exists members,
       Store.bindingArrays g !! Store.bindings p = Some members /\
       (length members < fuel)%nat) ->
  Store.for_of Store.phaseArrays fuel phases 0 body [] g
  = Some (g, Middleware.for_of (load (Store.bindingArrays g) <$> sorted)
               (Middleware.phaseRouter_of middleware view)).
Proof.
  intros -> Hsorted Hfuel Hmembers.
  erewrite (for_of_collect Store.phaseArrays phases sorted _
              (fun p => Middleware.phaseRouter_of middleware view
                          (load (Store.bindingArrays g) p))
              g Hsorted).
  - simpl. rewrite <- collect_fmap. now destruct (Middleware.for_of _ _).
  - intros p s Hp. destruct (Hmembers p Hp) as (members & Hload & Hlen).
    cbv zeta. unfold Store.bind at 1.
    erewrite (inner_loop_on_heap (Store.bindings p)
                (load (Store.bindingArrays g) p)); [| reflexivity | |].
    + now destruct (Middleware.phaseRouter_of _ _ _).
    + unfold load. simpl. now rewrite Hload.
    + unfold load. simpl. now rewrite Hload.
  - lia.
Qed.

End MountOnHeap.

(** The references of the map lead to the arrays of the map. *)
Lemma refs_from_elem m (arrays : list (list Binding)) e :
  e ∈ refs_from (length arrays) m ->
  exists bs, (arrays ++ m.*2) !! e.2 = Some bs /\ (e.1, bs) ∈ m.
Proof.
  intros He.
  apply (list_elem_of_fmap_2 (fun e => (e.1, (arrays ++ m.*2) !! e.2))) in He.
  rewrite refs_from_load in He.
  apply list_elem_of_fmap in He as ([k bs] & [= Hk Hbs] & Hin).
  exists bs. simpl in *. split; [exact Hbs|]. now rewrite Hk.
Qed.

(** ** [createExpressRouter] on the heap *)

(** An invocation on a heap that holds the array of the view returns or
    throws what the method without a heap does on the elements of that
    array and on the options of the heap, and leaves alone what the heap
    held. *)
Lemma createExpressRouter_on_heap this fuel {H} (values : Error + list H)
    h view :
  Store.bindingArrays h !! Store.middlewareView this = Some view ->
  (length view < fuel)%nat ->
  exists h',
    Store.createExpressRouter this fuel values h
    = Some (h', Middleware.createExpressRouter (snapshot view h) values) /\
    untouched h h'.
Proof.
  intros Hview Hfuel.
  unfold Store.createExpressRouter, Store.getMiddlewarePhasesByOrder.
  unfold Store.bind at 1.
  rewrite (sortMiddlewareBindingsByPhase_on_heap fuel h _ view Hview Hfuel).
  set (m := fold_left (group_add Middleware.getMiddlewarePhase) view []).
  set (mk := fun e : string * nat =>
               {| Store.phase := e.1; Store.bindings := e.2 |}).
  set (sorted := JS.sort (Store.comparePhases (Store.options h))
                   (mk <$> refs_from (length (Store.bindingArrays h)) m)).
  set (h' := {| Store.options := Store.options h;
                Store.bindingArrays := Store.bindingArrays h ++ m.*2;
                Store.phaseArrays := Store.phaseArrays h ++ [sorted] |}).
  exists h'. split.
  2: { split; [reflexivity|]. split; now apply prefix_app_r. }
  destruct values as [e|middleware]; [reflexivity|].
  unfold Store.bind at 1, Store.lift at 1.
  erewrite (outer_loop_on_heap fuel h' (Store.middlewareView this) view
              middleware).
  2: { simpl. now apply lookup_app_l_Some. }
  2: reflexivity.
  2: { simpl. now apply list_lookup_middle. }
  - f_equal. f_equal. unfold Middleware.createExpressRouter.
    f_equal. unfold Middleware.getMiddlewarePhasesByOrder,
      Middleware.sortMiddlewareBindingsByPhase.
    rewrite phases_of_fmap. fold m. subst sorted.
    rewrite (sort_fmap (load (Store.bindingArrays h'))
               (Store.comparePhases (Store.options h))
               (Middleware.comparePhases (snapshot view h)))
      by reflexivity.
    f_equal. rewrite <- list_fmap_compose.
    pose proof (refs_from_load m (Store.bindingArrays h)) as Hload.
    apply (f_equal (fmap (fun e : string * option (list Binding) =>
                            {| Middleware.phase := e.1;
                               Middleware.bindings := default [] e.2 |})))
      in Hload.
    rewrite <- !list_fmap_compose in Hload. exact Hload.
  - subst sorted. rewrite (Permutation_length (sort_perm _ _)).
    rewrite length_fmap, refs_from_length.
    pose proof (group_by_length Middleware.getMiddlewarePhase view) as Hcount.
    fold m in Hcount. lia.
  - intros p Hp. subst sorted. rewrite (sort_perm _ _) in Hp.
    apply list_elem_of_fmap in Hp as (e & -> & He).
    apply refs_from_elem in He as (bs & Hbs & Hin).
    exists bs. split; [exact Hbs|].
    apply group_by_member_length in Hin. lia.
Qed.

(** C9.  Building the router twice gives the same router.  On a heap that
    holds the array of the view, an invocation of [createExpressRouter]
    settles (given rounds enough for its loops); it leaves [this.options]
    and every array that the heap held, the one of the view among them,
    as they were, and puts the arrays it makes behind them.  A second
    invocation, on the heap the first one left and with the same handlers
    resolved, settles in the same way: with the same router, that is with
    the same phases in the same order and in each phase the same members
    in the same order, each at the same path, or with the same rejection.
    What the two settle with is what the method without a heap yields for
    the elements of the view and the options. *)
Theorem createExpressRouter_is_repeatable :
  forall (this : Store.MiddlewareRegistry) (fuel : nat) (H : Type)
         (values : Error + list H) (h : Store.Heap) (view : list Binding),
    Store.bindingArrays h !! Store.middlewareView this = Some view ->
    (length view < fuel)%nat ->
    exists (h1 h2 : Store.Heap) (router : Error + Middleware.Router H),
      Store.createExpressRouter this fuel values h = Some (h1, router) /\
      Store.createExpressRouter this fuel values h1 = Some (h2, router) /\
      untouched h h1 /\ untouched h1 h2 /\
      router = Middleware.createExpressRouter (snapshot view h) values.
Proof.
  intros this fuel H values h view Hview Hfuel.
  destruct (createExpressRouter_on_heap this fuel values h view Hview Hfuel)
    as (h1 & Hfirst & Hkept).
  assert (Store.bindingArrays h1 !! Store.middlewareView this = Some view)
    as Hview1.
  { destruct Hkept as (_ & [behind ->] & _). now apply lookup_app_l_Some. }
  destruct (createExpressRouter_on_heap this fuel values h1 view Hview1 Hfuel)
    as (h2 & Hsecond & Hkept1).
  exists h1, h2, (Middleware.createExpressRouter (snapshot view h) values).
  split; [exact Hfirst|]. split.
  - rewrite Hsecond. do 3 f_equal. unfold snapshot. f_equal.
    now destruct Hkept as [-> _].
  - split; [exact Hkept|]. split; [exact Hkept1 | reflexivity].
Qed.

(** The three middleware of the scenario, assembled twice. *)
Lemma createExpressRouter_is_repeatable_witness :
  exists (h1 h2 : Store.Heap) (router : Error + Middleware.Router string),
    Store.createExpressRouter Scenario.registryOnHeap 4
      (inr ["h1"; "h2"; "h3"])
      (Scenario.heap [Scenario.M1; Scenario.M2; Scenario.M3] ["log"; "auth"])
    = Some (h1, router) /\
    Store.createExpressRouter Scenario.registryOnHeap 4
      (inr ["h1"; "h2"; "h3"]) h1
    = Some (h2, router) /\
    untouched
      (Scenario.heap [Scenario.M1; Scenario.M2; Scenario.M3] ["log"; "auth"])
      h1 /\
    untouched h1 h2 /\
    router
    = Middleware.createExpressRouter
        (snapshot [Scenario.M1; Scenario.M2; Scenario.M3]
           (Scenario.heap [Scenario.M1; Scenario.M2; Scenario.M3]
              ["log"; "auth"]))
        (inr ["h1"; "h2"; "h3"]).
Proof.
  apply (createExpressRouter_is_repeatable Scenario.registryOnHeap 4%nat
           string (inr ["h1"; "h2"; "h3"])
           (Scenario.heap [Scenario.M1; Scenario.M2; Scenario.M3]
              ["log"; "auth"])
           [Scenario.M1; Scenario.M2; Scenario.M3]).
  - reflexivity.
  - simpl. lia.
Defined.

(** The heap after the first assembly of the scenario: behind the array
    of the view lie the arrays of the phases [auth] and [log], and the
    array of the phase objects, sorted; the router is the one of
    [router_of_three]. *)
Example router_of_three_on_heap :
  Store.createExpressRouter Scenario.registryOnHeap 4
    (inr ["h1"; "h2"; "h3"])
    (Scenario.heap [Scenario.M1; Scenario.M2; Scenario.M3] ["log"; "auth"])
  = Some
      ({| Store.options := {| Middleware.phasesByOrder := ["log"; "auth"];
                              Middleware.parallel := Some false |};
          Store.bindingArrays :=
            [[Scenario.M1; Scenario.M2; Scenario.M3];
             [Scenario.M1; Scenario.M2];
             [Scenario.M3]];
          Store.phaseArrays :=
            [[{| Store.phase := "log"; Store.bindings := 2%nat |};
              {| Store.phase := "auth"; Store.bindings := 1%nat |}]] |},
       inr [[{| Middleware.path := None; Middleware.handle := Some "h3" |}];
            [{| Middleware.path := Some "/api";
                Middleware.handle := Some "h1" |};
             {| Middleware.path := None; Middleware.handle := Some "h2" |}]]).
Proof. vm_compute. reflexivity. Qed.

(** After [setPhasesByOrder(['auth', 'log'])] on that heap, the phase
    [auth] is mounted first. *)
Example router_of_three_reordered :
  match Store.setPhasesByOrder (Some ["auth"; "log"])
          (Scenario.heap [Scenario.M1; Scenario.M2; Scenario.M3]
             ["log"; "auth"]) with
  | Some (h, _) =>
      snd <$> Store.createExpressRouter Scenario.registryOnHeap 4
                (inr ["h1"; "h2"; "h3"]) h
  | None => None
  end
  = Some
      (inr [[{| Middleware.path := Some "/api";
                Middleware.handle := Some "h1" |};
             {| Middleware.path := None; Middleware.handle := Some "h2" |}];
            [{| Middleware.path := None; Middleware.handle := Some "h3" |}]]).
Proof. vm_compute. reflexivity. Qed.
